(** * SQL dump extraction engine of [migration.py] ([SQLFileParser])

    A shallow embedding of the four static methods of [SQLFileParser]
    ([clean_value], [parse_values_string], [extract_table_data],
    [parse_sql_file]) together with the small part of Python's [str] and
    [re] libraries they call, followed by the properties of the engine.

    Text is a list of characters.  A character is a code point below 256;
    on that range Python's [str.isspace], [str.upper] and the [re] flags
    [IGNORECASE] and [DOTALL] behave as transcribed in [PyStr] and [PyRe]. *)

From Stdlib Require Import Ascii String List Arith Bool Lia.
Import ListNotations.

Local Open Scope char_scope.
Local Open Scope nat_scope.
Local Open Scope list_scope.

Definition str := list ascii.

Definition L (s : string) : str := list_ascii_of_string s.
Arguments L s%_string.

(** ** The operations of Python's [str] used by the parser *)

Module PyStr.

(** [ch.isspace()] on code points below 256: TAB, LF, VT, FF, CR, the four
    separators FS GS RS US, the space, NEL and the no-break space. *)
Definition isspace (c : ascii) : bool :=
  let n := nat_of_ascii c in
  ((9 <=? n) && (n <=? 13)) || ((28 <=? n) && (n <=? 32))
  || (n =? 133) || (n =? 160).

Definition is_lower (c : ascii) : bool :=
  let n := nat_of_ascii c in (97 <=? n) && (n <=? 122).

Definition is_upper (c : ascii) : bool :=
  let n := nat_of_ascii c in (65 <=? n) && (n <=? 90).

(** Case mapping of the letters a-z and A-Z.  The other code points are
    left alone: their upper-case forms are never one of N, U, L and their
    lower-case forms never an ASCII letter, so the comparisons the parser
    makes ([value.upper() == 'NULL'], keyword matching) are unaffected. *)
Definition upper_char (c : ascii) : ascii :=
  if is_lower c then ascii_of_nat (nat_of_ascii c - 32) else c.

Definition lower_char (c : ascii) : ascii :=
  if is_upper c then ascii_of_nat (nat_of_ascii c + 32) else c.

Definition upper (s : str) : str := map upper_char s.

Fixpoint eqb (a b : str) : bool :=
  match a, b with
  | [], [] => true
  | x :: a', y :: b' => Ascii.eqb x y && eqb a' b'
  | _, _ => false
  end.

Fixpoint startswith (p s : str) : bool :=
  match p, s with
  | [], _ => true
  | x :: p', y :: s' => Ascii.eqb x y && startswith p' s'
  | _ :: _, [] => false
  end.

Definition endswith (p s : str) : bool := startswith (rev p) (rev s).

Fixpoint lstrip (s : str) : str :=
  match s with
  | c :: s' => if isspace c then lstrip s' else s
  | [] => []
  end.

Definition rstrip (s : str) : str := rev (lstrip (rev s)).

Definition strip (s : str) : str := rstrip (lstrip s).

(** [s[1:]], [s[:-1]] and [s[1:-1]]. *)
Definition drop_first (s : str) : str := tl s.
Definition drop_last (s : str) : str := removelast s.
Definition inner (s : str) : str := removelast (tl s).

(** [s.replace(old, new)] for a non-empty [old]: occurrences are replaced
    from left to right and do not overlap.  [skip] counts the characters
    of the occurrence just replaced that are still to be passed over. *)
Fixpoint replace_from (old new : str) (skip : nat) (s : str) : str :=
  match s with
  | [] => []
  | c :: s' =>
      match skip with
      | S k => replace_from old new k s'
      | O =>
          if startswith old s
          then new ++ replace_from old new (length old - 1) s'
          else c :: replace_from old new 0 s'
      end
  end.

Definition replace (old new s : str) : str := replace_from old new 0 s.

(** [s.split(sep)] for a one-character separator. *)
Fixpoint split (sep : ascii) (s : str) : list str :=
  match s with
  | [] => [[]]
  | c :: s' =>
      if Ascii.eqb c sep then [] :: split sep s'
      else match split sep s' with
           | piece :: pieces => (c :: piece) :: pieces
           | [] => [[c]]
           end
  end.

End PyStr.

(** ** The fragment of Python's [re] used by the parser

    Both patterns of [extract_table_data] are flat: a sequence of single
    characters, starred character classes ([.*?], [\s*]) and one capture
    group.  [exec] is the backtracking matcher of [re] on such patterns:
    alternatives are tried in priority order (a lazy star tries the shortest
    repetition first, a greedy star the longest) and the first one that lets
    the rest of the pattern match wins. *)

Module PyRe.

Inductive atom : Type :=
| One (p : ascii -> bool)     (* one character of a class *)
| Lazy (p : ascii -> bool)    (* class*? *)
| Greedy (p : ascii -> bool)  (* class* *)
| Mark.                       (* a parenthesis of the capture group *)

Definition regex := list atom.

(** The result of a match: the input left at each [Mark], in order, and
    the input left after the match. *)
Definition outcome : Type := list str * str.

Fixpoint lazy_star (p : ascii -> bool) (k : str -> option outcome) (s : str)
  : option outcome :=
  match k s with
  | Some r => Some r
  | None =>
      match s with
      | c :: s' => if p c then lazy_star p k s' else None
      | [] => None
      end
  end.

Fixpoint greedy_star (p : ascii -> bool) (k : str -> option outcome) (s : str)
  : option outcome :=
  match s with
  | c :: s' =>
      if p c
      then match greedy_star p k s' with
           | Some r => Some r
           | None => k s
           end
      else k s
  | [] => k s
  end.

Fixpoint exec (re : regex) : str -> option outcome :=
  match re with
  | [] => fun s => Some ([], s)
  | One p :: re' =>
      fun s => match s with
               | c :: s' => if p c then exec re' s' else None
               | [] => None
               end
  | Lazy p :: re' => lazy_star p (exec re')
  | Greedy p :: re' => greedy_star p (exec re')
  | Mark :: re' =>
      fun s => match exec re' s with
               | Some (marks, rest) => Some (s :: marks, rest)
               | None => None
               end
  end.

(** [m.group(1)]: the text between the two marks. *)
Definition group1 (marks : list str) : str :=
  match marks with
  | opened :: closed :: _ => firstn (length opened - length closed) opened
  | _ => []
  end.

(** [re.search]: the match at the leftmost position that has one. *)
Fixpoint search (re : regex) (s : str) : option outcome :=
  match exec re s with
  | Some r => Some r
  | None =>
      match s with
      | _ :: s' => search re s'
      | [] => None
      end
  end.

(** [re.findall] for a pattern with one group: the group of every match,
    each search resuming where the previous match ended.  Both patterns
    start with a literal, so no match is empty and [length s] searches
    exhaust the text. *)
Fixpoint findall_fuel (fuel : nat) (re : regex) (s : str) : list str :=
  match fuel with
  | O => []
  | S fuel' =>
      match search re s with
      | Some (marks, rest) => group1 marks :: findall_fuel fuel' re rest
      | None => []
      end
  end.

Definition findall (re : regex) (s : str) : list str :=
  findall_fuel (S (length s)) re s.

(** Pattern syntax.  Under [IGNORECASE] a literal matches both cases of a
    letter; under [DOTALL] the dot matches every character. *)
Definition ci (c : ascii) : ascii -> bool :=
  fun x => Ascii.eqb (PyStr.lower_char x) (PyStr.lower_char c).

Definition lit (s : str) : regex := map (fun c => One (ci c)) s.

Definition dot : ascii -> bool := fun _ => true.

Definition space : ascii -> bool := PyStr.isspace.

End PyRe.

(** ** [class SQLFileParser] *)

Module SQLFileParser.

Import PyStr PyRe.

Definition squote : ascii := "'".
Definition dquote : ascii := "034".
Definition backslash : ascii := "092".
Definition backtick : ascii := "`".
Definition newline : ascii := "010".

(** A Python value of a parsed row: [None] or a [str]. *)
Definition cell := option str.

(** [value.isdigit()] on code points below 256: the digits 0-9 and the
    superscripts two, three and one. *)
Definition isdigit_char (c : ascii) : bool :=
  let n := nat_of_ascii c in
  ((48 <=? n) && (n <=? 57)) || (n =? 178) || (n =? 179) || (n =? 185).

Definition isdigit (s : str) : bool :=
  match s with
  | [] => false
  | _ => forallb isdigit_char s
  end.

(** *** [clean_value] (lines 219-233) *)
Definition clean_value (value : str) : cell :=
  let value := strip value in
  if PyStr.eqb (upper value) (L "NULL") then None
  else if startswith [squote] value && endswith [squote] value then
    Some (replace [backslash; backslash] [backslash]
            (replace [backslash; squote] [squote] (inner value)))
  else if startswith [dquote] value && endswith [dquote] value then
    Some (replace [backslash; backslash] [backslash]
            (replace [backslash; dquote] [dquote] (inner value)))
  else if isdigit value then Some value
  else Some value.

(** *** [parse_values_string] (lines 168-217)

    The local variables of the method, with the loop index [i]. *)
Record scan : Type := mkScan {
  rows : list (list cell);
  current_row : list cell;
  current_value : str;
  in_quotes : bool;
  quote_char : option ascii;
  i : nat
}.

Definition scan_start : scan := mkScan [] [] [] false None 0.

Definition is_char (c : ascii) (o : option ascii) : bool :=
  match o with
  | Some x => Ascii.eqb x c
  | None => false
  end.

(** The inner loop of line 197:
    [while i < len(values_string) - 1 and values_string[i + 1] != '(': i += 1]. *)
Fixpoint skip_to_paren (fuel : nat) (values_string : str) (i : nat) : nat :=
  match fuel with
  | O => i
  | S fuel' =>
      if (i <? length values_string - 1)
         && negb (is_char "(" (nth_error values_string (S i)))
      then skip_to_paren fuel' values_string (S i)
      else i
  end.

(** [current_row.append(clean_value(current_value.strip()))]. *)
Definition push_value (st : scan) : list cell :=
  current_row st ++ [clean_value (strip (current_value st))].

(** One iteration of the loop of line 178, entered with
    [i < len(values_string)]. *)
Definition scan_step (values_string : str) (st : scan) : scan :=
  match nth_error values_string (i st) with
  | None => st
  | Some char =>
      if negb (in_quotes st) then
        if Ascii.eqb char squote || Ascii.eqb char dquote then
          mkScan (rows st) (current_row st) (current_value st ++ [char])
                 true (Some char) (S (i st))
        else if Ascii.eqb char "," && negb (in_quotes st) then
          mkScan (rows st) (push_value st) [] (in_quotes st) (quote_char st)
                 (S (i st))
        else if Ascii.eqb char ")" && negb (in_quotes st) then
          let current_row1 :=
            match strip (current_value st) with
            | [] => current_row st
            | _ :: _ => push_value st
            end in
          let rows1 :=
            match current_row1 with
            | [] => rows st
            | _ :: _ => rows st ++ [current_row1]
            end in
          let i1 := skip_to_paren (length values_string) values_string (i st) in
          let i2 := if i1 <? length values_string - 1 then S i1 else i1 in
          mkScan rows1 [] [] (in_quotes st) (quote_char st) (S i2)
        else
          mkScan (rows st) (current_row st) (current_value st ++ [char])
                 (in_quotes st) (quote_char st) (S (i st))
      else
        let closes :=
          is_char char (quote_char st)
          && ((i st =? 0)
              || negb (is_char backslash (nth_error values_string (i st - 1)))) in
        mkScan (rows st) (current_row st) (current_value st ++ [char])
               (if closes then false else in_quotes st)
               (if closes then None else quote_char st)
               (S (i st))
  end.

(** [while i < len(values_string): ...]. *)
Fixpoint scan_loop (fuel : nat) (values_string : str) (st : scan) : scan :=
  match fuel with
  | O => st
  | S fuel' =>
      if i st <? length values_string
      then scan_loop fuel' values_string (scan_step values_string st)
      else st
  end.

(** The two statements after the loop (lines 212-215). *)
Definition scan_finish (st : scan) : list (list cell) :=
  let current_row1 :=
    match strip (current_value st) with
    | [] => current_row st
    | _ :: _ => push_value st
    end in
  match current_row1 with
  | [] => rows st
  | _ :: _ => rows st ++ [current_row1]
  end.

(** Every iteration advances [i], so [len(values_string)] iterations are
    enough ([scan_loop_done] in the properties). *)
Definition parse_values_string (values_string : str) : list (list cell) :=
  scan_finish (scan_loop (length values_string) values_string scan_start).

(** *** [extract_table_data] (lines 116-166)

    The statements inside [try:] can raise only through an index out of
    range ([line.split('`')[1]] and [row[i]]); the body is written in the
    error monad and the handler of line 164 turns a raise into []. *)
Inductive exn : Type := IndexError.

Definition result (A : Type) : Type := (exn + A)%type.

Definition ret {A : Type} (a : A) : result A := inr a.
Definition raise {A : Type} (e : exn) : result A := inl e.
Definition bind {A B : Type} (m : result A) (f : A -> result B) : result B :=
  match m with
  | inl e => inl e
  | inr a => f a
  end.

Notation "x <- m ;; k" := (bind m (fun x => k))
  (at level 61, m at next level, right associativity).

(** [for x in xs: body], the loop state threaded through the monad. *)
Definition for_each {A S : Type} (xs : list A) (body : S -> A -> result S)
  (init : S) : result S :=
  fold_left (fun acc x => s <- acc ;; body s x) xs (ret init).

(** [l[n]] for [n >= 0]. *)
Definition index {A : Type} (l : list A) (n : nat) : result A :=
  match nth_error l n with
  | Some a => ret a
  | None => raise IndexError
  end.

Definition enumerate {A : Type} (l : list A) : list (nat * A) :=
  combine (seq 0 (length l)) l.

(** A Python [dict] with [str] keys: the items in insertion order.
    [d[k] = v] overwrites the value of a key that is present and appends a
    new key otherwise. *)
Definition dict (V : Type) : Type := list (str * V).

Fixpoint dict_set {V : Type} (d : dict V) (k : str) (v : V) : dict V :=
  match d with
  | [] => [(k, v)]
  | (k', v') :: d' =>
      if PyStr.eqb k' k then (k', v) :: d' else (k', v') :: dict_set d' k v
  end.

Fixpoint dict_get {V : Type} (d : dict V) (k : str) : option V :=
  match d with
  | [] => None
  | (k', v) :: d' => if PyStr.eqb k' k then Some v else dict_get d' k
  end.

Definition keys {V : Type} (d : dict V) : list str := map fst d.

Definition record : Type := dict cell.

(** [rf"INSERT INTO `{table_name}`.*?VALUES\s*(.*?);"] and
    [rf"CREATE TABLE `{table_name}`\s*\((.*?)\)\s*ENGINE"], compiled with
    [re.DOTALL | re.IGNORECASE].  The table name is spliced into the pattern
    text; the names the program passes (line 99-103) are made of letters
    and underscores, which the pattern language reads as literals. *)
Definition insert_pattern (table_name : str) : regex :=
  lit (L "INSERT INTO `") ++ lit table_name ++ lit (L "`")
  ++ [Lazy dot] ++ lit (L "VALUES") ++ [Greedy space]
  ++ [Mark; Lazy dot; Mark] ++ lit (L ";").

Definition create_pattern (table_name : str) : regex :=
  lit (L "CREATE TABLE `") ++ lit table_name ++ lit (L "`")
  ++ [Greedy space] ++ lit (L "(")
  ++ [Mark; Lazy dot; Mark] ++ lit (L ")")
  ++ [Greedy space] ++ lit (L "ENGINE").

(** Lines 135-139, the body of [for line in column_defs.split('\n')]. *)
Definition column_line (columns : list str) (line : str) : result (list str) :=
  let line := strip line in
  if startswith [backtick] line
     && negb (startswith (L "PRIMARY") line)
     && negb (startswith (L "KEY") line)
  then col_name <- index (split backtick line) 1 ;;
       ret (columns ++ [col_name])
  else ret columns.

(** Lines 127-139. *)
Definition table_columns (sql_content table_name : str) : result (list str) :=
  match search (create_pattern table_name) sql_content with
  | Some (marks, _) =>
      let column_defs := group1 marks in
      for_each (split newline column_defs) column_line []
  | None => ret []
  end.

(** Lines 157-159. *)
Definition make_row_dict (columns : list str) (row : list cell) : result record :=
  for_each (enumerate columns)
    (fun row_dict ic => v <- index row (fst ic) ;;
                        ret (dict_set row_dict (snd ic) v))
    [].

(** Lines 155-160, the body of [for row in rows]. *)
Definition row_step (columns : list str) (all_data : list record)
  (row : list cell) : result (list record) :=
  if length row =? length columns
  then row_dict <- make_row_dict columns row ;;
       ret (all_data ++ [row_dict])
  else ret all_data.

(** Lines 144-150: the text handed to [parse_values_string]. *)
Definition values_text_of (m : str) : str :=
  let values_text := strip m in
  let values_text :=
    if startswith (L "(") values_text then drop_first values_text
    else values_text in
  if endswith (L ")") values_text then drop_last values_text
  else values_text.

(** Lines 143-160, the body of [for match in matches]. *)
Definition match_step (columns : list str) (all_data : list record)
  (m : str) : result (list record) :=
  let rows := parse_values_string (values_text_of m) in
  for_each rows (row_step columns) all_data.

(** The statements inside [try:]. *)
Definition extract_table_data_body (sql_content table_name : str)
  : result (list record) :=
  let matches := findall (insert_pattern table_name) sql_content in
  match matches with
  | [] => ret []
  | _ :: _ =>
      columns <- table_columns sql_content table_name ;;
      for_each matches (match_step columns) []
  end.

Definition extract_table_data (sql_content table_name : str) : list record :=
  match extract_table_data_body sql_content table_name with
  | inr all_data => all_data
  | inl _ => []
  end.

(** *** [parse_sql_file] (lines 91-114)

    Opening, reading and decoding the file either raises, with the text
    [str(e)] of the exception, or gives the content.  The handler of line
    113 re-raises with that text behind a fixed prefix. *)
Inductive opened : Type :=
| Unreadable (cause : str)
| Content (content : str).

Definition parse_sql_file (file : opened) : str + dict (list record) :=
  match file with
  | Unreadable cause => inl (L "Failed to parse SQL file: " ++ cause)
  | Content content =>
      let users_data := extract_table_data content (L "is_user") in
      let admins_data := extract_table_data content (L "is_admin") in
      let accounts_data := extract_table_data content (L "is_account") in
      let tickets_data := extract_table_data content (L "is_ticket") in
      let ssl_data := extract_table_data content (L "is_ssl") in
      inr [ (L "users", users_data);
            (L "admins", admins_data);
            (L "accounts", accounts_data);
            (L "tickets", tickets_data);
            (L "ssl", ssl_data) ]
  end.

End SQLFileParser.


Import PyStr PyRe SQLFileParser.

(** ** Vocabulary of the specification *)

Module Spec.

(** Equality of two texts up to the case of their letters. *)
Definition same_ignoring_case (a b : str) : bool :=
  PyStr.eqb (map lower_char a) (map lower_char b).

(** A token bounded by a pair of the quote character [q]. *)
Definition is_bounded (q : ascii) (token : str) : bool :=
  (2 <=? length token) && startswith [q] token && endswith [q] token.

(** Escape resolution, in the order stated: backslash-quote first, then
    backslash-backslash. *)
Definition unescape (q : ascii) (body : str) : str :=
  replace [backslash; backslash] [backslash]
          (replace [backslash; q] [q] body).

(** The Value Normalizer as section 4.4 words it, applied to the token as
    it is given. *)
Definition normalize (token : str) : cell :=
  if same_ignoring_case token (L "NULL") then None
  else if is_bounded squote token then Some (unescape squote (inner token))
  else if is_bounded dquote token then Some (unescape dquote (inner token))
  else Some token.

(** A token that begins and ends with the quote character [q]: a pair of
    quotes around a body, or the quote character alone. *)
Definition quoted (q : ascii) (token : str) : Prop :=
  token = [q] \/ exists body, token = q :: body ++ [q].

(** Letters, digits and the underscore: the characters of a table name
    that stand for themselves in a pattern. *)
Definition plain_char (c : ascii) : bool :=
  is_lower c || is_upper c || isdigit_char c && (nat_of_ascii c <? 128)
  || Ascii.eqb c "_".

Definition plain_name (name : str) : Prop := forallb plain_char name = true.

(** The text of [s] before the first occurrence of [c]. *)
Fixpoint before (c : ascii) (s : str) : str :=
  match s with
  | [] => []
  | x :: s' => if Ascii.eqb x c then [] else x :: before c s'
  end.

(** The column a line of a table definition declares: the line, trimmed,
    begins with a backtick, and the name runs from there to the next
    backtick. *)
Definition column_of (line : str) : option str :=
  match strip line with
  | c :: rest => if Ascii.eqb c backtick then Some (before backtick rest) else None
  | [] => None
  end.

Definition columns_of (column_defs : str) : list str :=
  flat_map (fun line => match column_of line with
                        | Some name => [name]
                        | None => []
                        end)
           (split newline column_defs).

(** The character before position [n] of the input is a backslash. *)
Definition after_backslash (values_string : str) (n : nat) : Prop :=
  exists m, n = S m /\ nth_error values_string m = Some backslash.

(** The five tables [parse_sql_file] asks for, each with the key its
    dataset is stored under. *)
Definition requested : list (str * str) :=
  [ (L "users", L "is_user");
    (L "admins", L "is_admin");
    (L "accounts", L "is_account");
    (L "tickets", L "is_ticket");
    (L "ssl", L "is_ssl") ].

Definition requested_tables : list str := map snd requested.

(** A row zipped with the column list, as a [dict] built in column order. *)
Definition zip_record (columns : list str) (row : list cell) : record :=
  fold_left (fun d kv => dict_set d (fst kv) (snd kv)) (combine columns row) [].

(** The rows of the matching statements that have as many values as
    there are columns, zipped, in the order met. *)
Definition dataset (columns : list str) (matches : list str) : list record :=
  flat_map (fun m => map (zip_record columns)
                       (filter (fun row => length row =? length columns)
                          (parse_values_string (values_text_of m))))
           matches.

(** [s] begins with [p], the case of letters ignored. *)
Fixpoint starts_ci (p s : str) : bool :=
  match p, s with
  | [], _ => true
  | x :: p', y :: s' => ci x y && starts_ci p' s'
  | _ :: _, [] => false
  end.

(** [test] fails on the text [pre ++ rest] read from any position inside
    [pre]. *)
Fixpoint never_inside (test : str -> bool) (pre rest : str) : bool :=
  match pre with
  | [] => true
  | _ :: pre' => negb (test (pre ++ rest)) && never_inside test pre' rest
  end.

(** [p] does not begin, in any letter case, at a position inside [pre]
    of the text [pre ++ rest]. *)
Definition no_start (p pre rest : str) : Prop :=
  never_inside (starts_ci p) pre rest = true.

(** The text closes a table definition: a closing parenthesis, blanks,
    and ENGINE in any letter case. *)
Definition ends_definition (s : str) : bool :=
  match s with
  | c :: s' => Ascii.eqb c ")" && starts_ci (L "ENGINE") (lstrip s')
  | [] => false
  end.

(** What an INSERT statement for the table begins with. *)
Definition insert_header (table_name : str) : str :=
  L "INSERT INTO `" ++ table_name ++ L "`".

(** What the definition of the table begins with. *)
Definition create_header (table_name : str) : str :=
  L "CREATE TABLE `" ++ table_name ++ L "`".

(** The pattern matches no empty text: it holds a character to read. *)
Definition consuming (re : regex) : Prop := exists p, In (One p) re.

(** What the matcher [k] leaves is shorter than what it was given,
    strictly or not. *)
Definition shrinks (strict : bool) (k : str -> option outcome) : Prop :=
  forall s marks rest, k s = Some (marks, rest) ->
    if strict then length rest < length s else length rest <= length s.

(** No row of a tokenized tuple list is empty. *)
Definition nonempty_rows (rs : list (list cell)) : Prop :=
  Forall (fun row => row <> []) rs.

End Spec.

(** ** Sample dumps *)

Module Examples.

(** Three columns between two constraint lines; a statement, in mixed
    case and over several lines, whose three tuples have 3, 3 and 2
    values. *)
Definition dump_mixed : str :=
  L "CREATE TABLE `t` (
  `col1` int(11) NOT NULL,
  `col2` varchar(20),
  PRIMARY KEY (`col1`),

  `col3` text,
  KEY `idx` (`col2`)
) ENGINE=InnoDB;
insert into `T` (`col1`,`col2`,`col3`)  values
 (NULL, 'a,b', 'it''s'),(1,'x)y','z'), (3,4) ;
".

(** The single-row tuple list of section 8. *)
Definition dump_single_row : str :=
  L "CREATE TABLE `t` (
  `col1` int(11),
  `col2` text,
  `col3` text
) ENGINE=InnoDB;
INSERT INTO `t` VALUES (NULL, 'a,b', 'it''s');
".

(** The same statement with one and with two blanks before the table
    name. *)
Definition insert_one_blank : str := L "INSERT INTO `t` VALUES (1);".
Definition insert_two_blanks : str := L "INSERT INTO  `t` VALUES (1);".

(** A quoted value that holds a semicolon. *)
Definition dump_semicolon : str :=
  L "CREATE TABLE `t` (
`c` text
) ENGINE=InnoDB;
INSERT INTO `t` VALUES ('a;b');
".

(** The pieces of [dump_mixed] around the body of its definition. *)
Definition mixed_body : str :=
  L "
  `col1` int(11) NOT NULL,
  `col2` varchar(20),
  PRIMARY KEY (`col1`),

  `col3` text,
  KEY `idx` (`col2`)
".

Definition mixed_rest : str :=
  L "=InnoDB;
insert into `T` (`col1`,`col2`,`col3`)  values
 (NULL, 'a,b', 'it''s'),(1,'x)y','z'), (3,4) ;
".

(** Two statements of two and one rows over three columns; the values
    hold a comma, parentheses, quotes, backslashes and the tuple
    separator. *)
Definition sample_rows : list (list (list cell)) :=
  [ [ [None; Some (L "a,b"); Some (L "it's")];
      [Some (L "x)y"); Some []; Some (backslash :: L "n(" ++ [backslash; squote])] ];
    [ [Some (L "NULL"); Some (L " sp ace "); Some (L "),(")] ] ].

End Examples.

(** ** Synthetic dumps *)

Module Dump.

(** A text value written as a quoted literal: a backslash before every
    backslash and every single quote. *)
Definition escape_char (c : ascii) : str :=
  if Ascii.eqb c backslash then [backslash; backslash]
  else if Ascii.eqb c squote then [backslash; squote]
  else [c].

Definition escape (text : str) : str := flat_map escape_char text.

Definition literal (v : cell) : str :=
  match v with
  | None => L "NULL"
  | Some text => squote :: escape text ++ [squote]
  end.

Fixpoint join (sep : str) (pieces : list str) : str :=
  match pieces with
  | [] => []
  | [piece] => piece
  | piece :: pieces' => piece ++ sep ++ join sep pieces'
  end.

(** The values of one tuple, and the tuples of one statement, as they
    stand between the outer parentheses: [v,v,v),(v,v,v),(v,v,v]. *)
Definition values (row : list cell) : str := join (L ",") (map literal row).

Definition tuples (rows : list (list cell)) : str :=
  join (L "),(") (map values rows).

Definition insert_statement (table_name : str) (rows : list (list cell)) : str :=
  L "INSERT INTO `" ++ table_name ++ L "` VALUES ("
    ++ tuples rows ++ L ");" ++ [newline].

Definition column_line (name : str) : str := L "  `" ++ name ++ L "` text".

Definition create_statement (table_name : str) (columns : list str) : str :=
  L "CREATE TABLE `" ++ table_name ++ L "` (" ++ [newline]
    ++ join (L "," ++ [newline]) (map column_line columns) ++ [newline]
    ++ L ") ENGINE=InnoDB;" ++ [newline].

(** The definition of the table followed by one INSERT statement for each
    list of rows. *)
Definition dump (table_name : str) (columns : list str)
  (statements : list (list (list cell))) : str :=
  create_statement table_name columns
    ++ flat_map (insert_statement table_name) statements.

(** A value the round trip preserves: the null value, or a text with no
    semicolon that does not end with a backslash. *)
Definition storable (v : cell) : bool :=
  match v with
  | None => true
  | Some text =>
      negb (existsb (Ascii.eqb ";") text) && negb (endswith [backslash] text)
  end.

(** A value whose closing quote the tokenizer recognises: the null
    value, or a text that does not end with a backslash. *)
Definition closable (v : cell) : bool :=
  match v with
  | None => true
  | Some text => negb (endswith [backslash] text)
  end.

(** Rows the tokenizer reads back: none is empty and every value is
    closable. *)
Definition tokenizable (rows : list (list cell)) : bool :=
  forallb (fun row => match row with
                      | [] => false
                      | _ :: _ => forallb closable row
                      end) rows.

(** A row of [m] storable values. *)
Definition well_formed_row (m : nat) (row : list cell) : bool :=
  (length row =? m) && forallb storable row.

(** Every row of every statement is a row of [m] storable values. *)
Definition well_formed (m : nat) (statements : list (list (list cell))) : bool :=
  forallb (forallb (well_formed_row m)) statements.

End Dump.

(** ** The scan, read off the rest of the input

    [parse_values_string] looks at the input through the index [i]: at the
    character [values_string[i]], at the one before it, and at the text
    after it when it skips to the next opening parenthesis.  [walk] is the
    same scan as a recursion on the text still to be read, with the
    character just read and one flag: the scan is skipping to the next
    opening parenthesis.  [parse_is_walk] below shows that both give the
    same rows. *)

Module Suffix.

(** The state without its index. *)
Definition at_index (n : nat) (st : scan) : scan :=
  mkScan (rows st) (current_row st) (current_value st) (in_quotes st)
         (quote_char st) n.

(** One character read outside the skip. *)
Definition feed (char : ascii) (prev : option ascii) (st : scan) : scan :=
  if negb (in_quotes st) then
    if Ascii.eqb char squote || Ascii.eqb char dquote then
      mkScan (rows st) (current_row st) (current_value st ++ [char])
             true (Some char) (i st)
    else if Ascii.eqb char "," then
      mkScan (rows st) (push_value st) [] (in_quotes st) (quote_char st) (i st)
    else if Ascii.eqb char ")" then
      let current_row1 :=
        match strip (current_value st) with
        | [] => current_row st
        | _ :: _ => push_value st
        end in
      let rows1 :=
        match current_row1 with
        | [] => rows st
        | _ :: _ => rows st ++ [current_row1]
        end in
      mkScan rows1 [] [] (in_quotes st) (quote_char st) (i st)
    else
      mkScan (rows st) (current_row st) (current_value st ++ [char])
             (in_quotes st) (quote_char st) (i st)
  else
    let closes := is_char char (quote_char st) && negb (is_char backslash prev) in
    mkScan (rows st) (current_row st) (current_value st ++ [char])
           (if closes then false else in_quotes st)
           (if closes then None else quote_char st)
           (i st).

Fixpoint walk (rest : str) (prev : option ascii) (skipping : bool) (st : scan)
  : scan :=
  match rest with
  | [] => st
  | char :: rest' =>
      if skipping
      then walk rest' (Some char) (negb (Ascii.eqb char "(")) st
      else walk rest' (Some char)
             (negb (in_quotes st) && Ascii.eqb char ")")
             (feed char prev st)
  end.

(** The text after the first opening parenthesis, if there is one. *)
Fixpoint after_paren (rest : str) : str :=
  match rest with
  | [] => []
  | c :: rest' => if Ascii.eqb c "(" then rest' else after_paren rest'
  end.

(** The character read last, after reading [text]. *)
Definition last_read (prev : option ascii) (text : str) : option ascii :=
  fold_left (fun _ c => Some c) text prev.

(** A state outside quotes. *)
Definition outside (rs : list (list cell)) (row : list cell) (token : str)
  : scan :=
  mkScan rs row token false None 0.

(** The character before position [n]. *)
Definition before_index (values_string : str) (n : nat) : option ascii :=
  match n with
  | O => None
  | S m => nth_error values_string m
  end.

End Suffix.

(** ** [ModernMigrationTool.test_sql_file] (lines 1832-1889)

    The handler of the test button.  What it reads from the outside is
    given as arguments: the text of the path entry, which paths exist
    ([os.path.exists]), what reading each path gives, and the data stored
    by an earlier test ([self.sql_parsed_data]).  What it does is returned:
    the message box it shows and the data stored afterwards.  The lines it
    logs are left out. *)

Module ModernMigrationTool.

(** The message box of each exit, with the values its text is made of. *)
Inductive dialog : Type :=
| SelectFileFirst                  (* line 1837 *)
| FileNotFound (sql_file : str)    (* line 1841 *)
| NoDataFound                      (* lines 1858-1862 *)
| ParsedSuccessfully (users admins accounts tickets ssl total : nat)
                                   (* lines 1869-1883 *)
| SqlFileError (error_msg : str).  (* line 1887 *)

(** Inside [try:] an exception is known by its text [str(e)]. *)
Definition attempt (A : Type) : Type := (str + A)%type.

Definition and_then {A B : Type} (m : attempt A) (f : A -> attempt B)
  : attempt B :=
  match m with
  | inl e => inl e
  | inr a => f a
  end.

(** [d[key]]: a missing key raises [KeyError(key)], whose text is the key
    between quotes. *)
Definition getitem {V : Type} (d : dict V) (key : str) : attempt V :=
  match dict_get d key with
  | Some v => inr v
  | None => inl (squote :: key ++ [squote])
  end.

(** Lines 1848-1856: the parse and the five counts. *)
Definition count_records (file : opened)
  : attempt (dict (list record) * (nat * nat * nat * nat * nat)) :=
  and_then (parse_sql_file file) (fun parsed_data =>
  and_then (getitem parsed_data (L "users")) (fun users =>
  and_then (getitem parsed_data (L "admins")) (fun admins =>
  and_then (getitem parsed_data (L "accounts")) (fun accounts =>
  and_then (getitem parsed_data (L "tickets")) (fun tickets =>
  and_then (getitem parsed_data (L "ssl")) (fun ssl =>
  inr (parsed_data,
       (length users, length admins, length accounts, length tickets,
        length ssl)))))))).

Definition test_sql_file (entry : str) (path_exists : str -> bool)
  (read : str -> opened) (sql_parsed_data : option (dict (list record)))
  : dialog * option (dict (list record)) :=
  let sql_file := strip entry in
  match sql_file with
  | [] => (SelectFileFirst, sql_parsed_data)
  | _ :: _ =>
      if negb (path_exists sql_file)
      then (FileNotFound sql_file, sql_parsed_data)
      else
        match count_records (read sql_file) with
        | inr (parsed_data,
               (users_count, admins_count, accounts_count, tickets_count,
                ssl_count)) =>
            let total_count :=
              users_count + admins_count + accounts_count + tickets_count
              + ssl_count in
            if total_count =? 0
            then (NoDataFound, sql_parsed_data)
            else (ParsedSuccessfully users_count admins_count accounts_count
                    tickets_count ssl_count total_count,
                  Some parsed_data)
        | inl error_msg => (SqlFileError error_msg, sql_parsed_data)
        end
  end.

(** The test ended with the success box. *)
Definition succeeded (d : dialog) : bool :=
  match d with
  | ParsedSuccessfully _ _ _ _ _ _ => true
  | _ => false
  end.

(** [start_migration] (lines 2049-2107).  What it reads is given as
    arguments: the flag [HAS_DEPENDENCIES], the fields of the
    configuration page, the stored data and the answer to the
    confirmation box.  Each exit is a constructor; [Started] stands for
    lines 2085-2107, which reset the progress data and start the
    migration thread. *)
Record settings : Type := mkSettings {
  source_type : str;
  old_host : str;
  old_database : str;
  old_username : str;
  sql_file_path : str;
  new_host : str;
  new_database : str;
  new_username : str
}.

Inductive start_result : Type :=
| MissingDependencies        (* line 2052 *)
| OldDatabaseNotConfigured   (* line 2059 *)
| SqlFileNotSelected         (* line 2063 *)
| SqlFileNotTested           (* line 2066 *)
| NewDatabaseNotConfigured   (* line 2071 *)
| Declined                   (* line 2083 *)
| Started.

(** The truth value of a [str], and of the stored data: [None] and the
    empty [dict] are false. *)
Definition truthy (s : str) : bool :=
  match s with
  | [] => false
  | _ :: _ => true
  end.

Definition has_data {V : Type} (d : option (dict V)) : bool :=
  match d with
  | Some (_ :: _) => true
  | _ => false
  end.

Definition start_migration (HAS_DEPENDENCIES : bool) (cfg : settings)
  (sql_parsed_data : option (dict (list record))) (confirm : bool)
  : start_result :=
  if negb HAS_DEPENDENCIES then MissingDependencies
  else
    let source_checked : option start_result :=
      if PyStr.eqb (source_type cfg) (L "database") then
        if negb (forallb truthy
                   [old_host cfg; old_database cfg; old_username cfg])
        then Some OldDatabaseNotConfigured else None
      else
        if negb (truthy (strip (sql_file_path cfg)))
        then Some SqlFileNotSelected
        else if negb (has_data sql_parsed_data)
        then Some SqlFileNotTested else None in
    match source_checked with
    | Some exit => exit
    | None =>
        if negb (forallb truthy
                   [new_host cfg; new_database cfg; new_username cfg])
        then NewDatabaseNotConfigured
        else if negb confirm then Declined
        else Started
    end.

End ModernMigrationTool.

(** ** Quoted literals with either quote character *)

Module Quoting.

(** A backslash before every backslash and every quote character [q]. *)
Definition escape_char (q c : ascii) : str :=
  if Ascii.eqb c backslash then [backslash; backslash]
  else if Ascii.eqb c q then [backslash; q]
  else [c].

Definition escape (q : ascii) (text : str) : str :=
  flat_map (escape_char q) text.

Definition literal (q : ascii) (text : str) : str :=
  q :: escape q text ++ [q].

End Quoting.

(** ** Tuple lists as a dump may lay them out *)

Module Layout.

(** A value as it is written: a literal between single or double quotes
    with blanks before and after it, or a bare token such as a number or
    NULL, blanks included. *)
Inductive token : Type :=
| Quoted (ws1 : str) (q : ascii) (text : str) (ws2 : str)
| Bare (text : str).

Definition written (t : token) : str :=
  match t with
  | Quoted ws1 q text ws2 => ws1 ++ Quoting.literal q text ++ ws2
  | Bare text => text
  end.

(** The value the token stands for. *)
Definition value (t : token) : cell :=
  match t with
  | Quoted _ _ text _ => Some text
  | Bare text => clean_value text
  end.

(** The characters the scan acts on outside quotes. *)
Definition special (c : ascii) : bool :=
  Ascii.eqb c squote || Ascii.eqb c dquote || Ascii.eqb c ","
  || Ascii.eqb c ")".

(** A literal whose text does not end with a backslash, between blanks;
    a bare token that is not blank and holds no quote, comma or closing
    parenthesis. *)
Definition readable (t : token) : bool :=
  match t with
  | Quoted ws1 q text ws2 =>
      forallb isspace ws1 && (Ascii.eqb q squote || Ascii.eqb q dquote)
      && negb (endswith [backslash] text) && forallb isspace ws2
  | Bare text => negb (forallb isspace text) && negb (existsb special text)
  end.

Definition values (row : list token) : str :=
  Dump.join (L ",") (map written row).

(** The first tuple, and every other tuple after a closing parenthesis,
    some text and an opening parenthesis. *)
Definition tuples (first : list token) (more : list (str * list token)) : str :=
  values first
  ++ flat_map (fun jr => ")" :: fst jr ++ "(" :: values (snd jr)) more.

Definition readable_row (row : list token) : bool :=
  match row with
  | [] => false
  | _ :: _ => forallb readable row
  end.

Definition well_laid (first : list token) (more : list (str * list token))
  : bool :=
  readable_row first
  && forallb (fun jr => negb (existsb (Ascii.eqb "(") (fst jr))
                        && readable_row (snd jr)) more.

End Layout.

(** * Properties *)

(** ** Characters and texts *)

#[local] Arguments Ascii.eqb : simpl never.

Ltac each_char c :=
  destruct c as [[] [] [] [] [] [] [] []]; vm_compute; try reflexivity;
  try discriminate; try tauto.

Lemma eqb_true_iff (a b : str) : PyStr.eqb a b = true <-> a = b.
Proof.
  revert b; induction a as [|x a IH]; intros [|y b]; simpl; split;
    try discriminate; try reflexivity.
  - rewrite andb_true_iff, Ascii.eqb_eq, IH. now intros [-> ->].
  - intros [= -> ->]. rewrite Ascii.eqb_refl. now apply IH.
Qed.

Lemma eqb_refl (a : str) : PyStr.eqb a a = true.
Proof. now apply eqb_true_iff. Qed.

Lemma upper_is_N (c : ascii) :
  Ascii.eqb (upper_char c) "N" = Ascii.eqb (lower_char c) "n".
Proof. each_char c. Qed.

Lemma upper_is_U (c : ascii) :
  Ascii.eqb (upper_char c) "U" = Ascii.eqb (lower_char c) "u".
Proof. each_char c. Qed.

Lemma upper_is_L (c : ascii) :
  Ascii.eqb (upper_char c) "L" = Ascii.eqb (lower_char c) "l".
Proof. each_char c. Qed.

(** The test of line 224 is the comparison that ignores case. *)
Lemma upper_null (t : str) :
  PyStr.eqb (upper t) (L "NULL") = Spec.same_ignoring_case t (L "NULL").
Proof.
  unfold Spec.same_ignoring_case, upper.
  change (map lower_char (L "NULL")) with (L "null").
  destruct t as [|a [|b [|c [|d [|e t]]]]]; try reflexivity;
    cbn [map PyStr.eqb L list_ascii_of_string];
    now rewrite ?upper_is_N, ?upper_is_U, ?upper_is_L.
Qed.

Lemma startswith_cons (q : ascii) (t : str) :
  startswith [q] t = true <-> exists rest, t = q :: rest.
Proof.
  destruct t as [|c t]; simpl.
  - split; [discriminate | now intros [r Hr]].
  - rewrite andb_true_r, Ascii.eqb_eq. split.
    + intros ->. now exists t.
    + now intros [r [= -> _]].
Qed.

Lemma endswith_snoc (q : ascii) (t : str) :
  endswith [q] t = true <-> exists body, t = body ++ [q].
Proof.
  unfold endswith. change (rev [q]) with [q]. rewrite startswith_cons. split.
  - intros [r Hr]. exists (rev r).
    rewrite <- (rev_involutive t), Hr. reflexivity.
  - intros [b ->]. exists (rev b). now rewrite rev_app_distr.
Qed.

(** The double test of lines 226 and 228. *)
Lemma quoted_iff (q : ascii) (t : str) :
  startswith [q] t && endswith [q] t = true <-> Spec.quoted q t.
Proof.
  rewrite andb_true_iff, startswith_cons, endswith_snoc. split.
  - intros [[r ->] [b Hb]]. destruct b as [|x b].
    + left. exact Hb.
    + right. injection Hb as <- ->. now exists b.
  - intros [-> | [b ->]].
    + split; [now exists [] | now exists []].
    + split; [now exists (b ++ [q]) | now exists (q :: b)].
Qed.

Lemma inner_quoted (q : ascii) (body : str) : inner (q :: body ++ [q]) = body.
Proof. unfold inner. simpl. apply removelast_last. Qed.

(** C3, as the code has it: the token is trimmed first, and the rules
    apply to the trimmed token.  NULL in any letter case gives the null
    value; a trimmed token that begins and ends with a single quote gives
    the text between the quotes with backslash-quote and then
    backslash-backslash resolved (the lone quote character gives the empty
    text); double quotes likewise; every other trimmed token, a numeric
    literal included, is returned as it is. *)
Theorem clean_value_rules (token : str) :
  let t := strip token in
  if Spec.same_ignoring_case t (L "NULL") then clean_value token = None
  else
    (forall body, t = squote :: body ++ [squote] ->
       clean_value token = Some (Spec.unescape squote body))
    /\ (t = [squote] -> clean_value token = Some [])
    /\ (forall body, t = dquote :: body ++ [dquote] ->
          clean_value token = Some (Spec.unescape dquote body))
    /\ (t = [dquote] -> clean_value token = Some [])
    /\ (~ Spec.quoted squote t -> ~ Spec.quoted dquote t ->
          clean_value token = Some t).
Proof.
  intros t. unfold clean_value. fold t. rewrite upper_null.
  destruct (Spec.same_ignoring_case t (L "NULL")) eqn:Hnull; [reflexivity|].
  repeat split.
  - intros body Ht. rewrite Ht.
    replace (startswith [squote] (squote :: body ++ [squote])
             && endswith [squote] (squote :: body ++ [squote])) with true
      by (symmetry; apply quoted_iff; right; now exists body).
    now rewrite inner_quoted.
  - intros Ht. now rewrite Ht.
  - intros body Ht. rewrite Ht.
    replace (startswith [dquote] (dquote :: body ++ [dquote])
             && endswith [dquote] (dquote :: body ++ [dquote])) with true
      by (symmetry; apply quoted_iff; right; now exists body).
    now rewrite inner_quoted.
  - intros Ht. now rewrite Ht.
  - intros Hs Hd.
    destruct (startswith [squote] t && endswith [squote] t) eqn:E1.
    { now apply quoted_iff in E1. }
    destruct (startswith [dquote] t && endswith [dquote] t) eqn:E2.
    { now apply quoted_iff in E2. }
    now destruct (isdigit t).
Qed.

(** C3 as stated fails on a token with a blank at either end (the rules
    of section 4.4 return it as it is, the code returns it trimmed) and on
    the token made of one quote character (it is bounded by no pair of
    quotes, and the code returns the empty text). *)
Lemma clean_value_trims_first :
  clean_value (L " 7") = Some (L "7")
  /\ Spec.normalize (L " 7") = Some (L " 7")
  /\ clean_value (L " 7") <> Spec.normalize (L " 7")
  /\ clean_value [squote] = Some []
  /\ Spec.normalize [squote] = Some [squote]
  /\ clean_value [squote] <> Spec.normalize [squote].
Proof. repeat split; vm_compute; discriminate. Qed.

(** ** The tokenizer, one character at a time *)

Lemma is_char_iff (c : ascii) (o : option ascii) :
  is_char c o = true <-> o = Some c.
Proof.
  destruct o as [x|]; simpl; [|split; discriminate].
  rewrite Ascii.eqb_eq. split; [now intros -> | now intros [= ->]].
Qed.

Lemma after_backslash_iff (values_string : str) (n : nat) :
  (n =? 0) || negb (is_char backslash (nth_error values_string (n - 1))) = false
  <-> Spec.after_backslash values_string n.
Proof.
  unfold Spec.after_backslash. destruct n as [|m]; simpl.
  - split; [discriminate | now intros [m [Hm _]]].
  - rewrite Nat.sub_0_r, negb_false_iff, is_char_iff. split.
    + intros H. now exists m.
    + now intros [m' [[= <-] H]].
Qed.

(** C4.  In quoted mode the character read, whichever it is, is appended
    to the current token; the rows and the current row are left as they
    are; and quoted mode ends exactly when the character is the opening
    quote character and the character before it in the input is not a
    backslash. *)
Theorem quoted_characters_are_literal
  (values_string : str) (st : scan) (char : ascii) :
  in_quotes st = true ->
  nth_error values_string (i st) = Some char ->
  rows (scan_step values_string st) = rows st
  /\ current_row (scan_step values_string st) = current_row st
  /\ current_value (scan_step values_string st) = current_value st ++ [char]
  /\ i (scan_step values_string st) = S (i st)
  /\ (in_quotes (scan_step values_string st) = false <->
        quote_char st = Some char
        /\ ~ Spec.after_backslash values_string (i st))
  /\ (in_quotes (scan_step values_string st) = true ->
        quote_char (scan_step values_string st) = quote_char st).
Proof.
  intros Hq Hc. unfold scan_step. rewrite Hc, Hq. cbn [negb].
  pose proof (after_backslash_iff values_string (i st)) as Hb.
  pose proof (is_char_iff char (quote_char st)) as Hm.
  destruct (is_char char (quote_char st)); cbn [andb].
  - destruct ((i st =? 0)
              || negb (is_char backslash (nth_error values_string (i st - 1))));
      cbn [rows current_row current_value i in_quotes quote_char];
      (do 4 (split; [reflexivity|])); split.
    + split; [intros _|reflexivity]. split; [now apply Hm|].
      intros Habs. apply Hb in Habs. discriminate.
    + discriminate.
    + split; [discriminate|].
      intros [_ Hn]. exfalso. apply Hn. now apply Hb.
    + reflexivity.
  - cbn [rows current_row current_value i in_quotes quote_char].
    (do 4 (split; [reflexivity|])); split; [|reflexivity].
    split; [discriminate|].
    intros [Hs _]. apply Hm in Hs. discriminate.
Qed.

(** The comma and the closing parenthesis inside ['a,)'] are appended to
    the token. *)
Lemma quoted_characters_are_literal_witness :
  current_value
    (scan_step (L "'a,)'") (mkScan [] [] (L "'a") true (Some squote) 2))
  = L "'a,"
  /\ current_value
       (scan_step (L "'a,)'") (mkScan [] [] (L "'a,") true (Some squote) 3))
     = L "'a,)".
Proof.
  split.
  - exact (proj1 (proj2 (proj2
      (quoted_characters_are_literal (L "'a,)'")
         (mkScan [] [] (L "'a") true (Some squote) 2) "," eq_refl eq_refl)))).
  - exact (proj1 (proj2 (proj2
      (quoted_characters_are_literal (L "'a,)'")
         (mkScan [] [] (L "'a,") true (Some squote) 3) ")" eq_refl eq_refl)))).
Defined.

(** ** The error monad and the loops of [extract_table_data] *)

(** A loop whose body never raises is a fold. *)
Lemma for_each_ret {A S : Type} (xs : list A) (body : S -> A -> result S)
  (f : S -> A -> S) (init : S) :
  (forall s x, In x xs -> body s x = ret (f s x)) ->
  for_each xs body init = ret (fold_left f xs init).
Proof.
  unfold for_each. revert init.
  induction xs as [|x xs IH]; intros init H; simpl; [reflexivity|].
  rewrite H by now left. apply IH. intros s y Hy. apply H. now right.
Qed.

Lemma fold_left_snoc_flat_map {A B : Type} (f : A -> list B) (xs : list A)
  (init : list B) :
  fold_left (fun acc x => acc ++ f x) xs init = init ++ flat_map f xs.
Proof.
  revert init. induction xs as [|x xs IH]; intros init; simpl.
  - now rewrite app_nil_r.
  - now rewrite IH, app_assoc.
Qed.

Lemma split_head (sep : ascii) (s : str) :
  exists pieces, split sep s = Spec.before sep s :: pieces.
Proof.
  induction s as [|c s [pieces IH]]; simpl.
  - now exists [].
  - destruct (Ascii.eqb c sep).
    + now exists (split sep s).
    + rewrite IH. now exists pieces.
Qed.

Lemma column_line_ret (columns : list str) (line : str) :
  column_line columns line
  = ret (columns ++ match Spec.column_of line with
                    | Some name => [name]
                    | None => []
                    end).
Proof.
  unfold column_line, Spec.column_of.
  destruct (strip line) as [|c rest]; simpl.
  - now rewrite app_nil_r.
  - rewrite Ascii.eqb_sym.
    destruct (Ascii.eqb c backtick) eqn:E; simpl.
    + apply Ascii.eqb_eq in E. subst c. simpl.
      destruct (split_head backtick rest) as [pieces ->]. reflexivity.
    + now rewrite app_nil_r.
Qed.

(** Lines 127-139 never raise, and give the columns the definition
    declares. *)
Lemma table_columns_ret (sql_content table_name : str) :
  table_columns sql_content table_name
  = ret match search (create_pattern table_name) sql_content with
        | Some (marks, _) => Spec.columns_of (group1 marks)
        | None => []
        end.
Proof.
  unfold table_columns.
  destruct (search (create_pattern table_name) sql_content) as [[marks rest]|];
    [|reflexivity].
  rewrite (for_each_ret _ _
             (fun columns line =>
                columns ++ match Spec.column_of line with
                           | Some name => [name]
                           | None => []
                           end)).
  - now rewrite fold_left_snoc_flat_map.
  - intros columns line _. apply column_line_ret.
Qed.

(** [row[i]] for the [i]-th column never raises when the row is at least
    as long as the column list. *)
Lemma make_row_dict_from (columns : list str) (row : list cell) (k : nat)
  (d : record) :
  length columns <= length (skipn k row) ->
  for_each (combine (seq k (length columns)) columns)
    (fun row_dict ic => v <- index row (fst ic) ;;
                        ret (dict_set row_dict (snd ic) v))
    d
  = ret (fold_left (fun d kv => dict_set d (fst kv) (snd kv))
           (combine columns (skipn k row)) d).
Proof.
  unfold for_each. revert k d.
  induction columns as [|col columns IH]; intros k d Hlen; [reflexivity|].
  destruct (skipn k row) as [|v tail] eqn:E; [simpl in Hlen; lia|].
  assert (Hk : nth_error row k = Some v).
  { rewrite <- (Nat.add_0_r k), <- nth_error_skipn, E. reflexivity. }
  assert (Hs : skipn (S k) row = tail).
  { change (S k) with (1 + k). rewrite <- skipn_skipn, E. reflexivity. }
  cbn [length seq combine fold_left bind ret fst snd].
  replace (index row k) with (ret v) by (unfold index; now rewrite Hk).
  cbn [bind ret].
  rewrite <- Hs. apply IH. rewrite Hs. simpl in Hlen. lia.
Qed.

Lemma make_row_dict_ret (columns : list str) (row : list cell) :
  length row = length columns ->
  make_row_dict columns row = ret (Spec.zip_record columns row).
Proof.
  intros H. unfold make_row_dict, enumerate, Spec.zip_record.
  rewrite (make_row_dict_from columns row 0); [reflexivity|].
  simpl. lia.
Qed.

Lemma row_step_ret (columns : list str) (all_data : list record)
  (row : list cell) :
  row_step columns all_data row
  = ret (all_data ++ if length row =? length columns
                     then [Spec.zip_record columns row] else []).
Proof.
  unfold row_step. destruct (length row =? length columns) eqn:E.
  - apply Nat.eqb_eq in E. now rewrite make_row_dict_ret.
  - now rewrite app_nil_r.
Qed.

Lemma flat_map_arity {A B : Type} (keep : A -> bool) (f : A -> B)
  (xs : list A) :
  flat_map (fun x => if keep x then [f x] else []) xs = map f (filter keep xs).
Proof.
  induction xs as [|x xs IH]; simpl; [reflexivity|].
  destruct (keep x); simpl; now rewrite IH.
Qed.

Lemma match_step_ret (columns : list str) (all_data : list record) (m : str) :
  match_step columns all_data m
  = ret (all_data
         ++ map (Spec.zip_record columns)
              (filter (fun row => length row =? length columns)
                 (parse_values_string (values_text_of m)))).
Proof.
  unfold match_step.
  rewrite (for_each_ret _ _
             (fun all_data row =>
                all_data ++ if length row =? length columns
                            then [Spec.zip_record columns row] else [])).
  - now rewrite fold_left_snoc_flat_map, flat_map_arity.
  - intros s row _. apply row_step_ret.
Qed.

(** The statements inside [try:] never raise: the handler of line 164 is
    never entered. *)
Lemma extract_table_data_body_ret (sql_content table_name : str) :
  extract_table_data_body sql_content table_name
  = ret (Spec.dataset
           match search (create_pattern table_name) sql_content with
           | Some (marks, _) => Spec.columns_of (group1 marks)
           | None => []
           end
           (findall (insert_pattern table_name) sql_content)).
Proof.
  unfold extract_table_data_body.
  destruct (findall (insert_pattern table_name) sql_content) as [|m ms] eqn:E;
    [reflexivity|].
  rewrite table_columns_ret. cbn [bind ret].
  set (columns := match search (create_pattern table_name) sql_content with
                  | Some (marks, _) => Spec.columns_of (group1 marks)
                  | None => []
                  end).
  rewrite (for_each_ret _ _
             (fun all_data m =>
                all_data
                ++ map (Spec.zip_record columns)
                     (filter (fun row => length row =? length columns)
                        (parse_values_string (values_text_of m))))).
  - now rewrite fold_left_snoc_flat_map.
  - intros s x _. apply match_step_ret.
Qed.

Lemma extract_table_data_eq (sql_content table_name : str) :
  extract_table_data sql_content table_name
  = Spec.dataset
      match search (create_pattern table_name) sql_content with
      | Some (marks, _) => Spec.columns_of (group1 marks)
      | None => []
      end
      (findall (insert_pattern table_name) sql_content).
Proof.
  unfold extract_table_data. now rewrite extract_table_data_body_ret.
Qed.

(** C5.  For a table name the pattern reads literally: the column list is
    obtained without an error, and the dataset is made of the rows that
    have exactly as many values as there are columns, each zipped with the
    columns in column order, in the order the rows are met across the
    matching statements; the other rows leave no trace and nothing is
    raised. *)
Theorem arity_mismatch_is_dropped (sql_content table_name : str) :
  Spec.plain_name table_name ->
  exists columns,
    table_columns sql_content table_name = ret columns
    /\ extract_table_data_body sql_content table_name
       = ret (flat_map
                (fun m =>
                   map (Spec.zip_record columns)
                     (filter (fun row => length row =? length columns)
                        (parse_values_string (values_text_of m))))
                (findall (insert_pattern table_name) sql_content))
    /\ extract_table_data sql_content table_name
       = flat_map
           (fun m =>
              map (Spec.zip_record columns)
                (filter (fun row => length row =? length columns)
                   (parse_values_string (values_text_of m))))
           (findall (insert_pattern table_name) sql_content).
Proof.
  intros _. eexists. split; [apply table_columns_ret|]. split.
  - apply extract_table_data_body_ret.
  - apply extract_table_data_eq.
Qed.

(** Three tuples of 3, 3 and 2 values against three columns. *)
Lemma arity_mismatch_is_dropped_witness :
  exists columns,
    table_columns Examples.dump_mixed (L "t") = ret columns
    /\ extract_table_data_body Examples.dump_mixed (L "t")
       = ret (flat_map
                (fun m =>
                   map (Spec.zip_record columns)
                     (filter (fun row => length row =? length columns)
                        (parse_values_string (values_text_of m))))
                (findall (insert_pattern (L "t")) Examples.dump_mixed))
    /\ extract_table_data Examples.dump_mixed (L "t")
       = flat_map
           (fun m =>
              map (Spec.zip_record columns)
                (filter (fun row => length row =? length columns)
                   (parse_values_string (values_text_of m))))
           (findall (insert_pattern (L "t")) Examples.dump_mixed).
Proof.
  exact (arity_mismatch_is_dropped Examples.dump_mixed (L "t") eq_refl).
Defined.

Example dump_mixed_dataset :
  extract_table_data Examples.dump_mixed (L "t")
  = [ [ (L "col1", None); (L "col2", Some (L "a,b"));
        (L "col3", Some (L "it''s")) ];
      [ (L "col1", Some (L "1")); (L "col2", Some (L "x)y"));
        (L "col3", Some (L "z")) ] ].
Proof. vm_compute. reflexivity. Qed.

(** ** Records *)

Lemma dict_set_fresh {V : Type} (d : dict V) (k : str) (v : V) :
  ~ In k (keys d) -> dict_set d k v = d ++ [(k, v)].
Proof.
  induction d as [|[k' v'] d IH]; simpl; intros H; [reflexivity|].
  destruct (PyStr.eqb k' k) eqn:E.
  - apply eqb_true_iff in E. tauto.
  - rewrite IH; tauto.
Qed.

Lemma zip_from (columns : list str) (row : list cell) (d : record) :
  NoDup columns -> (forall k, In k columns -> ~ In k (keys d)) ->
  fold_left (fun d kv => dict_set d (fst kv) (snd kv)) (combine columns row) d
  = d ++ combine columns row.
Proof.
  revert row d. induction columns as [|c columns IH]; intros row d Hnd Hfresh.
  - simpl. now rewrite app_nil_r.
  - destruct row as [|v row]; simpl; [now rewrite app_nil_r|].
    inversion Hnd as [|? ? Hc Hnd']; subst.
    rewrite dict_set_fresh by (apply Hfresh; now left).
    rewrite IH; [now rewrite <- app_assoc|assumption|].
    intros k Hk. unfold keys. rewrite map_app, in_app_iff. simpl.
    intros [Hin | [<- | []]]; [|contradiction].
    apply (Hfresh k); [now right | exact Hin].
Qed.

(** With distinct column names the record is the row paired with the
    columns, position by position. *)
Lemma zip_record_combine (columns : list str) (row : list cell) :
  NoDup columns -> Spec.zip_record columns row = combine columns row.
Proof.
  intros H. unfold Spec.zip_record. now rewrite zip_from.
Qed.

(** ** An invariant of the scan: no row is empty *)

Lemma flush_row_nonempty (rs : list (list cell)) (row : list cell) :
  Spec.nonempty_rows rs ->
  Spec.nonempty_rows match row with
                | [] => rs
                | _ :: _ => rs ++ [row]
                end.
Proof.
  intros H. destruct row as [|v row]; [exact H|].
  apply Forall_app. split; [exact H|]. now constructor.
Qed.

Lemma scan_step_nonempty (values_string : str) (st : scan) :
  Spec.nonempty_rows (rows st) -> Spec.nonempty_rows (rows (scan_step values_string st)).
Proof.
  intros H. unfold scan_step.
  destruct (nth_error values_string (i st)) as [char|]; [|exact H].
  destruct (in_quotes st); cbn [negb]; [exact H|].
  destruct (Ascii.eqb char squote || Ascii.eqb char dquote); [exact H|].
  rewrite !andb_true_r.
  destruct (Ascii.eqb char ","); [exact H|].
  destruct (Ascii.eqb char ")"); [|exact H].
  cbn [rows]. now apply flush_row_nonempty.
Qed.

Lemma scan_loop_nonempty (fuel : nat) (values_string : str) (st : scan) :
  Spec.nonempty_rows (rows st) ->
  Spec.nonempty_rows (rows (scan_loop fuel values_string st)).
Proof.
  revert st. induction fuel as [|fuel IH]; intros st H; simpl; [exact H|].
  destruct (i st <? length values_string); [|exact H].
  apply IH. now apply scan_step_nonempty.
Qed.

Lemma parse_values_string_nonempty (values_string : str) :
  Spec.nonempty_rows (parse_values_string values_string).
Proof.
  unfold parse_values_string, scan_finish.
  apply flush_row_nonempty, scan_loop_nonempty. constructor.
Qed.

(** Without columns every row is dropped. *)
Lemma dataset_without_columns (matches : list str) :
  Spec.dataset [] matches = [].
Proof.
  unfold Spec.dataset.
  induction matches as [|m ms IH]; cbn [flat_map]; [reflexivity|].
  rewrite IH, app_nil_r.
  pose proof (parse_values_string_nonempty (values_text_of m)) as H.
  induction H as [|row rs Hrow _ IHrs]; [reflexivity|].
  cbn [filter]. destruct row; [contradiction|]. exact IHrs.
Qed.

(** ** [parse_sql_file] *)

(** C6.  The call raises exactly when the file could not be read, and the
    message carries the cause.  Once the file is read nothing raises: for
    each requested table the statements inside [try:] return a dataset,
    which is empty when the dump has no statement for the table or no
    definition of it. *)
Theorem only_file_errors_raise (file : opened) :
  ((exists message, parse_sql_file file = inl message)
   <-> (exists cause, file = Unreadable cause))
  /\ (forall cause, file = Unreadable cause ->
        parse_sql_file file = inl (L "Failed to parse SQL file: " ++ cause))
  /\ (forall content, file = Content content ->
        (exists result, parse_sql_file file = inr result)
        /\ forall table, In table Spec.requested_tables ->
             (exists data, extract_table_data_body content table = ret data
                           /\ extract_table_data content table = data)
             /\ (findall (insert_pattern table) content = [] ->
                   extract_table_data content table = [])
             /\ (search (create_pattern table) content = None ->
                   extract_table_data content table = [])).
Proof.
  split; [|split].
  - destruct file as [cause|content]; simpl; split.
    + intros _. now exists cause.
    + intros _. eexists. reflexivity.
    + intros [message H]. discriminate.
    + intros [cause H]. discriminate.
  - intros cause ->. reflexivity.
  - intros content ->. split; [eexists; reflexivity|].
    intros table _. split; [|split].
    + eexists. split; [apply extract_table_data_body_ret|].
      apply extract_table_data_eq.
    + intros H. rewrite extract_table_data_eq, H. reflexivity.
    + intros H. rewrite extract_table_data_eq, H.
      apply dataset_without_columns.
Qed.

(** C7, as the code has it.  The result has exactly the five keys users,
    admins, accounts, tickets and ssl, in that order; each holds the
    dataset of its table (is_user, is_admin, is_account, is_ticket,
    is_ssl), and that dataset is empty, not missing, when the dump has no
    statement for the table. *)
Theorem result_has_the_five_keys (content : str) :
  exists result,
    parse_sql_file (Content content) = inr result
    /\ keys result = map fst Spec.requested
    /\ (forall key table, In (key, table) Spec.requested ->
          dict_get result key = Some (extract_table_data content table))
    /\ (forall key table, In (key, table) Spec.requested ->
          findall (insert_pattern table) content = [] ->
          dict_get result key = Some []).
Proof.
  eexists. split; [reflexivity|]. split; [reflexivity|].
  assert (Hget : forall key table, In (key, table) Spec.requested ->
            dict_get
              [ (L "users", extract_table_data content (L "is_user"));
                (L "admins", extract_table_data content (L "is_admin"));
                (L "accounts", extract_table_data content (L "is_account"));
                (L "tickets", extract_table_data content (L "is_ticket"));
                (L "ssl", extract_table_data content (L "is_ssl")) ] key
            = Some (extract_table_data content table)).
  { intros key table H. simpl in H.
    repeat (destruct H as [[= <- <-] | H]; [reflexivity|]). destruct H. }
  split; [exact Hget|].
  intros key table Hin Hnone. rewrite (Hget key table Hin).
  now rewrite extract_table_data_eq, Hnone.
Qed.

(** C7 as stated fails: the keys of the result are not the names of the
    requested tables. *)
Lemma result_keys_are_not_table_names :
  ~ (forall content result,
       parse_sql_file (Content content) = inr result ->
       forall table, In table Spec.requested_tables <-> In table (keys result)).
Proof.
  intros H.
  destruct (H [] _ eq_refl (L "is_user")) as [Hin _].
  assert (Hk : In (L "is_user") Spec.requested_tables) by (now left).
  apply Hin in Hk. simpl in Hk.
  repeat (destruct Hk as [Hk | Hk]; [discriminate Hk|]). exact Hk.
Qed.

(** ** The single-row tuple of section 8 *)

(** C1, as the code has it.  Against any three distinct column names the
    tuple list (NULL, 'a,b', 'it''s') gives one record: the first column
    holds the null value, the second the text a,b (the comma inside the
    quotes does not split the value), and the third the text it''s, with
    both quote characters kept: only backslash escapes are resolved. *)
Theorem single_row_tuple (col1 col2 col3 : str) :
  NoDup [col1; col2; col3] ->
  match_step [col1; col2; col3] [] (L "(NULL, 'a,b', 'it''s')")
  = ret [ [ (col1, None); (col2, Some (L "a,b"));
            (col3, Some (L "it''s")) ] ].
Proof.
  intros Hnd. rewrite match_step_ret.
  assert (E : parse_values_string (values_text_of (L "(NULL, 'a,b', 'it''s')"))
              = [[None; Some (L "a,b"); Some (L "it''s")]])
    by (vm_compute; reflexivity).
  rewrite E. cbn [filter length Nat.eqb map app].
  now rewrite zip_record_combine.
Qed.

Lemma single_row_tuple_witness :
  match_step [L "col1"; L "col2"; L "col3"] [] (L "(NULL, 'a,b', 'it''s')")
  = ret [ [ (L "col1", None); (L "col2", Some (L "a,b"));
            (L "col3", Some (L "it''s")) ] ].
Proof.
  apply single_row_tuple.
  repeat constructor; simpl; intros H;
    repeat (destruct H as [H | H]; [discriminate H|]); exact H.
Defined.

(** C1 as stated fails: the doubled quote does not become one quote. *)
Lemma doubled_quote_is_kept :
  extract_table_data Examples.dump_single_row (L "t")
  <> [ [ (L "col1", None); (L "col2", Some (L "a,b"));
         (L "col3", Some (L "it's")) ] ].
Proof. vm_compute. discriminate. Qed.

(** ** The matcher *)

(** Use the hypothesis [H : forall j, j < n -> ...] (or [j <= n]) at 0. *)
Ltac at_start H :=
  let H0 := fresh "H0" in
  pose proof (H 0 ltac:(simpl; lia)) as H0;
  cbn [skipn app] in H0; rewrite H0; clear H0.

Lemma lit_app (a b : str) : lit (a ++ b) = lit a ++ lit b.
Proof. apply map_app. Qed.

(** A run of literals is a comparison that ignores case. *)
Lemma exec_lit (p : str) (re : regex) (s : str) :
  exec (lit p ++ re) s
  = if Spec.starts_ci p s then exec re (skipn (length p) s) else None.
Proof.
  revert s. induction p as [|x p IH]; intros s; [reflexivity|].
  destruct s as [|y s]; [reflexivity|].
  cbn [lit map app exec Spec.starts_ci length skipn].
  destruct (ci x y); [apply IH | reflexivity].
Qed.

Lemma same_starts (a p rest : str) :
  Spec.same_ignoring_case a p = true ->
  Spec.starts_ci p (a ++ rest) = true /\ skipn (length p) (a ++ rest) = rest.
Proof.
  unfold Spec.same_ignoring_case. revert p.
  induction a as [|y a IH]; intros [|x p] H; try discriminate H.
  - now split.
  - cbn [map PyStr.eqb] in H. apply andb_true_iff in H as [Hc H].
    destruct (IH p H) as [IH1 IH2].
    cbn [app Spec.starts_ci length skipn]. unfold ci at 1.
    now rewrite Hc, IH1.
Qed.

Lemma same_refl (a : str) : Spec.same_ignoring_case a a = true.
Proof. apply eqb_refl. Qed.

(** A lazy star passes over a stretch where what follows it cannot
    match. *)
Lemma lazy_star_skip (k : str -> option outcome) (pre s : str) :
  (forall j, j < length pre -> k (skipn j (pre ++ s)) = None) ->
  lazy_star dot k (pre ++ s) = lazy_star dot k s.
Proof.
  induction pre as [|c pre IH]; intros H; [reflexivity|].
  cbn [app lazy_star]. at_start H. cbn [dot].
  apply IH. intros j Hj. apply (H (S j)). simpl. lia.
Qed.

Lemma lazy_star_here (p : ascii -> bool) (k : str -> option outcome)
  (s : str) (r : outcome) :
  k s = Some r -> lazy_star p k s = Some r.
Proof. intros H. destruct s; simpl; now rewrite H. Qed.

(** A greedy [\s*] takes the leading blanks when what follows it can
    match after them. *)
Lemma greedy_star_lstrip (k : str -> option outcome) (s : str) (r : outcome) :
  k (lstrip s) = Some r -> greedy_star space k s = Some r.
Proof.
  induction s as [|c s IH]; intros H; [exact H|].
  cbn [greedy_star lstrip] in *. unfold space at 1.
  destruct (isspace c); [now rewrite IH | exact H].
Qed.

Lemma search_skip (re : regex) (pre s : str) :
  (forall j, j < length pre -> exec re (skipn j (pre ++ s)) = None) ->
  search re (pre ++ s) = search re s.
Proof.
  induction pre as [|c pre IH]; intros H; [reflexivity|].
  cbn [app search]. at_start H.
  apply IH. intros j Hj. apply (H (S j)). simpl. lia.
Qed.

Lemma search_here (re : regex) (s : str) (r : outcome) :
  exec re s = Some r -> search re s = Some r.
Proof. intros H. destruct s; simpl; now rewrite H. Qed.

Lemma search_none (re : regex) (s : str) :
  (forall j, j <= length s -> exec re (skipn j s) = None) ->
  search re s = None.
Proof.
  induction s as [|c s IH]; intros H; cbn [search].
  - now at_start H.
  - at_start H. apply IH. intros j Hj. apply (H (S j)). simpl. lia.
Qed.

(** *** What a match leaves is shorter than what it was given *)

Lemma lazy_star_shrinks (strict : bool) (p : ascii -> bool)
  (k : str -> option outcome) :
  Spec.shrinks strict k -> Spec.shrinks strict (lazy_star p k).
Proof.
  intros Hk s. induction s as [|c s IH]; intros marks rest; simpl.
  - destruct (k []) as [r|] eqn:E; [|discriminate].
    intros [= ->]. exact (Hk _ _ _ E).
  - destruct (k (c :: s)) as [r|] eqn:E.
    + intros [= ->]. exact (Hk _ _ _ E).
    + destruct (p c); [|discriminate]. intros H. specialize (IH _ _ H).
      destruct strict; simpl in *; lia.
Qed.

Lemma greedy_star_shrinks (strict : bool) (p : ascii -> bool)
  (k : str -> option outcome) :
  Spec.shrinks strict k -> Spec.shrinks strict (greedy_star p k).
Proof.
  intros Hk s. induction s as [|c s IH]; intros marks rest; simpl.
  - intros E. exact (Hk _ _ _ E).
  - destruct (p c); [|intros E; exact (Hk _ _ _ E)].
    destruct (greedy_star p k s) as [r|] eqn:E.
    + intros [= ->]. specialize (IH _ _ eq_refl).
      destruct strict; simpl in *; lia.
    + intros E'. exact (Hk _ _ _ E').
Qed.

Lemma exec_shrinks (re : regex) : Spec.shrinks false (exec re).
Proof.
  induction re as [|[p|p|p|] re IH]; cbn [exec].
  - intros s marks rest [= _ <-]. simpl. lia.
  - intros [|c s] marks rest; [discriminate|].
    destruct (p c); [|discriminate]. intros E. specialize (IH _ _ _ E).
    simpl in *. lia.
  - now apply lazy_star_shrinks.
  - now apply greedy_star_shrinks.
  - intros s marks rest. destruct (exec re s) as [[ms r]|] eqn:E; [|discriminate].
    intros [= _ <-]. exact (IH _ _ _ E).
Qed.

Lemma exec_consumes (re : regex) : Spec.consuming re -> Spec.shrinks true (exec re).
Proof.
  intros [q Hq]. induction re as [|[p|p|p|] re IH]; [destruct Hq| | | |];
    cbn [exec].
  - intros [|c s] marks rest; [discriminate|].
    destruct (p c); [|discriminate]. intros E.
    pose proof (exec_shrinks re _ _ _ E). simpl in *. lia.
  - destruct Hq as [Hq|Hq]; [discriminate|]. now apply lazy_star_shrinks, IH.
  - destruct Hq as [Hq|Hq]; [discriminate|]. now apply greedy_star_shrinks, IH.
  - destruct Hq as [Hq|Hq]; [discriminate|].
    intros s marks rest. destruct (exec re s) as [[ms r]|] eqn:E; [|discriminate].
    intros [= _ <-]. exact (IH Hq _ _ _ E).
Qed.

Lemma search_consumes (re : regex) : Spec.consuming re -> Spec.shrinks true (search re).
Proof.
  intros Hre s. induction s as [|c s IH]; intros marks rest; simpl.
  - destruct (exec re []) as [r|] eqn:E; [|discriminate].
    intros [= ->]. exact (exec_consumes re Hre _ _ _ E).
  - destruct (exec re (c :: s)) as [r|] eqn:E.
    + intros [= ->]. exact (exec_consumes re Hre _ _ _ E).
    + intros H. specialize (IH _ _ H). simpl in *. lia.
Qed.

(** The searches of [findall] never run out: any fuel above the length
    of the text gives the same list. *)
Lemma findall_fuel_enough (re : regex) (fuel fuel' : nat) (s : str) :
  Spec.consuming re -> length s < fuel -> length s < fuel' ->
  findall_fuel fuel re s = findall_fuel fuel' re s.
Proof.
  intros Hre. revert fuel' s.
  induction fuel as [|fuel IH]; intros fuel' s H H'; [lia|].
  destruct fuel' as [|fuel']; [lia|]. simpl.
  destruct (search re s) as [[marks rest]|] eqn:E; [|reflexivity].
  pose proof (search_consumes re Hre _ _ _ E) as Hlt. simpl in Hlt.
  f_equal. apply IH; lia.
Qed.

Lemma findall_match (re : regex) (s : str) (marks : list str) (rest : str) :
  Spec.consuming re -> search re s = Some (marks, rest) ->
  findall re s = group1 marks :: findall re rest.
Proof.
  intros Hre E. unfold findall.
  change (findall_fuel (S (length s)) re s)
    with match search re s with
         | Some (marks, rest) => group1 marks :: findall_fuel (length s) re rest
         | None => []
         end.
  rewrite E. f_equal.
  pose proof (search_consumes re Hre _ _ _ E) as Hlt. simpl in Hlt.
  apply findall_fuel_enough; [assumption|lia|lia].
Qed.

Lemma findall_no_match (re : regex) (s : str) :
  search re s = None -> findall re s = [].
Proof. intros E. unfold findall. cbn [findall_fuel]. now rewrite E. Qed.

(** ** The statement pattern *)

Lemma never_inside_spec (test : str -> bool) (pre rest : str) :
  Spec.never_inside test pre rest = true ->
  forall j, j < length pre -> test (skipn j (pre ++ rest)) = false.
Proof.
  induction pre as [|c pre IH]; intros H j Hj; [simpl in Hj; lia|].
  cbn [Spec.never_inside] in H. apply andb_true_iff in H as [H0 H].
  destruct j as [|j]; [now apply negb_true_iff in H0|].
  apply (IH H j). simpl in Hj. lia.
Qed.

Lemma ci_semicolon (c : ascii) : ci ";" c = Ascii.eqb c ";".
Proof. each_char c. Qed.

Lemma space_is_not_V (c : ascii) : isspace c = true -> ci "V" c = false.
Proof. each_char c. Qed.

Lemma skipn_inside {A : Type} (a b : list A) (j : nat) :
  j < length a -> exists c tail, skipn j (a ++ b) = c :: tail /\ In c a.
Proof.
  revert j. induction a as [|x a IH]; intros j Hj; [simpl in Hj; lia|].
  destruct j as [|j].
  - exists x, (a ++ b). split; [reflexivity | now left].
  - destruct (IH j) as [c [tail [E Hin]]]; [simpl in Hj; lia|].
    exists c, tail. split; [exact E | now right].
Qed.

Lemma lstrip_incl (s : str) (c : ascii) : In c (lstrip s) -> In c s.
Proof.
  induction s as [|x s IH]; simpl; [tauto|].
  destruct (isspace x); [intros H; right; now apply IH | tauto].
Qed.

Lemma lstrip_app_solid (a b : str) (c : ascii) :
  isspace c = false -> lstrip (a ++ c :: b) = lstrip a ++ c :: b.
Proof.
  intros Hc. induction a as [|x a IH]; simpl; [now rewrite Hc|].
  destruct (isspace x); [exact IH | reflexivity].
Qed.

Lemma lstrip_solid (c : ascii) (s : str) :
  isspace c = false -> lstrip (c :: s) = c :: s.
Proof. intros H. simpl. now rewrite H. Qed.

Lemma lstrip_blanks (ws s : str) :
  forallb isspace ws = true -> lstrip (ws ++ s) = lstrip s.
Proof.
  induction ws as [|c ws IH]; simpl; [reflexivity|].
  intros H. apply andb_true_iff in H as [-> H]. now apply IH.
Qed.

Lemma group1_capture (cap rest : str) : group1 [cap ++ rest; rest] = cap.
Proof.
  unfold group1. rewrite length_app, Nat.add_sub.
  induction cap as [|c cap IH]; simpl; [now destruct rest | now rewrite IH].
Qed.

(** [(.*?);] captures up to the first semicolon. *)
Lemma exec_capture (body post : str) :
  ~ In ";" body ->
  exec ([Mark; Lazy dot; Mark] ++ lit (L ";")) (body ++ ";" :: post)
  = Some ([body ++ ";" :: post; ";" :: post], post).
Proof.
  intros Hbody. cbn [app exec].
  rewrite lazy_star_skip.
  - rewrite (lazy_star_here _ _ _ ([";" :: post], post)); [reflexivity|].
    cbn [lit L list_ascii_of_string map exec]. now rewrite ci_semicolon.
  - intros j Hj. destruct (skipn_inside body (";" :: post) j Hj)
      as [c [tail [-> Hc]]].
    cbn [lit L list_ascii_of_string map exec]. rewrite ci_semicolon.
    destruct (Ascii.eqb c ";") eqn:E; [|reflexivity].
    apply Ascii.eqb_eq in E. now subst c.
Qed.

Lemma insert_pattern_eq (table_name : str) :
  insert_pattern table_name
  = lit (Spec.insert_header table_name)
    ++ [Lazy dot] ++ lit (L "VALUES")
    ++ [Greedy space] ++ [Mark; Lazy dot; Mark] ++ lit (L ";").
Proof.
  unfold insert_pattern, Spec.insert_header.
  now rewrite !lit_app, <- !app_assoc.
Qed.

Lemma insert_pattern_consuming (table_name : str) :
  Spec.consuming (insert_pattern table_name).
Proof. exists (ci "I"). now left. Qed.

(** The pattern at the start of a statement: the header in any letter
    case, anything in which VALUES does not begin, VALUES in any letter
    case, and the text up to the first semicolon. *)
Lemma exec_insert_statement (table_name head mid kw body post : str) :
  Spec.same_ignoring_case head (Spec.insert_header table_name) = true ->
  Spec.no_start (L "VALUES") mid (kw ++ body ++ ";" :: post) ->
  Spec.same_ignoring_case kw (L "VALUES") = true ->
  ~ In ";" body ->
  exec (insert_pattern table_name) (head ++ mid ++ kw ++ body ++ ";" :: post)
  = Some ([lstrip body ++ ";" :: post; ";" :: post], post).
Proof.
  intros Hhead Hmid Hkw Hbody.
  rewrite insert_pattern_eq, exec_lit.
  destruct (same_starts head _ (mid ++ kw ++ body ++ ";" :: post) Hhead)
    as [-> ->].
  cbn [app exec]. rewrite lazy_star_skip.
  - apply lazy_star_here. rewrite exec_lit.
    destruct (same_starts kw _ (body ++ ";" :: post) Hkw) as [-> ->].
    cbn [app exec]. apply greedy_star_lstrip.
    rewrite lstrip_app_solid by reflexivity.
    apply (exec_capture (lstrip body) post).
    intros H. now apply Hbody, lstrip_incl.
  - intros j Hj. rewrite exec_lit.
    now rewrite (never_inside_spec _ _ _ Hmid j Hj).
Qed.

Lemma no_start_no_exec (p : str) (re : regex) (pre rest : str) :
  Spec.no_start p pre rest ->
  forall j, j < length pre -> exec (lit p ++ re) (skipn j (pre ++ rest)) = None.
Proof.
  intros H j Hj. now rewrite exec_lit, (never_inside_spec _ _ _ H j Hj).
Qed.

(** A statement in the text, before which the header does not begin. *)
Lemma findall_insert_statement
  (table_name pre head mid kw body post : str) :
  Spec.no_start (Spec.insert_header table_name) pre
    (head ++ mid ++ kw ++ body ++ ";" :: post) ->
  Spec.same_ignoring_case head (Spec.insert_header table_name) = true ->
  Spec.no_start (L "VALUES") mid (kw ++ body ++ ";" :: post) ->
  Spec.same_ignoring_case kw (L "VALUES") = true ->
  ~ In ";" body ->
  findall (insert_pattern table_name)
    (pre ++ head ++ mid ++ kw ++ body ++ ";" :: post)
  = lstrip body :: findall (insert_pattern table_name) post.
Proof.
  intros Hpre Hhead Hmid Hkw Hbody.
  rewrite (findall_match _ _ [lstrip body ++ ";" :: post; ";" :: post] post).
  - now rewrite group1_capture.
  - apply insert_pattern_consuming.
  - rewrite search_skip.
    + apply search_here. now apply exec_insert_statement.
    + rewrite insert_pattern_eq. now apply no_start_no_exec.
Qed.

Lemma no_start_blanks (ws rest : str) :
  forallb isspace ws = true -> Spec.no_start (L "VALUES") ws rest.
Proof.
  unfold Spec.no_start. induction ws as [|c ws IH]; [reflexivity|].
  cbn [forallb Spec.never_inside app].
  intros H. apply andb_true_iff in H as [Hc H]. rewrite (IH H).
  change (Spec.starts_ci (L "VALUES") (c :: ws ++ rest))
    with (ci "V" c && Spec.starts_ci (L "ALUES") (ws ++ rest)).
  now rewrite (space_is_not_V c Hc).
Qed.

Lemma no_start_nil (p rest : str) : Spec.no_start p [] rest.
Proof. reflexivity. Qed.

(** C10.  For a table name the pattern reads literally, and a statement
    before which the header does not begin: whatever the text between
    VALUES and the first semicolon after it holds (an open quote
    included) and whatever follows that semicolon, the text captured for
    the statement is the text before that semicolon, without its leading
    blanks; the extraction resumes after the semicolon. *)
Theorem capture_stops_at_first_semicolon
  (table_name pre head mid kw body post : str) :
  Spec.plain_name table_name ->
  Spec.no_start (Spec.insert_header table_name) pre
    (head ++ mid ++ kw ++ body ++ ";" :: post) ->
  Spec.same_ignoring_case head (Spec.insert_header table_name) = true ->
  Spec.no_start (L "VALUES") mid (kw ++ body ++ ";" :: post) ->
  Spec.same_ignoring_case kw (L "VALUES") = true ->
  ~ In ";" body ->
  findall (insert_pattern table_name)
    (pre ++ head ++ mid ++ kw ++ body ++ ";" :: post)
  = lstrip body :: findall (insert_pattern table_name) post.
Proof. intros _. apply findall_insert_statement. Qed.

(** The statement [INSERT INTO `t` VALUES ('a;b','c');]: the capture ends
    inside the quoted value. *)
Lemma capture_stops_at_first_semicolon_witness :
  findall (insert_pattern (L "t"))
    ([] ++ L "INSERT INTO `t`" ++ L " " ++ L "VALUES" ++ L " ('a"
        ++ ";" :: L "b','c');")
  = lstrip (L " ('a") :: findall (insert_pattern (L "t")) (L "b','c');").
Proof.
  apply capture_stops_at_first_semicolon.
  - reflexivity.
  - apply no_start_nil.
  - reflexivity.
  - apply no_start_blanks. reflexivity.
  - reflexivity.
  - simpl. intros H.
    repeat (destruct H as [H | H]; [discriminate H|]). exact H.
Defined.

(** The values after the semicolon are lost: the only row is cut short,
    and is dropped for its length. *)
Example semicolon_in_a_value :
  findall (insert_pattern (L "t")) Examples.dump_semicolon = [L "('a"]
  /\ parse_values_string (values_text_of (L "('a")) = [[Some (L "'a")]]
  /\ extract_table_data Examples.dump_semicolon (L "t")
     = [[(L "c", Some (L "'a"))]].
Proof. repeat split; vm_compute; reflexivity. Qed.

Lemma same_app (a b p q : str) :
  Spec.same_ignoring_case a p = true -> Spec.same_ignoring_case b q = true ->
  Spec.same_ignoring_case (a ++ b) (p ++ q) = true.
Proof.
  unfold Spec.same_ignoring_case. rewrite !map_app, !eqb_true_iff.
  now intros -> ->.
Qed.

(** C2, as the code has it.  With INSERT INTO written with its two single
    blanks, the keywords and the table name may be in any letter case and
    any run of blanks or newlines may stand between the quoted table name
    and VALUES and between VALUES and the tuple list: the tuple list
    extracted is the same as for the statement written in upper case with
    single blanks. *)
Theorem keyword_case_and_blanks
  (table_name kw_insert name ws1 kw_values ws2 body post : str) :
  Spec.plain_name table_name ->
  Spec.same_ignoring_case kw_insert (L "INSERT INTO ") = true ->
  Spec.same_ignoring_case name table_name = true ->
  forallb isspace ws1 = true ->
  Spec.same_ignoring_case kw_values (L "VALUES") = true ->
  forallb isspace ws2 = true ->
  ~ In ";" body ->
  findall (insert_pattern table_name)
    (kw_insert ++ backtick :: name ++ backtick :: ws1 ++ kw_values ++ ws2
       ++ body ++ ";" :: post)
  = lstrip body :: findall (insert_pattern table_name) post
  /\ findall (insert_pattern table_name)
       (kw_insert ++ backtick :: name ++ backtick :: ws1 ++ kw_values ++ ws2
          ++ body ++ ";" :: post)
     = findall (insert_pattern table_name)
         (L "INSERT INTO " ++ backtick :: table_name ++ backtick :: L " "
            ++ L "VALUES" ++ L " " ++ body ++ ";" :: post).
Proof.
  intros _ Hinsert Hname Hws1 Hvalues Hws2 Hbody.
  assert (Hany : forall kw1 nm w1 kw2 w2,
    Spec.same_ignoring_case kw1 (L "INSERT INTO ") = true ->
    Spec.same_ignoring_case nm table_name = true ->
    forallb isspace w1 = true ->
    Spec.same_ignoring_case kw2 (L "VALUES") = true ->
    forallb isspace w2 = true ->
    findall (insert_pattern table_name)
      (kw1 ++ backtick :: nm ++ backtick :: w1 ++ kw2 ++ w2
         ++ body ++ ";" :: post)
    = lstrip body :: findall (insert_pattern table_name) post).
  { intros kw1 nm w1 kw2 w2 H1 H2 H3 H4 H5.
    rewrite <- (lstrip_blanks w2 body H5).
    assert (Eshape :
      kw1 ++ backtick :: nm ++ backtick :: w1 ++ kw2 ++ w2
        ++ body ++ ";" :: post
      = [] ++ (kw1 ++ backtick :: nm ++ [backtick]) ++ w1 ++ kw2
          ++ (w2 ++ body) ++ ";" :: post).
    { cbn [app]. rewrite <- !app_assoc. cbn [app]. now rewrite <- !app_assoc. }
    rewrite Eshape.
    apply findall_insert_statement.
    - apply no_start_nil.
    - unfold Spec.insert_header.
      change (L "INSERT INTO `") with (L "INSERT INTO " ++ [backtick]).
      rewrite <- app_assoc.
      apply same_app; [exact H1|].
      apply (same_app [backtick] (nm ++ [backtick]) [backtick]);
        [reflexivity|].
      apply same_app; [exact H2 | reflexivity].
    - now apply no_start_blanks.
    - exact H4.
    - intros H. apply in_app_or in H as [H|H]; [|contradiction].
      rewrite forallb_forall in H5. now specialize (H5 _ H). }
  split.
  - now apply Hany.
  - rewrite (Hany kw_insert name ws1 kw_values ws2) by assumption.
    symmetry. apply (Hany (L "INSERT INTO ") table_name (L " ") (L "VALUES")
                       (L " ")); try reflexivity.
    apply same_refl.
Qed.

Lemma keyword_case_and_blanks_witness :
  findall (insert_pattern (L "t"))
    (L "insert Into " ++ backtick :: L "T" ++ backtick :: L "
  " ++ L "values" ++ L "
" ++ L "(1),(2)" ++ ";" :: [])
  = lstrip (L "(1),(2)") :: findall (insert_pattern (L "t")) []
  /\ findall (insert_pattern (L "t"))
       (L "insert Into " ++ backtick :: L "T" ++ backtick :: L "
  " ++ L "values" ++ L "
" ++ L "(1),(2)" ++ ";" :: [])
     = findall (insert_pattern (L "t"))
         (L "INSERT INTO " ++ backtick :: L "t" ++ backtick :: L " "
            ++ L "VALUES" ++ L " " ++ L "(1),(2)" ++ ";" :: []).
Proof.
  apply keyword_case_and_blanks; try reflexivity.
  simpl. intros H.
  repeat (destruct H as [H | H]; [discriminate H|]). exact H.
Defined.

(** C2 as stated fails: a second blank, or a newline, between INSERT INTO
    and the table name and the statement is no longer found. *)
Lemma second_blank_before_table_name :
  findall (insert_pattern (L "t")) Examples.insert_one_blank = [L "(1)"]
  /\ findall (insert_pattern (L "t")) Examples.insert_two_blanks = []
  /\ findall (insert_pattern (L "t")) Examples.insert_one_blank
     <> findall (insert_pattern (L "t")) Examples.insert_two_blanks.
Proof. repeat split. vm_compute. discriminate. Qed.

(** ** The definition pattern *)

Lemma ci_close (c : ascii) : ci ")" c = Ascii.eqb c ")".
Proof. each_char c. Qed.

Lemma space_is_not_E (c : ascii) : isspace c = true -> ci "E" c = false.
Proof. each_char c. Qed.

(** A greedy [\s*] before something that cannot begin with a blank takes
    exactly the leading blanks. *)
Lemma greedy_star_solid (k : str -> option outcome) (s : str) :
  (forall c s', isspace c = true -> k (c :: s') = None) ->
  greedy_star space k s = k (lstrip s).
Proof.
  intros Hk. induction s as [|c s IH]; [reflexivity|].
  cbn [greedy_star lstrip]. unfold space at 1.
  destruct (isspace c) eqn:Hc; [|reflexivity].
  rewrite IH. destruct (k (lstrip s)); [reflexivity|]. now apply Hk.
Qed.

(** [\)\s*ENGINE] at the start of a text. *)
Lemma exec_end (s : str) :
  exec (lit (L ")") ++ [Greedy space] ++ lit (L "ENGINE")) s
  = if Spec.ends_definition s
    then Some ([], skipn 6 (lstrip (tl s)))
    else None.
Proof.
  rewrite exec_lit. destruct s as [|c s]; [reflexivity|].
  change (Spec.starts_ci (L ")") (c :: s)) with (ci ")" c && true).
  change (skipn (length (L ")")) (c :: s)) with s.
  rewrite andb_true_r, ci_close. cbn [Spec.ends_definition tl].
  destruct (Ascii.eqb c ")"); [|reflexivity]. cbn [andb app exec].
  rewrite greedy_star_solid.
  - replace (lit (L "ENGINE")) with (lit (L "ENGINE") ++ [])
      by apply app_nil_r.
    now rewrite exec_lit.
  - intros x s' Hx.
    change (lit (L "ENGINE")) with (One (ci "E") :: lit (L "NGINE")).
    cbn [exec]. now rewrite (space_is_not_E x Hx).
Qed.

Lemma create_pattern_eq (table_name : str) :
  create_pattern table_name
  = lit (Spec.create_header table_name)
    ++ [Greedy space] ++ lit (L "(")
    ++ [Mark; Lazy dot; Mark]
    ++ (lit (L ")") ++ [Greedy space] ++ lit (L "ENGINE")).
Proof.
  unfold create_pattern, Spec.create_header.
  now rewrite !lit_app, <- !app_assoc.
Qed.

(** The pattern at the start of a definition: the header in any letter
    case, blanks, the body up to the first closing parenthesis that is
    followed by blanks and ENGINE. *)
Lemma exec_create_definition (table_name head ws1 body ws2 kw post : str) :
  Spec.same_ignoring_case head (Spec.create_header table_name) = true ->
  forallb isspace ws1 = true ->
  Spec.never_inside Spec.ends_definition body (")" :: ws2 ++ kw ++ post) = true ->
  forallb isspace ws2 = true ->
  Spec.same_ignoring_case kw (L "ENGINE") = true ->
  exec (create_pattern table_name)
    (head ++ ws1 ++ "(" :: body ++ ")" :: ws2 ++ kw ++ post)
  = Some ([body ++ ")" :: ws2 ++ kw ++ post; ")" :: ws2 ++ kw ++ post], post).
Proof.
  intros Hhead Hws1 Hbody Hws2 Hkw.
  assert (Hend : Spec.ends_definition (")" :: ws2 ++ kw ++ post) = true
                 /\ skipn 6 (lstrip (ws2 ++ kw ++ post)) = post).
  { cbn [Spec.ends_definition]. rewrite Ascii.eqb_refl.
    rewrite (lstrip_blanks ws2 _ Hws2).
    destruct kw as [|k0 kw]; [discriminate Hkw|].
    assert (Hk0 : isspace k0 = false).
    { unfold Spec.same_ignoring_case in Hkw. cbn [map PyStr.eqb L
        list_ascii_of_string] in Hkw.
      apply andb_true_iff in Hkw as [Hkw _]. apply Ascii.eqb_eq in Hkw.
      revert Hkw. clear. each_char k0. }
    change ((k0 :: kw) ++ post) with (k0 :: kw ++ post).
    rewrite lstrip_solid by exact Hk0.
    change (k0 :: kw ++ post) with ((k0 :: kw) ++ post).
    destruct (same_starts (k0 :: kw) _ post Hkw) as [E1 E2].
    change (length (L "ENGINE")) with 6 in E2. now rewrite E1, E2. }
  destruct Hend as [Hend Hrest].
  rewrite create_pattern_eq, exec_lit.
  destruct (same_starts head _
              (ws1 ++ "(" :: body ++ ")" :: ws2 ++ kw ++ post) Hhead)
    as [-> ->].
  cbn [app exec].
  apply greedy_star_lstrip.
  rewrite (lstrip_blanks ws1 _ Hws1), lstrip_solid by reflexivity.
  change ("(" :: body ++ ")" :: ws2 ++ kw ++ post)
    with (L "(" ++ body ++ ")" :: ws2 ++ kw ++ post).
  rewrite exec_lit.
  destruct (same_starts (L "(") (L "(") (body ++ ")" :: ws2 ++ kw ++ post)
              (same_refl _)) as [-> ->].
  cbn [app exec]. rewrite lazy_star_skip.
  - rewrite (lazy_star_here _ _ _ ([")" :: ws2 ++ kw ++ post], post));
      [reflexivity|].
    cbn [exec]. rewrite exec_end, Hend. cbn [tl]. now rewrite Hrest.
  - intros j Hj. cbn [exec].
    now rewrite exec_end, (never_inside_spec _ _ _ Hbody j Hj).
Qed.

Lemma before_stop (c : ascii) (name rest : str) :
  ~ In c name -> Spec.before c (name ++ c :: rest) = name.
Proof.
  induction name as [|x name IH]; intros H; simpl.
  - now rewrite Ascii.eqb_refl.
  - destruct (Ascii.eqb x c) eqn:E.
    + apply Ascii.eqb_eq in E. subst x. exfalso. apply H. now left.
    + rewrite IH; [reflexivity|]. intros Hin. apply H. now right.
Qed.

Lemma search_absent (p : str) (re : regex) (s : str) :
  p <> [] -> Spec.no_start p s [] -> search (lit p ++ re) s = None.
Proof.
  intros Hp H. apply search_none. intros j Hj.
  destruct (Nat.eq_dec j (length s)) as [->|Hne].
  - rewrite skipn_all. destruct p; [contradiction|reflexivity].
  - rewrite <- (app_nil_r s) at 1.
    apply (no_start_no_exec p re s [] H). lia.
Qed.

(** C8.  For a table name the pattern reads literally.  A text in which
    the header of the definition begins nowhere has no columns, and
    nothing is raised.  In a text whose first definition of the table has
    the body [body] (the text between the opening parenthesis and the
    first closing parenthesis that is followed by ENGINE), the columns
    are the names declared by the lines of [body], in the order of the
    lines: a line that, trimmed, begins with a backtick declares the text
    between that backtick and the next one; any other line (PRIMARY KEY,
    KEY, a blank line) declares nothing. *)
Theorem column_list_of_definition (table_name : str) :
  Spec.plain_name table_name ->
  (forall dump,
     Spec.no_start (Spec.create_header table_name) dump [] ->
     table_columns dump table_name = ret [])
  /\ (forall pre head ws1 body ws2 kw post,
        Spec.no_start (Spec.create_header table_name) pre
          (head ++ ws1 ++ "(" :: body ++ ")" :: ws2 ++ kw ++ post) ->
        Spec.same_ignoring_case head (Spec.create_header table_name) = true ->
        forallb isspace ws1 = true ->
        Spec.never_inside Spec.ends_definition body
          (")" :: ws2 ++ kw ++ post) = true ->
        forallb isspace ws2 = true ->
        Spec.same_ignoring_case kw (L "ENGINE") = true ->
        table_columns
          (pre ++ head ++ ws1 ++ "(" :: body ++ ")" :: ws2 ++ kw ++ post)
          table_name
        = ret (Spec.columns_of body))
  /\ (forall body,
        Spec.columns_of body
        = flat_map (fun line => match Spec.column_of line with
                                | Some name => [name]
                                | None => []
                                end)
            (split newline body))
  /\ (forall line name rest,
        strip line = backtick :: name ++ backtick :: rest ->
        ~ In backtick name ->
        Spec.column_of line = Some name)
  /\ (forall line,
        startswith [backtick] (strip line) = false ->
        Spec.column_of line = None).
Proof.
  intros _. split; [|split; [|split; [|split]]].
  - intros dump Habsent. rewrite table_columns_ret, create_pattern_eq.
    rewrite search_absent; [reflexivity|discriminate|exact Habsent].
  - intros pre head ws1 body ws2 kw post Hpre Hhead Hws1 Hbody Hws2 Hkw.
    rewrite table_columns_ret, search_skip.
    + rewrite (search_here _ _ _
                 (exec_create_definition table_name head ws1 body ws2 kw post
                    Hhead Hws1 Hbody Hws2 Hkw)).
      now rewrite group1_capture.
    + rewrite create_pattern_eq. now apply no_start_no_exec.
  - reflexivity.
  - intros line name rest Hline Hname. unfold Spec.column_of.
    rewrite Hline, Ascii.eqb_refl. now rewrite before_stop.
  - intros line Hline. unfold Spec.column_of.
    destruct (strip line) as [|c rest]; [reflexivity|].
    cbn [startswith] in Hline. rewrite andb_true_r, Ascii.eqb_sym in Hline.
    now rewrite Hline.
Qed.

(** The definition of [dump_mixed]: three column lines among a blank
    line, a PRIMARY KEY line and a KEY line. *)
Lemma column_list_of_definition_witness :
  table_columns
    ([] ++ L "CREATE TABLE `t`" ++ L " " ++ "(" :: Examples.mixed_body
        ++ ")" :: L " " ++ L "ENGINE" ++ Examples.mixed_rest)
    (L "t")
  = ret (Spec.columns_of Examples.mixed_body).
Proof.
  apply (proj1 (proj2 (column_list_of_definition (L "t") eq_refl)));
    reflexivity.
Defined.

Example mixed_body_columns :
  [] ++ L "CREATE TABLE `t`" ++ L " " ++ "(" :: Examples.mixed_body
     ++ ")" :: L " " ++ L "ENGINE" ++ Examples.mixed_rest
  = Examples.dump_mixed
  /\ Spec.columns_of Examples.mixed_body = [L "col1"; L "col2"; L "col3"].
Proof. split; vm_compute; reflexivity. Qed.

(** ** The scan by index and the scan by suffix agree *)

Import Suffix.

Lemma skipn_nth (s : str) (n : nat) :
  skipn n s = match nth_error s n with
              | Some c => c :: skipn (S n) s
              | None => []
              end.
Proof.
  revert n. induction s as [|x s IH]; intros [|n]; try reflexivity.
  cbn [skipn nth_error]. rewrite IH. now destruct (nth_error s n).
Qed.

Lemma skipn_past (s : str) (n : nat) : length s <= n -> skipn n s = [].
Proof. intros H. rewrite skipn_nth. now apply nth_error_None in H as ->. Qed.

(** Where the inner loop of line 197 and the two increments after it
    leave the index: just after the next opening parenthesis, or at the
    end of the input. *)
Lemma skip_to_paren_lands (fuel : nat) (s : str) (n : nat) :
  n < length s -> length s - S n <= fuel ->
  let j := skip_to_paren fuel s n in
  let n2 := if j <? length s - 1 then S j else j in
  skipn (S n2) s = after_paren (skipn (S n) s)
  /\ S n2 <= length s /\ n < S n2
  /\ (after_paren (skipn (S n) s) <> [] -> nth_error s n2 = Some "(").
Proof.
  revert n. induction fuel as [|fuel IH]; intros n Hn Hfuel.
  - assert (Hlast : n = length s - 1) by lia.
    cbn [skip_to_paren]. cbv zeta.
    replace (n <? length s - 1) with false by (symmetry; apply Nat.ltb_ge; lia).
    rewrite (skipn_past s (S n)) by lia. cbn [after_paren].
    repeat split; try lia. now intros [].
  - cbn [skip_to_paren]. cbv zeta.
    destruct (n <? length s - 1) eqn:Hlt; cbn [andb].
    + apply Nat.ltb_lt in Hlt. rewrite (skipn_nth s (S n)).
      destruct (nth_error s (S n)) as [c|] eqn:Hc;
        [|apply nth_error_None in Hc; lia].
      cbn [is_char after_paren]. destruct (Ascii.eqb c "(") eqn:E; cbn [negb].
      * replace (n <? length s - 1) with true
          by (symmetry; apply Nat.ltb_lt; lia).
        apply Ascii.eqb_eq in E. subst c. repeat split; try lia. now intros _.
      * destruct (IH (S n)) as [H1 [H2 [H3 H4]]]; [lia|lia|].
        repeat split; try assumption; lia.
    + apply Nat.ltb_ge in Hlt.
      replace (n <? length s - 1) with false
        by (symmetry; apply Nat.ltb_ge; lia).
      rewrite (skipn_past s (S n)) by lia. cbn [after_paren].
      repeat split; try lia. now intros [].
Qed.

Lemma walk_skipping (rest : str) (prev : option ascii) (st : scan) :
  walk rest prev true st = walk (after_paren rest) (Some "(") false st.
Proof.
  revert prev. induction rest as [|c rest IH]; intros prev; [reflexivity|].
  cbn [walk after_paren]. destruct (Ascii.eqb c "(") eqn:E; cbn [negb].
  - apply Ascii.eqb_eq in E. now subst c.
  - apply IH.
Qed.

Lemma feed_at_index (char : ascii) (prev : option ascii) (st : scan) (n : nat) :
  feed char prev (at_index n st) = at_index n (feed char prev st).
Proof.
  unfold feed, at_index, push_value. cbn [in_quotes quote_char rows
    current_row current_value i].
  destruct (in_quotes st); cbn [negb].
  - now destruct (is_char char (quote_char st) && negb (is_char backslash prev)).
  - destruct (Ascii.eqb char squote || Ascii.eqb char dquote); [reflexivity|].
    destruct (Ascii.eqb char ","); [reflexivity|].
    now destruct (Ascii.eqb char ")").
Qed.

Lemma walk_at_index (rest : str) (prev : option ascii) (skipping : bool)
  (st : scan) (n : nat) :
  walk rest prev skipping (at_index n st)
  = at_index n (walk rest prev skipping st).
Proof.
  revert prev skipping st.
  induction rest as [|c rest IH]; intros prev skipping st; [reflexivity|].
  cbn [walk]. destruct skipping; [apply IH|].
  rewrite feed_at_index. apply IH.
Qed.

(** One iteration of the loop is one character fed, and the index moves
    past it; after a closing parenthesis outside quotes it moves past the
    next opening parenthesis. *)
Lemma scan_step_feed (s : str) (st : scan) (char : ascii) :
  nth_error s (i st) = Some char ->
  at_index 0 (scan_step s st)
  = at_index 0 (feed char (before_index s (i st)) st)
  /\ (negb (in_quotes st) && Ascii.eqb char ")" = false ->
      i (scan_step s st) = S (i st))
  /\ (negb (in_quotes st) && Ascii.eqb char ")" = true ->
      skipn (i (scan_step s st)) s = after_paren (skipn (S (i st)) s)
      /\ i (scan_step s st) <= length s /\ i st < i (scan_step s st)
      /\ (after_paren (skipn (S (i st)) s) <> [] ->
          before_index s (i (scan_step s st)) = Some "(")).
Proof.
  intros Hc. unfold scan_step, feed. rewrite Hc.
  destruct (in_quotes st) eqn:Hq; cbn [negb andb].
  - replace ((i st =? 0)
             || negb (is_char backslash (nth_error s (i st - 1))))
      with (negb (is_char backslash (before_index s (i st)))).
    + split; [|split; [reflexivity | discriminate]].
      now destruct (is_char char (quote_char st)
                    && negb (is_char backslash (before_index s (i st)))).
    + destruct (i st) as [|m]; [reflexivity|].
      cbn [before_index Nat.eqb orb Nat.sub]. now rewrite Nat.sub_0_r.
  - rewrite !andb_true_r.
    destruct (Ascii.eqb char ")") eqn:Hp.
    + apply Ascii.eqb_eq in Hp. subst char.
      change (Ascii.eqb ")" squote || Ascii.eqb ")" dquote) with false.
      change (Ascii.eqb ")" ",") with false. cbv iota.
      split; [reflexivity|]. split; [discriminate|]. intros _.
      assert (Hn : i st < length s).
      { apply nth_error_Some. congruence. }
      pose proof (skip_to_paren_lands (length s) s (i st) Hn ltac:(lia)) as H.
      cbv zeta in H. cbn [i]. exact H.
    + split; [|split; [|discriminate]].
      * destruct (Ascii.eqb char squote || Ascii.eqb char dquote);
          [reflexivity|].
        now destruct (Ascii.eqb char ",").
      * intros _.
        destruct (Ascii.eqb char squote || Ascii.eqb char dquote);
          [reflexivity|].
        now destruct (Ascii.eqb char ",").
Qed.

Lemma loop_is_walk (fuel : nat) (s : str) (st : scan) :
  length s - i st <= fuel -> i st <= length s ->
  at_index 0 (scan_loop fuel s st)
  = at_index 0 (walk (skipn (i st) s) (before_index s (i st)) false st).
Proof.
  revert st. induction fuel as [|fuel IH]; intros st Hfuel Hi.
  - rewrite skipn_past by lia. reflexivity.
  - cbn [scan_loop]. destruct (i st <? length s) eqn:Hlt.
    + apply Nat.ltb_lt in Hlt. rewrite (skipn_nth s (i st)).
      destruct (nth_error s (i st)) as [char|] eqn:Hc;
        [|apply nth_error_None in Hc; lia].
      cbn [walk].
      destruct (scan_step_feed s st char Hc) as [Hfeed [Hplain Hparen]].
      destruct (negb (in_quotes st) && Ascii.eqb char ")") eqn:Hflag.
      * destruct (Hparen eq_refl) as [Hskip [Hle [Hgt Hprev]]].
        rewrite IH by lia. rewrite Hskip, walk_skipping.
        rewrite <- !walk_at_index, Hfeed.
        destruct (after_paren (skipn (S (i st)) s)) as [|c r] eqn:Hafter;
          [reflexivity|].
        rewrite Hprev by discriminate. reflexivity.
      * specialize (Hplain eq_refl). rewrite IH by lia. rewrite Hplain.
        cbn [before_index]. rewrite Hc.
        rewrite <- !(walk_at_index _ _ _ _ 0). now rewrite Hfeed.
    + apply Nat.ltb_ge in Hlt. rewrite skipn_past by lia. reflexivity.
Qed.

(** [parse_values_string] is the walk over the whole text, followed by
    the final flush. *)
Lemma parse_is_walk (values_string : str) :
  parse_values_string values_string
  = scan_finish (walk values_string None false scan_start).
Proof.
  unfold parse_values_string.
  pose proof (loop_is_walk (length values_string) values_string scan_start
                ltac:(simpl; lia) ltac:(simpl; lia)) as H.
  cbn [i scan_start skipn before_index] in H.
  change (mkScan [] [] [] false None 0) with scan_start in H.
  assert (Hfin : forall st, scan_finish st = scan_finish (at_index 0 st))
    by reflexivity.
  rewrite Hfin, H, <- Hfin. reflexivity.
Qed.

(** The loop has run to its end: the fuel is never what stops it. *)
Lemma scan_loop_done (fuel : nat) (s : str) (st : scan) :
  length s - i st <= fuel -> length s <= i (scan_loop fuel s st).
Proof.
  revert st. induction fuel as [|fuel IH]; intros st Hfuel; [simpl; lia|].
  cbn [scan_loop]. destruct (i st <? length s) eqn:Hlt.
  - apply Nat.ltb_lt in Hlt. apply IH.
    destruct (nth_error s (i st)) as [char|] eqn:Hc;
      [|apply nth_error_None in Hc; lia].
    destruct (scan_step_feed s st char Hc) as [_ [Hplain Hparen]].
    destruct (negb (in_quotes st) && Ascii.eqb char ")").
    + destruct (Hparen eq_refl) as [_ [_ [Hgt _]]]. lia.
    + rewrite (Hplain eq_refl). lia.
  - apply Nat.ltb_ge in Hlt. exact Hlt.
Qed.

Lemma parse_values_string_terminates (values_string : str) :
  length values_string
  <= i (scan_loop (length values_string) values_string scan_start).
Proof. apply scan_loop_done. simpl. lia. Qed.

(** ** Escaping and its resolution *)

Lemma replace_cons_0 (old new : str) (c : ascii) (s : str) :
  replace_from old new 0 (c :: s)
  = if startswith old (c :: s)
    then new ++ replace_from old new (length old - 1) s
    else c :: replace_from old new 0 s.
Proof. reflexivity. Qed.

Lemma escape_head (text : str) :
  startswith [squote] (Dump.escape text) = false.
Proof.
  destruct text as [|c text]; [reflexivity|].
  unfold Dump.escape. cbn [flat_map]. unfold Dump.escape_char.
  destruct (Ascii.eqb c backslash) eqn:Eb; [reflexivity|].
  destruct (Ascii.eqb c squote) eqn:Eq; [reflexivity|].
  cbn [app startswith]. rewrite Ascii.eqb_sym, Eq. reflexivity.
Qed.

(** The replacement of line 227, first half: every backslash-quote of an
    escaped text becomes a quote, the doubled backslashes stay. *)
Lemma replace_escaped_quotes (text : str) :
  replace [backslash; squote] [squote] (Dump.escape text)
  = flat_map (fun c => if Ascii.eqb c backslash
                       then [backslash; backslash] else [c]) text.
Proof.
  unfold replace. induction text as [|c text IH]; [reflexivity|].
  unfold Dump.escape in *. cbn [flat_map]. unfold Dump.escape_char at 1.
  destruct (Ascii.eqb c backslash) eqn:Eb.
  - apply Ascii.eqb_eq in Eb. subst c.
    cbn [app]. rewrite replace_cons_0.
    change (startswith [backslash; squote]
              (backslash :: backslash :: flat_map Dump.escape_char text))
      with false. cbv iota.
    rewrite replace_cons_0.
    change (startswith [backslash; squote]
              (backslash :: flat_map Dump.escape_char text))
      with (true && startswith [squote] (Dump.escape text)).
    rewrite escape_head. cbn [andb]. now rewrite IH.
  - destruct (Ascii.eqb c squote) eqn:Eq.
    + apply Ascii.eqb_eq in Eq. subst c.
      cbn [app]. rewrite replace_cons_0.
      change (startswith [backslash; squote]
                (backslash :: squote :: flat_map Dump.escape_char text))
        with true. cbv iota.
      cbn [length Nat.sub replace_from app]. now rewrite IH.
    + cbn [app]. rewrite replace_cons_0. cbn [startswith].
      rewrite Ascii.eqb_sym, Eb. cbn [andb]. now rewrite IH.
Qed.

(** Second half: every doubled backslash becomes one. *)
Lemma replace_doubled_backslashes (text : str) :
  replace [backslash; backslash] [backslash]
    (flat_map (fun c => if Ascii.eqb c backslash
                        then [backslash; backslash] else [c]) text)
  = text.
Proof.
  unfold replace. induction text as [|c text IH]; [reflexivity|].
  cbn [flat_map]. destruct (Ascii.eqb c backslash) eqn:Eb.
  - apply Ascii.eqb_eq in Eb. subst c.
    cbn [app]. rewrite replace_cons_0.
    cbn [startswith]. rewrite Ascii.eqb_refl.
    cbn [andb length Nat.sub replace_from app]. now rewrite IH.
  - cbn [app]. rewrite replace_cons_0. cbn [startswith].
    rewrite Ascii.eqb_sym, Eb. cbn [andb]. now rewrite IH.
Qed.

Lemma unescape_escape (text : str) :
  Spec.unescape squote (Dump.escape text) = text.
Proof.
  unfold Spec.unescape.
  now rewrite replace_escaped_quotes, replace_doubled_backslashes.
Qed.

Lemma rstrip_solid (m : str) (d : ascii) :
  isspace d = false -> rstrip (m ++ [d]) = m ++ [d].
Proof.
  intros Hd. unfold rstrip. rewrite rev_app_distr. cbn [rev app].
  rewrite lstrip_solid by exact Hd.
  change (d :: rev m) with ([d] ++ rev m).
  now rewrite rev_app_distr, rev_involutive.
Qed.

Lemma strip_solid (c : ascii) (m : str) (d : ascii) :
  isspace c = false -> isspace d = false ->
  strip (c :: m ++ [d]) = c :: m ++ [d].
Proof.
  intros Hc Hd. unfold strip. rewrite lstrip_solid by exact Hc.
  change (c :: m ++ [d]) with ((c :: m) ++ [d]). now apply rstrip_solid.
Qed.

(** A rendered value is read back as the value. *)
Lemma clean_literal (v : cell) :
  clean_value (strip (Dump.literal v)) = v.
Proof.
  destruct v as [text|]; [|reflexivity].
  cbn [Dump.literal]. rewrite strip_solid by reflexivity.
  unfold clean_value. rewrite strip_solid by reflexivity.
  change (PyStr.eqb (upper (squote :: Dump.escape text ++ [squote]))
            (L "NULL")) with false. cbv iota.
  replace (startswith [squote] (squote :: Dump.escape text ++ [squote])
           && endswith [squote] (squote :: Dump.escape text ++ [squote]))
    with true
    by (symmetry; apply quoted_iff; right; now exists (Dump.escape text)).
  rewrite inner_quoted. f_equal. apply unescape_escape.
Qed.

Lemma literal_is_solid (v : cell) :
  exists c rest, strip (Dump.literal v) = c :: rest.
Proof.
  destruct v as [text|].
  - cbn [Dump.literal]. rewrite strip_solid by reflexivity. eauto.
  - now exists "N", (L "ULL").
Qed.

(** ** The walk over a rendered tuple list *)

(** The four kinds of step. *)
Lemma walk_in_quotes (c q : ascii) (rest : str) (prev : option ascii)
  (rs : list (list cell)) (row : list cell) (token : str) :
  walk (c :: rest) prev false (mkScan rs row token true (Some q) 0)
  = walk rest (Some c) false
      (if Ascii.eqb q c && negb (is_char backslash prev)
       then outside rs row (token ++ [c])
       else mkScan rs row (token ++ [c]) true (Some q) 0).
Proof.
  cbn [walk]. unfold feed, outside.
  cbn [in_quotes negb andb rows current_row current_value quote_char i
       is_char].
  now destruct (Ascii.eqb q c && negb (is_char backslash prev)).
Qed.

Lemma walk_opening_quote (rest : str) (prev : option ascii)
  (rs : list (list cell)) (row : list cell) (token : str) :
  walk (squote :: rest) prev false (outside rs row token)
  = walk rest (Some squote) false
      (mkScan rs row (token ++ [squote]) true (Some squote) 0).
Proof. reflexivity. Qed.

Lemma walk_comma (rest : str) (prev : option ascii)
  (rs : list (list cell)) (row : list cell) (token : str) :
  walk ("," :: rest) prev false (outside rs row token)
  = walk rest (Some ",") false
      (outside rs (row ++ [clean_value (strip token)]) []).
Proof. reflexivity. Qed.

Lemma walk_closing_paren (rest : str) (prev : option ascii)
  (rs : list (list cell)) (row : list cell) (token : str) :
  walk (")" :: rest) prev false (outside rs row token)
  = walk (after_paren rest) (Some "(") false
      (outside
         match match strip token with
               | [] => row
               | _ :: _ => row ++ [clean_value (strip token)]
               end with
         | [] => rs
         | _ :: _ =>
             rs ++ [match strip token with
                    | [] => row
                    | _ :: _ => row ++ [clean_value (strip token)]
                    end]
         end [] []).
Proof. cbn [walk]. rewrite walk_skipping. reflexivity. Qed.

Lemma walk_app_quoted (text more : str) (prev : option ascii)
  (rs : list (list cell)) (row : list cell) (token : str) :
  is_char backslash (last_read prev text) = false ->
  walk (Dump.escape text ++ squote :: more) prev false
       (mkScan rs row token true (Some squote) 0)
  = walk more (Some squote) false
         (outside rs row (token ++ Dump.escape text ++ [squote])).
Proof.
  revert prev token. induction text as [|c text IH]; intros prev token Hlast.
  - cbn [last_read fold_left] in Hlast.
    cbn [Dump.escape flat_map app]. rewrite walk_in_quotes.
    now rewrite Ascii.eqb_refl, Hlast.
  - unfold Dump.escape. cbn [flat_map]. fold (Dump.escape text).
    cbn [last_read fold_left] in Hlast. fold (last_read (Some c) text) in Hlast.
    unfold Dump.escape_char.
    destruct (Ascii.eqb c backslash) eqn:Eb.
    + apply Ascii.eqb_eq in Eb. subst c.
      cbn [app]. rewrite walk_in_quotes.
      change (Ascii.eqb squote backslash) with false. cbn [andb].
      rewrite walk_in_quotes.
      change (Ascii.eqb squote backslash) with false. cbn [andb].
      rewrite (IH _ _ Hlast). now rewrite <- !app_assoc.
    + destruct (Ascii.eqb c squote) eqn:Eq.
      * apply Ascii.eqb_eq in Eq. subst c.
        cbn [app]. rewrite walk_in_quotes.
        change (Ascii.eqb squote backslash) with false. cbn [andb].
        rewrite walk_in_quotes. cbn [is_char].
        rewrite !Ascii.eqb_refl. cbn [andb negb].
        rewrite (IH _ _ Hlast). now rewrite <- !app_assoc.
      * cbn [app]. rewrite walk_in_quotes.
        rewrite Ascii.eqb_sym, Eq. cbn [andb].
        rewrite (IH _ _ Hlast). now rewrite <- !app_assoc.
Qed.

Lemma last_read_rev (prev : option ascii) (text : str) :
  last_read prev text = match rev text with
                        | [] => prev
                        | c :: _ => Some c
                        end.
Proof.
  revert prev. induction text as [|c text IH]; intros prev; [reflexivity|].
  cbn [last_read fold_left rev]. fold (last_read (Some c) text).
  rewrite IH. now destruct (rev text).
Qed.

(** The character before the closing quote is a backslash exactly when
    the text ends with one. *)
Lemma last_read_backslash (text : str) :
  is_char backslash (last_read (Some squote) text)
  = endswith [backslash] text.
Proof.
  rewrite last_read_rev. unfold endswith. cbn [rev app].
  destruct (rev text) as [|c r]; [reflexivity|].
  cbn [is_char startswith]. now rewrite andb_true_r, Ascii.eqb_sym.
Qed.

Lemma closable_last (text : str) :
  Dump.closable (Some text) = true ->
  is_char backslash (last_read (Some squote) text) = false.
Proof.
  cbn [Dump.closable]. intros H.
  rewrite last_read_backslash. now apply negb_true_iff.
Qed.

Lemma last_cons {A : Type} (l : list A) (d x : A) :
  last (x :: l) d = last l x.
Proof.
  revert d x. induction l as [|a l IH]; intros d x; [reflexivity|].
  change (last (x :: a :: l) d) with (last (a :: l) d).
  now rewrite (IH d a), (IH x a).
Qed.

(** A rendered value is read as one token. *)
Lemma walk_literal (v : cell) (more : str) (prev : option ascii)
  (rs : list (list cell)) (row : list cell) :
  Dump.closable v = true ->
  exists prev',
    walk (Dump.literal v ++ more) prev false (outside rs row [])
    = walk more prev' false (outside rs row (Dump.literal v)).
Proof.
  intros Hv. destruct v as [text|].
  - exists (Some squote). cbn [Dump.literal app].
    rewrite walk_opening_quote, <- app_assoc. cbn [app].
    now rewrite walk_app_quoted by now apply closable_last.
  - exists (Some "L"). reflexivity.
Qed.

(** The values of a rendered row: all but the last are pushed, the last
    is the current token. *)
Lemma walk_values (v : cell) (vs : list cell) (more : str)
  (prev : option ascii) (rs : list (list cell)) (row : list cell) :
  forallb Dump.closable (v :: vs) = true ->
  exists prev',
    walk (Dump.values (v :: vs) ++ more) prev false (outside rs row [])
    = walk more prev' false
        (outside rs (row ++ removelast (v :: vs))
           (Dump.literal (last vs v))).
Proof.
  revert v prev row. induction vs as [|v2 vs IH]; intros v prev row Hall.
  - cbn [forallb] in Hall. apply andb_true_iff in Hall as [Hv _].
    destruct (walk_literal v more prev rs row Hv) as [prev' E].
    exists prev'. cbn [removelast last]. rewrite app_nil_r. exact E.
  - cbn [forallb] in Hall. apply andb_true_iff in Hall as [Hv Hall].
    change (Dump.values (v :: v2 :: vs))
      with (Dump.literal v ++ L "," ++ Dump.values (v2 :: vs)).
    rewrite <- !app_assoc.
    destruct (walk_literal v (L "," ++ Dump.values (v2 :: vs) ++ more)
                prev rs row Hv) as [prev1 E1].
    rewrite E1. cbn [L list_ascii_of_string app].
    rewrite walk_comma, clean_literal.
    destruct (IH v2 (Some ",") (row ++ [v]) Hall) as [prev' E].
    exists prev'. rewrite E.
    change (removelast (v :: v2 :: vs)) with (v :: removelast (v2 :: vs)).
    rewrite (last_cons vs v v2). now rewrite <- app_assoc.
Qed.

Lemma flush_literal (x : cell) (row : list cell) :
  match strip (Dump.literal x) with
  | [] => row
  | _ :: _ => row ++ [clean_value (strip (Dump.literal x))]
  end = row ++ [x].
Proof.
  destruct (literal_is_solid x) as [c [rest E]].
  rewrite clean_literal, E. reflexivity.
Qed.

Lemma flush_row (rs : list (list cell)) (row : list cell) (x : cell) :
  match row ++ [x] with
  | [] => rs
  | _ :: _ => rs ++ [row ++ [x]]
  end = rs ++ [row ++ [x]].
Proof. now destruct row. Qed.

Lemma removelast_last_cons {A : Type} (v : A) (vs : list A) :
  removelast (v :: vs) ++ [last vs v] = v :: vs.
Proof.
  rewrite <- (last_cons vs v v). symmetry. now apply app_removelast_last.
Qed.

(** The rendered tuples of a statement are read back as its rows. *)
Lemma walk_tuples (rows : list (list cell)) (prev : option ascii)
  (rs : list (list cell)) :
  (forall row, In row rows -> row <> [] /\ forallb Dump.closable row = true) ->
  scan_finish (walk (Dump.tuples rows) prev false (outside rs [] []))
  = rs ++ rows.
Proof.
  revert prev rs. induction rows as [|r rows IH]; intros prev rs Hrows.
  - cbn [Dump.tuples Dump.join map walk]. now rewrite app_nil_r.
  - destruct (Hrows r (or_introl eq_refl)) as [Hne Hall].
    destruct r as [|v vs]; [contradiction|].
    destruct rows as [|r2 rows].
    + change (Dump.tuples [v :: vs]) with (Dump.values (v :: vs)).
      rewrite <- (app_nil_r (Dump.values (v :: vs))).
      destruct (walk_values v vs [] prev rs [] Hall) as [prev' E].
      rewrite E. cbn [walk app]. unfold scan_finish, push_value, outside.
      cbn [current_value current_row rows].
      rewrite flush_literal, flush_row. now rewrite removelast_last_cons.
    + change (Dump.tuples ((v :: vs) :: r2 :: rows))
        with (Dump.values (v :: vs) ++ L "),(" ++ Dump.tuples (r2 :: rows)).
      destruct (walk_values v vs (L "),(" ++ Dump.tuples (r2 :: rows))
                  prev rs [] Hall) as [prev' E].
      rewrite E. cbn [L list_ascii_of_string app].
      rewrite walk_closing_paren, flush_literal, flush_row.
      rewrite removelast_last_cons. cbn [after_paren].
      change (Ascii.eqb "," "(") with false. cbv iota.
      rewrite Ascii.eqb_refl.
      rewrite IH; [now rewrite <- app_assoc|].
      intros row Hin. apply Hrows. now right.
Qed.

Lemma parse_tuples (rows : list (list cell)) :
  (forall row, In row rows -> row <> [] /\ forallb Dump.closable row = true) ->
  parse_values_string (Dump.tuples rows) = rows.
Proof.
  intros H. rewrite parse_is_walk.
  apply (walk_tuples rows None []). exact H.
Qed.

(** ** The rendered statements *)

Lemma values_text_of_tuples (rows : list (list cell)) :
  values_text_of (L "(" ++ Dump.tuples rows ++ L ")") = Dump.tuples rows.
Proof.
  unfold values_text_of.
  change (L "(" ++ Dump.tuples rows ++ L ")")
    with ("(" :: Dump.tuples rows ++ [")"]).
  rewrite strip_solid by reflexivity.
  change (startswith (L "(") ("(" :: Dump.tuples rows ++ [")"])) with true.
  cbv iota. cbn [drop_first tl].
  replace (endswith (L ")") (Dump.tuples rows ++ [")"])) with true
    by (symmetry; apply endswith_snoc; now exists (Dump.tuples rows)).
  apply removelast_last.
Qed.

Lemma in_join (c : ascii) (sep : str) (pieces : list str) :
  In c (Dump.join sep pieces) ->
  In c sep \/ exists piece, In piece pieces /\ In c piece.
Proof.
  induction pieces as [|p pieces IH]; [intros []|].
  destruct pieces as [|p2 pieces].
  - intros H. right. exists p. split; [now left | exact H].
  - change (Dump.join sep (p :: p2 :: pieces))
      with (p ++ sep ++ Dump.join sep (p2 :: pieces)).
    rewrite !in_app_iff. intros [H | [H | H]].
    + right. exists p. split; [now left | exact H].
    + now left.
    + destruct (IH H) as [Hs | [q [Hq Hc]]]; [now left|].
      right. exists q. split; [now right | exact Hc].
Qed.

Lemma semicolon_in_escape (text : str) :
  In ";" (Dump.escape text) -> In ";" text.
Proof.
  unfold Dump.escape. rewrite in_flat_map. intros [c [Hc H]].
  unfold Dump.escape_char in H.
  destruct (Ascii.eqb c backslash);
    [simpl in H; destruct H as [H|[H|[]]]; discriminate H|].
  destruct (Ascii.eqb c squote);
    [simpl in H; destruct H as [H|[H|[]]]; discriminate H|].
  destruct H as [<-|[]]. exact Hc.
Qed.

Lemma semicolon_in_literal (v : cell) :
  Dump.storable v = true -> ~ In ";" (Dump.literal v).
Proof.
  destruct v as [text|]; cbn [Dump.storable Dump.literal].
  - intros H. apply andb_true_iff in H as [H _]. apply negb_true_iff in H.
    intros [Hq | Hin]; [discriminate Hq|].
    apply in_app_or in Hin as [Hin | [Hq | []]]; [|discriminate Hq].
    apply semicolon_in_escape in Hin.
    assert (Hex : existsb (Ascii.eqb ";") text = true).
    { apply existsb_exists. exists ";". split; [exact Hin|].
      apply Ascii.eqb_refl. }
    congruence.
  - intros _ H. simpl in H.
    repeat (destruct H as [H | H]; [discriminate H|]). exact H.
Qed.

Lemma semicolon_in_tuples (rows : list (list cell)) :
  (forall row, In row rows -> forallb Dump.storable row = true) ->
  ~ In ";" (Dump.tuples rows).
Proof.
  intros Hrows H. unfold Dump.tuples in H.
  apply in_join in H as [H | [piece [Hp H]]].
  - simpl in H. repeat (destruct H as [H | H]; [discriminate H|]). exact H.
  - apply in_map_iff in Hp as [row [<- Hrow]]. unfold Dump.values in H.
    apply in_join in H as [H | [lit [Hl H]]].
    + simpl in H. repeat (destruct H as [H | H]; [discriminate H|]). exact H.
    + apply in_map_iff in Hl as [v [<- Hv]].
      specialize (Hrows row Hrow). rewrite forallb_forall in Hrows.
      exact (semicolon_in_literal v (Hrows v Hv) H).
Qed.

Lemma never_inside_app (test : str -> bool) (a b rest : str) :
  Spec.never_inside test (a ++ b) rest
  = Spec.never_inside test a (b ++ rest) && Spec.never_inside test b rest.
Proof.
  induction a as [|c a IH]; [reflexivity|].
  cbn [app Spec.never_inside]. rewrite IH, <- app_assoc.
  now rewrite andb_assoc.
Qed.

(** A test that fails on every text beginning with a character of [pre]
    fails everywhere inside [pre]. *)
Lemma never_inside_heads (test : str -> bool) (pre rest : str) :
  (forall c s, In c pre -> test (c :: s) = false) ->
  Spec.never_inside test pre rest = true.
Proof.
  induction pre as [|c pre IH]; intros H; [reflexivity|].
  cbn [Spec.never_inside app]. rewrite (H c) by now left.
  apply IH. intros x s Hx. apply H. now right.
Qed.

Lemma plain_not_blank (c : ascii) :
  Spec.plain_char c = true -> ci " " c = false.
Proof. each_char c. Qed.

Lemma plain_not_close (c : ascii) :
  Spec.plain_char c = true -> Ascii.eqb c ")" = false.
Proof. each_char c. Qed.

Ltac some_conjunct_false :=
  apply andb_false_iff;
  first [ left; first [reflexivity | assumption]
        | right; some_conjunct_false ].

(** The header of an INSERT statement does not begin on a run of plain
    characters that a backtick follows: its own first backtick comes
    after two blanks. *)
Lemma header_on_plain (table_name a rest : str) :
  a <> [] -> Spec.plain_name a ->
  Spec.starts_ci (Spec.insert_header table_name) (a ++ backtick :: rest)
  = false.
Proof.
  intros Hne Hplain. unfold Spec.plain_name in Hplain.
  unfold Spec.insert_header. cbn [L list_ascii_of_string app].
  destruct a as [|a0 [|a1 [|a2 [|a3 [|a4 [|a5 [|a6 a]]]]]]];
    [contradiction| | | | | | |];
    cbn [app Spec.starts_ci]; try some_conjunct_false.
  cbn [forallb] in Hplain.
  repeat (apply andb_true_iff in Hplain as [? Hplain]).
  assert (H6 : ci " " a6 = false) by now apply plain_not_blank.
  some_conjunct_false.
Qed.

Lemma header_inside_plain (table_name a rest : str) :
  Spec.plain_name a ->
  Spec.never_inside (Spec.starts_ci (Spec.insert_header table_name)) a
    (backtick :: rest) = true.
Proof.
  induction a as [|c a IH]; intros Hplain; [reflexivity|].
  cbn [Spec.never_inside]. rewrite header_on_plain;
    [|discriminate|exact Hplain].
  apply IH. unfold Spec.plain_name in *. cbn [forallb] in Hplain.
  now apply andb_true_iff in Hplain as [_ Hplain].
Qed.

(** A test that fails inside each piece of a column line fails inside the
    lines of a rendered definition. *)
Lemma never_inside_lines (test : str -> bool) (columns : list str) (rest : str) :
  (forall s, Spec.never_inside test (L "  `") s = true) ->
  (forall name s, Spec.plain_name name ->
     Spec.never_inside test name (backtick :: s) = true) ->
  (forall s, Spec.never_inside test (L "` text") s = true) ->
  (forall s, Spec.never_inside test (L "," ++ [newline]) s = true) ->
  Forall Spec.plain_name columns ->
  Spec.never_inside test
    (Dump.join (L "," ++ [newline]) (map Dump.column_line columns)) rest
  = true.
Proof.
  intros Hindent Hname Htype Hsep Hcols. revert rest.
  assert (Hline : forall name s, Spec.plain_name name ->
            Spec.never_inside test (Dump.column_line name) s = true).
  { intros name s Hn. unfold Dump.column_line.
    rewrite !never_inside_app, Hindent, Htype.
    change (L "` text" ++ s) with (backtick :: L " text" ++ s).
    now rewrite Hname. }
  set (sep := L "," ++ [newline]) in *.
  induction Hcols as [|c columns Hc Hcols IH]; intros rest; [reflexivity|].
  destruct columns as [|c2 columns].
  - now apply Hline.
  - change (Dump.join sep (map Dump.column_line (c :: c2 :: columns)))
      with (Dump.column_line c
              ++ sep ++ Dump.join sep (map Dump.column_line (c2 :: columns))).
    rewrite (never_inside_app test (Dump.column_line c)).
    rewrite (never_inside_app test sep).
    now rewrite Hline, Hsep, IH.
Qed.

(** No INSERT header begins inside the rendered definition, whatever
    follows it. *)
Lemma header_not_in_definition (table_name : str) (columns : list str)
  (rest : str) :
  Spec.plain_name table_name -> Forall Spec.plain_name columns ->
  Spec.no_start (Spec.insert_header table_name)
    (Dump.create_statement table_name columns) rest.
Proof.
  intros Ht Hcols. unfold Spec.no_start, Dump.create_statement.
  rewrite !never_inside_app.
  repeat (apply andb_true_iff; split); try reflexivity.
  - change ((L "` (" ++ [newline] ++
             Dump.join (L "," ++ [newline]) (map Dump.column_line columns) ++
             [newline] ++ L ") ENGINE=InnoDB;" ++ [newline]) ++ rest)
      with (backtick :: (L " (" ++ [newline] ++
             Dump.join (L "," ++ [newline]) (map Dump.column_line columns) ++
             [newline] ++ L ") ENGINE=InnoDB;" ++ [newline]) ++ rest).
    now apply header_inside_plain.
  - apply never_inside_lines; try reflexivity; [|exact Hcols].
    intros name s Hn. now apply header_inside_plain.
Qed.

Lemma header_not_on_newline (table_name rest : str) :
  Spec.no_start (Spec.insert_header table_name) [newline] rest.
Proof. reflexivity. Qed.

(** The statements of a rendered dump are found one by one, each with
    the text between VALUES and its semicolon. *)
Lemma findall_statements (table_name pre : str)
  (statements : list (list (list cell))) :
  (forall rest, Spec.no_start (Spec.insert_header table_name) pre rest) ->
  (forall rows row, In rows statements -> In row rows ->
     forallb Dump.storable row = true) ->
  findall (insert_pattern table_name)
    (pre ++ flat_map (Dump.insert_statement table_name) statements)
  = map (fun rows => L "(" ++ Dump.tuples rows ++ L ")") statements.
Proof.
  revert pre. induction statements as [|rows statements IH];
    intros pre Hpre Hall.
  - cbn [flat_map map]. rewrite app_nil_r. apply findall_no_match.
    rewrite insert_pattern_eq. apply search_absent; [discriminate|].
    apply Hpre.
  - cbn [flat_map map].
    replace (pre ++ Dump.insert_statement table_name rows
               ++ flat_map (Dump.insert_statement table_name) statements)
      with (pre ++ Spec.insert_header table_name ++ L " " ++ L "VALUES"
              ++ (L " (" ++ Dump.tuples rows ++ L ")")
              ++ ";" :: ([newline]
                   ++ flat_map (Dump.insert_statement table_name) statements)).
    + rewrite findall_insert_statement.
      * f_equal. apply IH.
        -- intros rest. apply header_not_on_newline.
        -- intros rs row Hrs. apply Hall. now right.
      * apply Hpre.
      * apply same_refl.
      * reflexivity.
      * reflexivity.
      * change (L " (" ++ Dump.tuples rows ++ L ")")
          with (" " :: "(" :: Dump.tuples rows ++ [")"]).
        intros [H | [H | H]]; [discriminate H | discriminate H |].
        apply in_app_or in H as [H | [H | []]]; [|discriminate H].
        revert H. apply semicolon_in_tuples.
        intros row Hrow. apply (Hall rows); [now left | exact Hrow].
    + unfold Dump.insert_statement, Spec.insert_header.
      rewrite <- !app_assoc. reflexivity.
Qed.

(** ** The rendered definition *)

Lemma split_at_sep (sep : ascii) (a b : str) :
  ~ In sep a -> split sep (a ++ sep :: b) = a :: split sep b.
Proof.
  induction a as [|c a IH]; intros H.
  - cbn [app split]. now rewrite Ascii.eqb_refl.
  - cbn [app split]. destruct (Ascii.eqb c sep) eqn:E.
    + apply Ascii.eqb_eq in E. subst c. exfalso. apply H. now left.
    + rewrite IH; [reflexivity|]. intros Hin. apply H. now right.
Qed.

Lemma plain_without (name : str) (c : ascii) :
  Spec.plain_name name -> Spec.plain_char c = false -> ~ In c name.
Proof.
  unfold Spec.plain_name. rewrite forallb_forall. intros H Hc Hin.
  specialize (H c Hin). congruence.
Qed.

(** A rendered column line, with or without its comma, trimmed. *)
Lemma strip_column_line (name tail : str) :
  tail = [] \/ tail = L "," ->
  strip (Dump.column_line name ++ tail)
  = backtick :: name ++ backtick :: L " text" ++ tail.
Proof.
  intros Htail. unfold Dump.column_line, strip.
  rewrite <- !app_assoc.
  change (lstrip (L "  `" ++ name ++ L "` text" ++ tail))
    with (backtick :: name ++ L "` text" ++ tail).
  assert (E : exists m d, isspace d = false
                /\ backtick :: name ++ L "` text" ++ tail = m ++ [d]).
  { destruct Htail as [-> | ->].
    - exists (backtick :: name ++ L "` tex"), "t". split; [reflexivity|].
      cbn [app]. now rewrite <- app_assoc.
    - exists (backtick :: name ++ L "` text"), ",". split; [reflexivity|].
      cbn [app]. now rewrite <- app_assoc. }
  destruct E as [m [d [Hd E]]]. rewrite E, rstrip_solid by exact Hd.
  now rewrite <- E.
Qed.

Lemma column_of_line (name tail : str) :
  Spec.plain_name name -> tail = [] \/ tail = L "," ->
  Spec.column_of (Dump.column_line name ++ tail) = Some name.
Proof.
  intros Hname Htail. unfold Spec.column_of.
  rewrite strip_column_line by exact Htail.
  rewrite Ascii.eqb_refl, before_stop; [reflexivity|].
  now apply plain_without.
Qed.

Lemma newline_in_line (name tail : str) :
  Spec.plain_name name -> tail = [] \/ tail = L "," ->
  ~ In newline (Dump.column_line name ++ tail).
Proof.
  intros Hname Htail. unfold Dump.column_line.
  rewrite !in_app_iff. intros [[H | [H | H]] | H].
  - simpl in H. repeat (destruct H as [H | H]; [discriminate H|]). exact H.
  - revert H. now apply plain_without.
  - simpl in H. repeat (destruct H as [H | H]; [discriminate H|]). exact H.
  - destruct Htail as [-> | ->]; simpl in H;
      repeat (destruct H as [H | H]; [discriminate H|]); exact H.
Qed.

(** The lines of a rendered definition declare its columns. *)
Lemma columns_of_lines (columns : list str) :
  Forall Spec.plain_name columns ->
  flat_map (fun line => match Spec.column_of line with
                        | Some name => [name]
                        | None => []
                        end)
    (split newline
       (Dump.join (L "," ++ [newline]) (map Dump.column_line columns)
          ++ [newline]))
  = columns.
Proof.
  induction 1 as [|c columns Hc Hcols IH]; [reflexivity|].
  destruct columns as [|c2 columns].
  - cbn [map Dump.join].
    rewrite <- (app_nil_r (Dump.column_line c)) at 1.
    rewrite <- app_assoc. cbn [app].
    rewrite <- (app_nil_r (Dump.column_line c)).
    rewrite split_at_sep by (apply newline_in_line; auto).
    cbn [flat_map split]. rewrite column_of_line by auto. reflexivity.
  - change (Dump.join (L "," ++ [newline])
              (map Dump.column_line (c :: c2 :: columns)))
      with (Dump.column_line c ++ (L "," ++ [newline])
              ++ Dump.join (L "," ++ [newline])
                   (map Dump.column_line (c2 :: columns))).
    replace ((Dump.column_line c ++ (L "," ++ [newline])
                ++ Dump.join (L "," ++ [newline])
                     (map Dump.column_line (c2 :: columns))) ++ [newline])
      with ((Dump.column_line c ++ L ",")
              ++ newline :: (Dump.join (L "," ++ [newline])
                               (map Dump.column_line (c2 :: columns))
                             ++ [newline]))
      by (rewrite <- !app_assoc; reflexivity).
    rewrite split_at_sep by (apply newline_in_line; auto).
    cbn [flat_map]. rewrite column_of_line by auto.
    cbn [app]. f_equal. exact IH.
Qed.

Lemma columns_of_rendered (columns : list str) :
  Forall Spec.plain_name columns ->
  Spec.columns_of
    ([newline] ++ Dump.join (L "," ++ [newline])
                    (map Dump.column_line columns) ++ [newline])
  = columns.
Proof.
  intros H. unfold Spec.columns_of. cbn [app split].
  rewrite Ascii.eqb_refl. cbn [flat_map].
  change (Spec.column_of []) with (@None str). cbn [app].
  now apply columns_of_lines.
Qed.

(** The definition does not close before its last line. *)
Lemma body_is_open (columns : list str) (rest : str) :
  Forall Spec.plain_name columns ->
  Spec.never_inside Spec.ends_definition
    ([newline] ++ Dump.join (L "," ++ [newline])
                    (map Dump.column_line columns) ++ [newline])
    rest = true.
Proof.
  intros Hcols. rewrite !never_inside_app.
  repeat (apply andb_true_iff; split); try reflexivity.
  apply never_inside_lines; try reflexivity; [|exact Hcols].
  intros name s Hname. apply never_inside_heads.
  intros c s' Hc. cbn [Spec.ends_definition].
  unfold Spec.plain_name in Hname. rewrite forallb_forall in Hname.
  now rewrite (plain_not_close c (Hname c Hc)).
Qed.

(** The search of line 129 on a rendered dump finds the body of the
    definition. *)
Lemma search_rendered (table_name : str) (columns : list str) (inserts : str) :
  Forall Spec.plain_name columns ->
  exists marks rest,
    search (create_pattern table_name)
      (Dump.create_statement table_name columns ++ inserts)
    = Some (marks, rest)
    /\ Spec.columns_of (group1 marks) = columns.
Proof.
  intros Hcols.
  set (body := [newline] ++ Dump.join (L "," ++ [newline])
                              (map Dump.column_line columns) ++ [newline]).
  set (post := L "=InnoDB;" ++ [newline] ++ inserts).
  pose proof (exec_create_definition table_name
                (Spec.create_header table_name) (L " ") body
                (L " ") (L "ENGINE") post
                (same_refl _) eq_refl (body_is_open columns _ Hcols)
                eq_refl eq_refl) as E.
  exists [body ++ ")" :: L " " ++ L "ENGINE" ++ post;
          ")" :: L " " ++ L "ENGINE" ++ post], post.
  split.
  - apply search_here. etransitivity; [|exact E]. f_equal.
    unfold Dump.create_statement, Spec.create_header, body, post.
    rewrite <- !app_assoc. reflexivity.
  - rewrite group1_capture. now apply columns_of_rendered.
Qed.

(** ** The round trip *)

Lemma well_formed_rows (m : nat) (statements : list (list (list cell))) :
  Dump.well_formed m statements = true ->
  forall rows row, In rows statements -> In row rows ->
    length row = m /\ forallb Dump.storable row = true.
Proof.
  unfold Dump.well_formed. rewrite forallb_forall.
  intros H rows row Hrows Hrow. specialize (H rows Hrows).
  rewrite forallb_forall in H. specialize (H row Hrow).
  unfold Dump.well_formed_row in H. apply andb_true_iff in H as [Hlen Hall].
  apply Nat.eqb_eq in Hlen. now split.
Qed.

Lemma filter_all {A : Type} (keep : A -> bool) (xs : list A) :
  (forall x, In x xs -> keep x = true) -> filter keep xs = xs.
Proof.
  induction xs as [|x xs IH]; intros H; [reflexivity|].
  cbn [filter]. rewrite (H x) by now left.
  f_equal. apply IH. intros y Hy. apply H. now right.
Qed.

Lemma storable_closable (row : list cell) :
  forallb Dump.storable row = true -> forallb Dump.closable row = true.
Proof.
  rewrite !forallb_forall. intros H v Hv. specialize (H v Hv).
  destruct v as [text|]; [|reflexivity].
  cbn [Dump.storable Dump.closable] in *.
  now apply andb_true_iff in H as [_ H].
Qed.

(** The matches of a rendered dump give back the rows. *)
Lemma dataset_rendered (columns : list str)
  (statements : list (list (list cell))) :
  columns <> [] -> NoDup columns ->
  Dump.well_formed (length columns) statements = true ->
  Spec.dataset columns
    (map (fun rows => L "(" ++ Dump.tuples rows ++ L ")") statements)
  = map (combine columns) (concat statements).
Proof.
  intros Hne Hnd Hwf. pose proof (well_formed_rows _ _ Hwf) as Hrows.
  clear Hwf. unfold Spec.dataset.
  induction statements as [|rows statements IH]; [reflexivity|].
  cbn [map flat_map concat]. rewrite map_app, IH.
  - f_equal. rewrite values_text_of_tuples, parse_tuples.
    + rewrite filter_all.
      * apply map_ext. intros row. now apply zip_record_combine.
      * intros row Hrow. apply Nat.eqb_eq.
        now apply (Hrows rows row (or_introl eq_refl) Hrow).
    + intros row Hrow.
      destruct (Hrows rows row (or_introl eq_refl) Hrow) as [Hlen Hall].
      split; [|now apply storable_closable]. intros ->.
      destruct columns; [now apply Hne|].
      discriminate Hlen.
  - intros rs row Hrs. apply Hrows. now right.
Qed.

Lemma keys_combine (columns : list str) (row : list cell) :
  length row = length columns -> keys (combine columns row) = columns.
Proof.
  unfold keys. revert row.
  induction columns as [|c columns IH]; intros [|v row] H;
    try reflexivity; try discriminate H.
  cbn [combine map fst]. f_equal. apply IH. now injection H.
Qed.

(** C9, as the code has it.  For a table name and column names made of
    letters, digits and underscores, at least one column, distinct column
    names, and rows of as many values as there are columns, each the null
    value or a text with no semicolon that does not end with a backslash:
    extracting the table from the rendered dump gives one record for each
    row, in the order of the rows across the statements, that pairs the
    column names, in order, with the values of the row. *)
Theorem round_trip (table_name : str) (columns : list str)
  (statements : list (list (list cell))) :
  Spec.plain_name table_name ->
  columns <> [] -> NoDup columns -> Forall Spec.plain_name columns ->
  Dump.well_formed (length columns) statements = true ->
  extract_table_data (Dump.dump table_name columns statements) table_name
  = map (combine columns) (concat statements)
  /\ length (extract_table_data (Dump.dump table_name columns statements)
               table_name)
     = length (concat statements)
  /\ Forall (fun r => keys r = columns)
       (extract_table_data (Dump.dump table_name columns statements)
          table_name).
Proof.
  intros Ht Hne Hnd Hcols Hwf.
  assert (E : extract_table_data (Dump.dump table_name columns statements)
                table_name
              = map (combine columns) (concat statements)).
  { rewrite extract_table_data_eq. unfold Dump.dump.
    destruct (search_rendered table_name columns
                (flat_map (Dump.insert_statement table_name) statements)
                Hcols) as [marks [rest [-> ->]]].
    rewrite findall_statements.
    - now apply dataset_rendered.
    - intros rest'. now apply header_not_in_definition.
    - intros rows row Hrows Hrow.
      now apply (well_formed_rows _ _ Hwf rows row Hrows Hrow). }
  rewrite E. split; [reflexivity|]. split; [apply length_map|].
  apply Forall_forall. intros r Hr.
  apply in_map_iff in Hr as [row [<- Hrow]].
  apply keys_combine. apply in_concat in Hrow as [rows [Hrows Hrow]].
  now apply (well_formed_rows _ _ Hwf rows row Hrows Hrow).
Qed.

Lemma round_trip_witness :
  extract_table_data
    (Dump.dump (L "is_user") [L "id"; L "name"; L "note"] Examples.sample_rows)
    (L "is_user")
  = map (combine [L "id"; L "name"; L "note"]) (concat Examples.sample_rows)
  /\ length (extract_table_data
               (Dump.dump (L "is_user") [L "id"; L "name"; L "note"]
                  Examples.sample_rows)
               (L "is_user"))
     = length (concat Examples.sample_rows)
  /\ Forall (fun r => keys r = [L "id"; L "name"; L "note"])
       (extract_table_data
          (Dump.dump (L "is_user") [L "id"; L "name"; L "note"]
             Examples.sample_rows)
          (L "is_user")).
Proof.
  apply round_trip.
  - reflexivity.
  - discriminate.
  - repeat constructor; simpl; intros H;
      repeat (destruct H as [H | H]; [discriminate H|]); exact H.
  - repeat constructor.
  - reflexivity.
Defined.

(** C9 as stated fails: one row, one column, and a value that holds a
    semicolon. *)
Lemma round_trip_loses_semicolon :
  extract_table_data (Dump.dump (L "t") [L "c"] [[[Some (L "a;b")]]]) (L "t")
  <> map (combine [L "c"]) (concat [[[Some (L "a;b")]]]).
Proof. vm_compute. discriminate. Qed.

Example round_trip_of_semicolon :
  extract_table_data (Dump.dump (L "t") [L "c"] [[[Some (L "a;b")]]]) (L "t")
  = [[(L "c", Some (L "'a"))]].
Proof. vm_compute. reflexivity. Qed.

(** A value that ends with a backslash, followed by another value: the
    quote that closes it is taken for an escaped one (line 205), and the
    two values come back as one. *)
Example round_trip_of_trailing_backslash :
  parse_values_string
    (Dump.tuples [[Some (L "a" ++ [backslash]); Some (L "b")]])
  = [[Some (L "a" ++ [backslash; squote] ++ L ",'b")]].
Proof. vm_compute. reflexivity. Qed.

(** * Further properties of the parser *)

(** ** [clean_value] *)

Lemma quoting_escape_head (q : ascii) (text : str) :
  Ascii.eqb q backslash = false ->
  startswith [q] (Quoting.escape q text) = false.
Proof.
  intros Hq. destruct text as [|c text]; [reflexivity|].
  unfold Quoting.escape. cbn [flat_map]. unfold Quoting.escape_char.
  destruct (Ascii.eqb c backslash) eqn:Eb.
  - cbn [app startswith]. now rewrite Hq.
  - destruct (Ascii.eqb c q) eqn:Eq.
    + cbn [app startswith]. now rewrite Hq.
    + cbn [app startswith]. now rewrite Ascii.eqb_sym, Eq.
Qed.

Lemma replace_quoting_quotes (q : ascii) (text : str) :
  Ascii.eqb q backslash = false ->
  replace [backslash; q] [q] (Quoting.escape q text)
  = flat_map (fun c => if Ascii.eqb c backslash
                       then [backslash; backslash] else [c]) text.
Proof.
  intros Hq. unfold replace. induction text as [|c text IH]; [reflexivity|].
  unfold Quoting.escape in *. cbn [flat_map]. unfold Quoting.escape_char at 1.
  destruct (Ascii.eqb c backslash) eqn:Eb.
  - apply Ascii.eqb_eq in Eb. subst c.
    cbn [app]. rewrite replace_cons_0. cbn [startswith].
    rewrite Ascii.eqb_refl, Hq. cbn [andb].
    rewrite replace_cons_0.
    change (startswith [backslash; q]
              (backslash :: flat_map (Quoting.escape_char q) text))
      with (Ascii.eqb backslash backslash
            && startswith [q] (Quoting.escape q text)).
    rewrite quoting_escape_head by exact Hq.
    rewrite andb_false_r. now rewrite IH.
  - destruct (Ascii.eqb c q) eqn:Eq.
    + apply Ascii.eqb_eq in Eq. subst c.
      cbn [app]. rewrite replace_cons_0. cbn [startswith].
      rewrite !Ascii.eqb_refl. cbn [andb length Nat.sub replace_from app].
      now rewrite IH.
    + cbn [app]. rewrite replace_cons_0. cbn [startswith].
      rewrite Ascii.eqb_sym, Eb. cbn [andb]. now rewrite IH.
Qed.

(** A literal in either kind of quotes is read back as its text. *)
Lemma clean_quoted_literal (q : ascii) (text : str) :
  q = squote \/ q = dquote ->
  clean_value (Quoting.literal q text) = Some text.
Proof.
  intros Hq.
  assert (Hsolid : isspace q = false) by (destruct Hq; subst q; reflexivity).
  assert (Hbs : Ascii.eqb q backslash = false)
    by (destruct Hq; subst q; reflexivity).
  unfold clean_value, Quoting.literal.
  rewrite strip_solid by exact Hsolid.
  assert (Hnull : PyStr.eqb (upper (q :: Quoting.escape q text ++ [q]))
                    (L "NULL") = false)
    by (destruct Hq; subst q; reflexivity).
  rewrite Hnull.
  assert (Hquoted : startswith [q] (q :: Quoting.escape q text ++ [q])
                    && endswith [q] (q :: Quoting.escape q text ++ [q])
                    = true)
    by (apply quoted_iff; right; now exists (Quoting.escape q text)).
  destruct Hq; subst q.
  - rewrite Hquoted, inner_quoted.
    now rewrite replace_quoting_quotes, replace_doubled_backslashes.
  - change (startswith [squote] (dquote :: Quoting.escape dquote text ++ [dquote]))
      with false. cbn [andb].
    rewrite Hquoted, inner_quoted.
    now rewrite replace_quoting_quotes, replace_doubled_backslashes.
Qed.

(** X1.  [clean_value] undoes the escaping of a quoted literal: a text
    written between single quotes, or between double quotes, with a
    backslash before each backslash and each quote of that kind, is read
    back as the text, whatever characters it holds. *)
Theorem clean_value_decodes (q : ascii) (text : str) :
  q = squote \/ q = dquote ->
  clean_value (Quoting.literal q text) = Some text.
Proof. intros Hq. apply clean_quoted_literal. exact Hq. Qed.

Lemma clean_value_decodes_witness :
  clean_value (Quoting.literal dquote (L "say 'a;b'" ++ [backslash; dquote]))
  = Some (L "say 'a;b'" ++ [backslash; dquote]).
Proof. apply clean_value_decodes. now right. Defined.

Lemma lstrip_all_blank (s : str) : forallb isspace s = true -> lstrip s = [].
Proof.
  induction s as [|c s IH]; [reflexivity|]. cbn [forallb lstrip].
  intros H. apply andb_true_iff in H as [-> H]. now apply IH.
Qed.

Lemma lstrip_app (a b : str) :
  lstrip (a ++ b) = if forallb isspace a then lstrip b else lstrip a ++ b.
Proof.
  induction a as [|c a IH]; [reflexivity|].
  cbn [app lstrip forallb]. destruct (isspace c); [exact IH | reflexivity].
Qed.

Lemma rstrip_blanks (s ws : str) :
  forallb isspace ws = true -> rstrip (s ++ ws) = rstrip s.
Proof.
  intros H. unfold rstrip. rewrite rev_app_distr, lstrip_blanks; [reflexivity|].
  rewrite forallb_forall in *. intros c Hc. apply H. now apply in_rev.
Qed.

Lemma strip_blanks (ws1 token ws2 : str) :
  forallb isspace ws1 = true -> forallb isspace ws2 = true ->
  strip (ws1 ++ token ++ ws2) = strip token.
Proof.
  intros H1 H2. unfold strip. rewrite (lstrip_blanks ws1 _ H1), lstrip_app.
  destruct (forallb isspace token) eqn:E.
  - now rewrite (lstrip_all_blank ws2 H2), (lstrip_all_blank token E).
  - now apply rstrip_blanks.
Qed.

(** X2.  Blanks around a token change nothing: [clean_value] gives the
    same value for the token with any run of whitespace before it and
    after it. *)
Theorem clean_value_ignores_blanks (ws1 token ws2 : str) :
  forallb isspace ws1 = true -> forallb isspace ws2 = true ->
  clean_value (ws1 ++ token ++ ws2) = clean_value token.
Proof.
  intros H1 H2. unfold clean_value. now rewrite strip_blanks.
Qed.

Lemma clean_value_ignores_blanks_witness :
  clean_value (L "  " ++ L "'a b'" ++ [newline]) = clean_value (L "'a b'").
Proof. apply clean_value_ignores_blanks; reflexivity. Defined.

(** ** [parse_values_string] *)

(** X3.  No row of the result is empty: a closing parenthesis, or the
    end of the input, adds the current row only when it holds a value. *)
Theorem rows_are_never_empty (values_string : str) :
  Forall (fun row => row <> []) (parse_values_string values_string).
Proof. apply parse_values_string_nonempty. Qed.

(** X4.  Each iteration of the loop moves the index forward and never
    past the end of the input, the jump to the next opening parenthesis
    included; so the loop ends with the index at the length of the input
    after at most that many iterations. *)
Theorem scan_index_advances (values_string : str) :
  (forall st, i st < length values_string ->
     i st < i (scan_step values_string st)
     /\ i (scan_step values_string st) <= length values_string)
  /\ i (scan_loop (length values_string) values_string scan_start)
     = length values_string.
Proof.
  assert (Hstep : forall st, i st < length values_string ->
            i st < i (scan_step values_string st)
            /\ i (scan_step values_string st) <= length values_string).
  { intros st Hlt.
    destruct (nth_error values_string (i st)) as [char|] eqn:Hc;
      [|apply nth_error_None in Hc; lia].
    destruct (scan_step_feed values_string st char Hc) as [_ [Hplain Hparen]].
    destruct (negb (in_quotes st) && Ascii.eqb char ")").
    - destruct (Hparen eq_refl) as [_ [Hle [Hgt _]]]. lia.
    - rewrite (Hplain eq_refl). lia. }
  split; [exact Hstep|].
  apply Nat.le_antisymm; [|apply parse_values_string_terminates].
  assert (Hinv : forall fuel st, i st <= length values_string ->
            i (scan_loop fuel values_string st) <= length values_string).
  { induction fuel as [|fuel IH]; intros st Hst; [exact Hst|].
    cbn [scan_loop]. destruct (i st <? length values_string) eqn:Hlt;
      [|exact Hst].
    apply Nat.ltb_lt in Hlt. apply IH. now apply Hstep. }
  apply Hinv. simpl. lia.
Qed.

Lemma tokenizable_rows (rows : list (list cell)) :
  Dump.tokenizable rows = true ->
  forall row, In row rows -> row <> [] /\ forallb Dump.closable row = true.
Proof.
  unfold Dump.tokenizable. rewrite forallb_forall. intros H row Hin.
  specialize (H row Hin). destruct row; [discriminate H|]. now split.
Qed.

(** X5.  The tokenizer reads a rendered tuple list back: for rows that
    are not empty, whose values are the null value or texts that do not
    end with a backslash, the rows written as [v,v),(v,v),(v,v] are the
    rows returned; commas, parentheses, quotes, semicolons and the tuple
    separator inside a text do not split it. *)
Theorem tokenizer_round_trip (rows : list (list cell)) :
  Dump.tokenizable rows = true ->
  parse_values_string (Dump.tuples rows) = rows.
Proof.
  intros H. apply parse_tuples. exact (tokenizable_rows rows H).
Qed.

Lemma tokenizer_round_trip_witness :
  parse_values_string
    (Dump.tuples [ [None; Some (L "a;b),('c'"); Some []];
                   [Some (L "NULL"); Some (L " , "); Some [backslash; "n"]] ])
  = [ [None; Some (L "a;b),('c'"); Some []];
      [Some (L "NULL"); Some (L " , "); Some [backslash; "n"]] ].
Proof. apply tokenizer_round_trip. reflexivity. Defined.

(** The rendered tuples before a closing parenthesis: the scan resumes
    after the next opening one. *)
Lemma walk_tuples_closed (rows : list (list cell)) (more : str)
  (prev : option ascii) (rs : list (list cell)) :
  (forall row, In row rows -> row <> [] /\ forallb Dump.closable row = true) ->
  walk (Dump.tuples rows ++ ")" :: more) prev false (outside rs [] [])
  = walk (after_paren more) (Some "(") false (outside (rs ++ rows) [] []).
Proof.
  revert prev rs. induction rows as [|r rows IH]; intros prev rs Hrows.
  - cbn [Dump.tuples Dump.join map app]. rewrite walk_closing_paren.
    now rewrite app_nil_r.
  - destruct (Hrows r (or_introl eq_refl)) as [Hne Hall].
    destruct r as [|v vs]; [contradiction|].
    destruct rows as [|r2 rows].
    + change (Dump.tuples [v :: vs]) with (Dump.values (v :: vs)).
      destruct (walk_values v vs (")" :: more) prev rs [] Hall) as [prev' E].
      rewrite E. cbn [app].
      rewrite walk_closing_paren, flush_literal, flush_row.
      now rewrite removelast_last_cons.
    + change (Dump.tuples ((v :: vs) :: r2 :: rows))
        with (Dump.values (v :: vs) ++ L "),(" ++ Dump.tuples (r2 :: rows)).
      rewrite <- !app_assoc.
      destruct (walk_values v vs
                  (L "),(" ++ Dump.tuples (r2 :: rows) ++ ")" :: more)
                  prev rs [] Hall) as [prev' E].
      rewrite E. cbn [L list_ascii_of_string app].
      rewrite walk_closing_paren, flush_literal, flush_row.
      rewrite removelast_last_cons. cbn [after_paren].
      change (Ascii.eqb "," "(") with false. cbv iota.
      rewrite Ascii.eqb_refl.
      rewrite IH; [now rewrite <- app_assoc|].
      intros row Hin. apply Hrows. now right.
Qed.

Lemma after_paren_app (junk rest : str) :
  existsb (Ascii.eqb "(") junk = false ->
  after_paren (junk ++ "(" :: rest) = rest /\ after_paren junk = [].
Proof.
  induction junk as [|c junk IH]; intros H.
  - cbn [app after_paren]. now rewrite Ascii.eqb_refl.
  - cbn [existsb] in H. apply orb_false_iff in H as [Hc H].
    cbn [app after_paren]. rewrite Ascii.eqb_sym, Hc. now apply IH.
Qed.

(** X6.  After the closing parenthesis of a tuple everything up to the
    next opening parenthesis is skipped, whatever it is: two rendered
    tuple lists with any text free of opening parentheses between them are
    read as the rows of both, and such a text after the last closing
    parenthesis adds nothing. *)
Theorem text_between_tuples_is_skipped
  (rows1 rows2 : list (list cell)) (junk : str) :
  Dump.tokenizable rows1 = true -> Dump.tokenizable rows2 = true ->
  existsb (Ascii.eqb "(") junk = false ->
  parse_values_string
    (Dump.tuples rows1 ++ ")" :: junk ++ "(" :: Dump.tuples rows2)
  = rows1 ++ rows2
  /\ parse_values_string (Dump.tuples rows1 ++ ")" :: junk) = rows1.
Proof.
  intros H1 H2 Hjunk.
  destruct (after_paren_app junk (Dump.tuples rows2) Hjunk) as [Ein Eout].
  split.
  - rewrite parse_is_walk.
    change scan_start with (outside [] [] []).
    rewrite walk_tuples_closed by exact (tokenizable_rows rows1 H1).
    rewrite Ein. cbn [app].
    apply (walk_tuples rows2 (Some "(") rows1 (tokenizable_rows rows2 H2)).
  - rewrite parse_is_walk.
    change scan_start with (outside [] [] []).
    rewrite walk_tuples_closed by exact (tokenizable_rows rows1 H1).
    now rewrite Eout.
Qed.

Lemma text_between_tuples_is_skipped_witness :
  parse_values_string
    (Dump.tuples [ [Some (L "a"); None] ]
     ++ ")" :: (L " ," ++ [newline] ++ L "x'y) ")
     ++ "(" :: Dump.tuples [ [Some (L "b")]; [None; None] ])
  = [ [Some (L "a"); None] ] ++ [ [Some (L "b")]; [None; None] ]
  /\ parse_values_string
       (Dump.tuples [ [Some (L "a"); None] ]
        ++ ")" :: (L " ," ++ [newline] ++ L "x'y) "))
     = [ [Some (L "a"); None] ].
Proof. apply text_between_tuples_is_skipped; reflexivity. Defined.
Lemma lstrip_idem (s : str) : lstrip (lstrip s) = lstrip s.
Proof.
  induction s as [|c s IH]; [reflexivity|]. cbn [lstrip].
  destruct (isspace c) eqn:E; [exact IH|]. cbn [lstrip]. now rewrite E.
Qed.

Lemma rstrip_idem (s : str) : rstrip (rstrip s) = rstrip s.
Proof. unfold rstrip. now rewrite rev_involutive, lstrip_idem. Qed.

Lemma rstrip_cons_solid (c : ascii) (s : str) :
  isspace c = false -> rstrip (c :: s) = c :: rstrip s.
Proof.
  intros Hc. unfold rstrip. cbn [rev]. rewrite lstrip_app.
  destruct (forallb isspace (rev s)) eqn:E.
  - rewrite (lstrip_all_blank _ E). cbn [lstrip]. now rewrite Hc.
  - rewrite rev_app_distr. reflexivity.
Qed.

Lemma rstrip_no_char (q : ascii) (s : str) :
  existsb (Ascii.eqb q) s = false -> existsb (Ascii.eqb q) (rstrip s) = false.
Proof.
  intros H. apply not_true_is_false. intros Hex.
  apply existsb_exists in Hex as [c [Hin Hc]].
  unfold rstrip in Hin. apply in_rev in Hin. apply lstrip_incl in Hin.
  apply in_rev in Hin.
  assert (Hs : existsb (Ascii.eqb q) s = true)
    by (apply existsb_exists; now exists c).
  now rewrite H in Hs.
Qed.

Lemma endswith_absent (q : ascii) (s : str) (c : ascii) :
  Ascii.eqb q c = false -> existsb (Ascii.eqb q) s = false ->
  endswith [q] (c :: s) = false.
Proof.
  intros Hc Hs. apply not_true_is_false. intros He.
  apply endswith_snoc in He as [b Hb].
  assert (Hin : In q (c :: s)) by (rewrite Hb; apply in_or_app; right; now left).
  destruct Hin as [<-|Hin].
  - now rewrite Ascii.eqb_refl in Hc.
  - assert (Hex : existsb (Ascii.eqb q) s = true)
      by (apply existsb_exists; exists q; split;
          [exact Hin | apply Ascii.eqb_refl]).
    now rewrite Hs in Hex.
Qed.

(** A quote that is never closed: the scan stays inside it to the end. *)
Lemma walk_unclosed (q : ascii) (body : str) (prev : option ascii)
  (rs : list (list cell)) (row : list cell) (token : str) :
  existsb (Ascii.eqb q) body = false ->
  walk body prev false (mkScan rs row token true (Some q) 0)
  = mkScan rs row (token ++ body) true (Some q) 0.
Proof.
  revert prev token. induction body as [|c body IH]; intros prev token H.
  - cbn [walk]. now rewrite app_nil_r.
  - cbn [existsb] in H. apply orb_false_iff in H as [Hc H].
    rewrite walk_in_quotes, Hc. cbn [andb].
    rewrite (IH _ _ H), <- app_assoc. reflexivity.
Qed.

(** X7.  A quote that is never closed swallows the rest of the input,
    commas and parentheses included: a text that begins with a single or
    a double quote and holds no other quote of that kind is read as one
    row of one value, the text with its trailing blanks removed, or the
    empty text when nothing but blanks follows the quote. *)
Theorem unclosed_quote_takes_the_rest (q : ascii) (body : str) :
  q = squote \/ q = dquote ->
  existsb (Ascii.eqb q) body = false ->
  parse_values_string (q :: body)
  = [[Some match rstrip body with
           | [] => []
           | _ :: _ => q :: rstrip body
           end]].
Proof.
  intros Hq Hbody.
  assert (Hsolid : isspace q = false) by (destruct Hq; subst q; reflexivity).
  rewrite parse_is_walk.
  assert (Hopen : walk (q :: body) None false scan_start
                  = walk body (Some q) false
                      (mkScan [] [] [q] true (Some q) 0))
    by (destruct Hq; subst q; reflexivity).
  rewrite Hopen, walk_unclosed by exact Hbody.
  unfold scan_finish, push_value.
  cbn [current_value current_row rows app].
  assert (Hstrip : strip (q :: body) = q :: rstrip body).
  { unfold strip. rewrite lstrip_solid by exact Hsolid.
    now apply rstrip_cons_solid. }
  rewrite Hstrip. cbn [app]. do 3 f_equal.
  unfold clean_value.
  assert (Hagain : strip (q :: rstrip body) = q :: rstrip body).
  { unfold strip. rewrite lstrip_solid by exact Hsolid.
    rewrite rstrip_cons_solid by exact Hsolid. now rewrite rstrip_idem. }
  rewrite Hagain.
  assert (Hnull : PyStr.eqb (upper (q :: rstrip body)) (L "NULL") = false)
    by (destruct Hq; subst q; reflexivity).
  rewrite Hnull.
  pose proof (rstrip_no_char q body Hbody) as Hrest.
  destruct (rstrip body) as [|c rest] eqn:E.
  - destruct Hq; subst q; reflexivity.
  - cbn [existsb] in Hrest. apply orb_false_iff in Hrest as [Hc Hrest].
    assert (Hend : endswith [q] (q :: c :: rest) = false).
    { apply not_true_is_false. intros He.
      apply endswith_snoc in He as [[|x b] Hb]; [discriminate Hb|].
      injection Hb as _ Hb.
      assert (He : endswith [q] (c :: rest) = true)
        by (apply endswith_snoc; now exists b).
      now rewrite (endswith_absent q rest c Hc Hrest) in He. }
    destruct Hq; subst q.
    + rewrite Hend, andb_false_r.
      change (startswith [dquote] (squote :: c :: rest)) with false.
      cbn [andb]. now destruct (isdigit (squote :: c :: rest)).
    + change (startswith [squote] (dquote :: c :: rest)) with false.
      cbn [andb]. rewrite Hend, andb_false_r.
      now destruct (isdigit (dquote :: c :: rest)).
Qed.

Lemma unclosed_quote_takes_the_rest_witness :
  parse_values_string (squote :: L "a,b),(c  ")
  = [[Some match rstrip (L "a,b),(c  ") with
           | [] => []
           | _ :: _ => squote :: rstrip (L "a,b),(c  ")
           end]].
Proof. apply unclosed_quote_takes_the_rest; [now left | reflexivity]. Defined.

(** ** [extract_table_data] *)

Lemma keys_dict_set {V : Type} (d : dict V) (k : str) (v : V) :
  keys (dict_set d k v)
  = if existsb (fun k' => PyStr.eqb k' k) (keys d)
    then keys d else keys d ++ [k].
Proof.
  unfold keys. induction d as [|[k' v'] d IH]; [reflexivity|].
  cbn [dict_set map fst existsb]. destruct (PyStr.eqb k' k); [reflexivity|].
  cbn [map fst orb]. rewrite IH.
  now destruct (existsb (fun k'0 => PyStr.eqb k'0 k) (map fst d)).
Qed.

Lemma keys_fold_dict_set {V : Type} (kvs : list (str * V)) (d : dict V) :
  keys (fold_left (fun d kv => dict_set d (fst kv) (snd kv)) kvs d)
  = fold_left (fun ks k => if existsb (fun k' => PyStr.eqb k' k) ks
                           then ks else ks ++ [k])
              (map fst kvs) (keys d).
Proof.
  revert d. induction kvs as [|[k v] kvs IH]; intros d; [reflexivity|].
  cbn [fold_left map fst snd]. now rewrite IH, keys_dict_set.
Qed.

Lemma existsb_eqb_In (k : str) (ks : list str) :
  existsb (fun k' => PyStr.eqb k' k) ks = true <-> In k ks.
Proof.
  rewrite existsb_exists. split.
  - intros [k' [Hin E]]. apply eqb_true_iff in E. now subst k'.
  - intros Hin. exists k. split; [exact Hin | apply eqb_refl].
Qed.

(** The keys set one after the other: no key twice, every key set. *)
Lemma keys_set_in_turn (columns ks : list str) :
  NoDup ks ->
  NoDup (fold_left (fun ks k => if existsb (fun k' => PyStr.eqb k' k) ks
                                then ks else ks ++ [k]) columns ks)
  /\ forall k,
       In k (fold_left (fun ks k => if existsb (fun k' => PyStr.eqb k' k) ks
                                    then ks else ks ++ [k]) columns ks)
       <-> In k ks \/ In k columns.
Proof.
  revert ks. induction columns as [|c columns IH]; intros ks Hnd.
  - cbn [fold_left]. split; [exact Hnd|]. intros k. cbn [In]. tauto.
  - cbn [fold_left].
    destruct (existsb (fun k' => PyStr.eqb k' c) ks) eqn:E.
    + apply existsb_eqb_In in E. destruct (IH ks Hnd) as [IH1 IH2].
      split; [exact IH1|]. intros k. rewrite IH2. cbn [In].
      split; [tauto|]. intros [H|[<-|H]]; tauto.
    + assert (Hc : ~ In c ks).
      { intros Hin. apply existsb_eqb_In in Hin. now rewrite E in Hin. }
      assert (Hnd' : NoDup (ks ++ [c])).
      { apply NoDup_app.
        - exact Hnd.
        - repeat constructor. now intros [].
        - intros x Hx [<-|[]]. contradiction. }
      destruct (IH (ks ++ [c]) Hnd') as [IH1 IH2].
      split; [exact IH1|]. intros k. rewrite IH2, in_app_iff. cbn [In]. tauto.
Qed.

Lemma map_fst_combine {A B : Type} (xs : list A) (ys : list B) :
  length ys = length xs -> map fst (combine xs ys) = xs.
Proof.
  revert ys. induction xs as [|x xs IH]; intros [|y ys] H;
    try reflexivity; try discriminate H.
  cbn [combine map fst]. f_equal. apply IH. now injection H.
Qed.

(** The records of a dataset: rows of the right length, zipped. *)
Lemma dataset_records (columns : list str) (matches : list str) (r : record) :
  In r (Spec.dataset columns matches) ->
  exists row, row <> [] /\ length row = length columns
              /\ r = Spec.zip_record columns row.
Proof.
  unfold Spec.dataset. intros H.
  apply in_flat_map in H as [m [_ H]].
  apply in_map_iff in H as [row [<- H]].
  apply filter_In in H as [Hin Hlen]. apply Nat.eqb_eq in Hlen.
  exists row. repeat split; [|exact Hlen].
  pose proof (parse_values_string_nonempty (values_text_of m)) as Hne.
  unfold Spec.nonempty_rows in Hne. rewrite Forall_forall in Hne.
  now apply Hne.
Qed.

(** X8.  Every record of a table's dataset has the same keys in the same
    order: the column names of the table definition, each once, in the
    order of their first lines.  No record is empty, and when the
    definition declares no column twice the keys of a record are the
    column list itself. *)
Theorem records_share_the_columns
  (sql_content table_name : str) (columns : list str) :
  Spec.plain_name table_name ->
  table_columns sql_content table_name = ret columns ->
  (forall r, In r (extract_table_data sql_content table_name) ->
     r <> [] /\ NoDup (keys r) /\ forall k, In k (keys r) <-> In k columns)
  /\ (forall r1 r2,
        In r1 (extract_table_data sql_content table_name) ->
        In r2 (extract_table_data sql_content table_name) ->
        keys r1 = keys r2)
  /\ (NoDup columns ->
      forall r, In r (extract_table_data sql_content table_name) ->
        keys r = columns).
Proof.
  intros _ Hcolumns.
  rewrite table_columns_ret in Hcolumns. injection Hcolumns as Hcolumns.
  rewrite extract_table_data_eq, Hcolumns.
  assert (Hkeys : forall r,
            In r (Spec.dataset columns
                    (findall (insert_pattern table_name) sql_content)) ->
            columns <> []
            /\ keys r
               = fold_left (fun ks k =>
                              if existsb (fun k' => PyStr.eqb k' k) ks
                              then ks else ks ++ [k]) columns []).
  { intros r Hr.
    apply dataset_records in Hr as [row [Hne [Hlen ->]]]. split.
    - intros ->. destruct row; [now apply Hne | discriminate Hlen].
    - unfold Spec.zip_record.
      now rewrite keys_fold_dict_set, map_fst_combine. }
  destruct (keys_set_in_turn columns [] (NoDup_nil _)) as [Hnd Hin].
  repeat split.
  - intros ->. destruct (Hkeys [] H) as [Hne E].
    cbn [keys map] in E. destruct columns as [|c columns]; [now apply Hne|].
    assert (Hc : In c []) by (rewrite E; apply Hin; right; now left).
    exact Hc.
  - destruct (Hkeys r H) as [_ ->]. exact Hnd.
  - destruct (Hkeys r H) as [_ ->]. intros Hk.
    apply Hin in Hk. now destruct Hk.
  - destruct (Hkeys r H) as [_ ->]. intros Hk. apply Hin. now right.
  - intros r1 r2 H1 H2.
    destruct (Hkeys r1 H1) as [_ ->]. now destruct (Hkeys r2 H2) as [_ ->].
  - intros Hdistinct r Hr.
    apply dataset_records in Hr as [row [_ [Hlen ->]]].
    rewrite zip_record_combine by exact Hdistinct.
    now apply keys_combine.
Qed.

Lemma records_share_the_columns_witness :
  (forall r, In r (extract_table_data Examples.dump_mixed (L "t")) ->
     r <> [] /\ NoDup (keys r)
     /\ forall k, In k (keys r) <-> In k [L "col1"; L "col2"; L "col3"])
  /\ (forall r1 r2,
        In r1 (extract_table_data Examples.dump_mixed (L "t")) ->
        In r2 (extract_table_data Examples.dump_mixed (L "t")) ->
        keys r1 = keys r2)
  /\ (NoDup [L "col1"; L "col2"; L "col3"] ->
      forall r, In r (extract_table_data Examples.dump_mixed (L "t")) ->
        keys r = [L "col1"; L "col2"; L "col3"]).
Proof.
  apply (records_share_the_columns Examples.dump_mixed (L "t")
           [L "col1"; L "col2"; L "col3"]); reflexivity.
Defined.

Lemma lit_same (a b : str) :
  Spec.same_ignoring_case a b = true -> lit a = lit b.
Proof.
  unfold Spec.same_ignoring_case. rewrite eqb_true_iff. revert b.
  induction a as [|x a IH]; intros [|y b] H; try reflexivity;
    try discriminate H.
  cbn [map] in H. injection H as Hxy H.
  cbn [lit map]. fold (lit a). fold (lit b).
  rewrite (IH b H). unfold ci. now rewrite Hxy.
Qed.

(** X9.  The letter case of the requested table name does not matter:
    two names that differ only in the case of their letters give the same
    dataset, the pattern being compiled with IGNORECASE as a whole. *)
Theorem table_name_case_is_ignored (sql_content name1 name2 : str) :
  Spec.plain_name name1 -> Spec.plain_name name2 ->
  Spec.same_ignoring_case name1 name2 = true ->
  extract_table_data sql_content name1 = extract_table_data sql_content name2.
Proof.
  intros _ _ Hsame. rewrite !extract_table_data_eq.
  unfold insert_pattern, create_pattern.
  now rewrite (lit_same name1 name2 Hsame).
Qed.

Lemma table_name_case_is_ignored_witness :
  extract_table_data Examples.dump_mixed (L "T")
  = extract_table_data Examples.dump_mixed (L "t").
Proof. apply table_name_case_is_ignored; reflexivity. Defined.

(** ** [test_sql_file] *)

Import ModernMigrationTool.

(** Once the file is read, the five counts are the lengths of the five
    datasets: none of the keys looked up is missing. *)
Lemma count_records_content (content : str) :
  count_records (Content content)
  = inr ([ (L "users", extract_table_data content (L "is_user"));
           (L "admins", extract_table_data content (L "is_admin"));
           (L "accounts", extract_table_data content (L "is_account"));
           (L "tickets", extract_table_data content (L "is_ticket"));
           (L "ssl", extract_table_data content (L "is_ssl")) ],
         (length (extract_table_data content (L "is_user")),
          length (extract_table_data content (L "is_admin")),
          length (extract_table_data content (L "is_account")),
          length (extract_table_data content (L "is_ticket")),
          length (extract_table_data content (L "is_ssl")))).
Proof. reflexivity. Qed.

Lemma count_records_unreadable (cause : str) :
  count_records (Unreadable cause)
  = inl (L "Failed to parse SQL file: " ++ cause).
Proof. reflexivity. Qed.

(** X10.  The data kept for the migration changes only when the test
    succeeds: after every other exit (no path, no such file, a file that
    cannot be read, a file with no record) what was stored before is still
    stored; after a success the result of the parse is stored, the total
    shown is the sum of the five counts, and it is at least one. *)
Theorem stored_data_changes_only_on_success
  (entry : str) (path_exists : str -> bool) (read : str -> opened)
  (sql_parsed_data : option (dict (list record))) :
  match test_sql_file entry path_exists read sql_parsed_data with
  | (ParsedSuccessfully users admins accounts tickets ssl total, stored) =>
      exists content parsed_data,
        read (strip entry) = Content content
        /\ parse_sql_file (Content content) = inr parsed_data
        /\ stored = Some parsed_data
        /\ users = length (extract_table_data content (L "is_user"))
        /\ admins = length (extract_table_data content (L "is_admin"))
        /\ accounts = length (extract_table_data content (L "is_account"))
        /\ tickets = length (extract_table_data content (L "is_ticket"))
        /\ ssl = length (extract_table_data content (L "is_ssl"))
        /\ total = users + admins + accounts + tickets + ssl
        /\ 1 <= total
  | (_, stored) => stored = sql_parsed_data
  end.
Proof.
  unfold test_sql_file.
  destruct (strip entry) as [|c sql_file] eqn:Hentry; [reflexivity|].
  destruct (path_exists (c :: sql_file)); cbn [negb]; [|reflexivity].
  destruct (read (c :: sql_file)) as [cause|content] eqn:Hread.
  - now rewrite count_records_unreadable.
  - rewrite count_records_content.
    destruct (_ =? 0) eqn:Htotal; [reflexivity|].
    apply Nat.eqb_neq in Htotal.
    exists content. eexists. repeat split. lia.
Qed.

(** A text where no INSERT header of the table begins has no record of
    it. *)
Lemma no_header_no_record (content table_name : str) :
  Spec.no_start (Spec.insert_header table_name) content [] ->
  extract_table_data content table_name = [].
Proof.
  intros H. rewrite extract_table_data_eq.
  rewrite (findall_no_match (insert_pattern table_name) content);
    [reflexivity|].
  rewrite insert_pattern_eq. apply search_absent; [|exact H].
  discriminate.
Qed.

(** X11.  A file that exists and can be read, but in which no INSERT
    header of any of the five tables begins, gives the warning that no
    data was found, and leaves what was stored before as it was: the data
    of an earlier successful test is not cleared. *)
Theorem no_statement_gives_the_warning
  (entry : str) (path_exists : str -> bool) (read : str -> opened)
  (sql_parsed_data : option (dict (list record))) (content : str) :
  strip entry <> [] ->
  path_exists (strip entry) = true ->
  read (strip entry) = Content content ->
  forallb (fun table =>
             Spec.never_inside (Spec.starts_ci (Spec.insert_header table))
               content [])
          Spec.requested_tables = true ->
  test_sql_file entry path_exists read sql_parsed_data
  = (NoDataFound, sql_parsed_data).
Proof.
  intros Hentry Hexists Hread Hnone.
  rewrite forallb_forall in Hnone.
  assert (Hempty : forall table, In table Spec.requested_tables ->
            extract_table_data content table = []).
  { intros table Hin. apply no_header_no_record. exact (Hnone table Hin). }
  unfold test_sql_file.
  destruct (strip entry) as [|c sql_file]; [now contradiction Hentry|].
  rewrite Hexists, Hread, count_records_content. cbn [negb].
  rewrite !Hempty by (cbn; tauto). reflexivity.
Qed.

Lemma no_statement_gives_the_warning_witness :
  test_sql_file (L " dump.sql ")
    (fun _ => true) (fun _ => Content Examples.insert_two_blanks)
    (Some [(L "users", [[(L "id", Some (L "1"))]])])
  = (NoDataFound, Some [(L "users", [[(L "id", Some (L "1"))]])]).
Proof.
  apply (no_statement_gives_the_warning _ _ _ _ Examples.insert_two_blanks);
    [discriminate | reflexivity ..].
Defined.

(** X12.  The error box of the handler is shown exactly when the path is
    not blank, the file exists and it cannot be read; its text is the
    message of [parse_sql_file], the cause behind the fixed prefix.
    Looking up the five counts never fails. *)
Theorem error_box_means_unreadable
  (entry : str) (path_exists : str -> bool) (read : str -> opened)
  (sql_parsed_data : option (dict (list record))) (error_msg : str) :
  fst (test_sql_file entry path_exists read sql_parsed_data)
  = SqlFileError error_msg
  <-> strip entry <> []
      /\ path_exists (strip entry) = true
      /\ exists cause,
           read (strip entry) = Unreadable cause
           /\ error_msg = L "Failed to parse SQL file: " ++ cause.
Proof.
  unfold test_sql_file.
  destruct (strip entry) as [|c sql_file].
  { cbn [fst]. split; [discriminate | now intros [H _]]. }
  destruct (path_exists (c :: sql_file)); cbn [negb].
  2:{ cbn [fst]. split; [discriminate | now intros [_ [H _]]]. }
  destruct (read (c :: sql_file)) as [cause|content].
  - rewrite count_records_unreadable. cbn [fst]. split.
    + intros [= <-]. repeat split; [discriminate|]. now exists cause.
    + now intros [_ [_ [cause' [[= <-] ->]]]].
  - rewrite count_records_content. split.
    + destruct (_ =? 0); discriminate.
    + now intros [_ [_ [cause [Hread _]]]].
Qed.

(** ** Tuple lists in a looser layout *)

Lemma lstrip_head (s : str) :
  lstrip s = [] \/ exists c m, lstrip s = c :: m /\ isspace c = false.
Proof.
  induction s as [|c s IH]; [now left|]. cbn [lstrip].
  destruct (isspace c) eqn:E; [exact IH|]. right. now exists c, s.
Qed.

Lemma lstrip_nil_blank (s : str) : lstrip s = [] -> forallb isspace s = true.
Proof.
  induction s as [|c s IH]; [reflexivity|]. cbn [lstrip forallb].
  destruct (isspace c); [exact IH | discriminate].
Qed.

Lemma strip_idem (s : str) : strip (strip s) = strip s.
Proof.
  unfold strip at 2 3.
  destruct (lstrip_head s) as [E | [c [m [E Hc]]]]; rewrite E; [reflexivity|].
  rewrite rstrip_cons_solid by exact Hc. unfold strip.
  rewrite lstrip_solid by exact Hc.
  now rewrite rstrip_cons_solid, rstrip_idem.
Qed.

Lemma strip_nonblank (s : str) :
  forallb isspace s = false -> exists c rest, strip s = c :: rest.
Proof.
  intros H. unfold strip.
  destruct (lstrip_head s) as [E | [c [m [E Hc]]]].
  - apply lstrip_nil_blank in E. now rewrite H in E.
  - rewrite E, rstrip_cons_solid by exact Hc. eauto.
Qed.

Lemma clean_value_strip (s : str) : clean_value (strip s) = clean_value s.
Proof. unfold clean_value. now rewrite strip_idem. Qed.

Lemma blank_not_special (c : ascii) :
  isspace c = true -> Layout.special c = false.
Proof.
  intros H. unfold Layout.special.
  destruct (Ascii.eqb c squote) eqn:E1;
    [apply Ascii.eqb_eq in E1; subst c; discriminate H|].
  destruct (Ascii.eqb c dquote) eqn:E2;
    [apply Ascii.eqb_eq in E2; subst c; discriminate H|].
  destruct (Ascii.eqb c ",") eqn:E3;
    [apply Ascii.eqb_eq in E3; subst c; discriminate H|].
  destruct (Ascii.eqb c ")") eqn:E4;
    [apply Ascii.eqb_eq in E4; subst c; discriminate H|].
  reflexivity.
Qed.

Lemma blanks_not_special (ws : str) :
  forallb isspace ws = true -> existsb Layout.special ws = false.
Proof.
  induction ws as [|c ws IH]; [reflexivity|]. cbn [forallb existsb].
  intros H. apply andb_true_iff in H as [Hc H].
  now rewrite (blank_not_special c Hc), IH.
Qed.

(** Outside quotes a character that is no quote, comma or closing
    parenthesis joins the current value. *)
Lemma walk_plain_char (c : ascii) (rest : str) (prev : option ascii)
  (rs : list (list cell)) (row : list cell) (token : str) :
  Layout.special c = false ->
  walk (c :: rest) prev false (outside rs row token)
  = walk rest (Some c) false (outside rs row (token ++ [c])).
Proof.
  unfold Layout.special. intros H.
  apply orb_false_iff in H as [H H4]. apply orb_false_iff in H as [H H3].
  apply orb_false_iff in H as [H1 H2].
  cbn [walk]. unfold feed, outside.
  cbn [in_quotes negb andb rows current_row current_value quote_char i].
  now rewrite H1, H2, H3, H4.
Qed.

Lemma walk_plain (text more : str) (prev : option ascii)
  (rs : list (list cell)) (row : list cell) (token : str) :
  existsb Layout.special text = false ->
  walk (text ++ more) prev false (outside rs row token)
  = walk more (last_read prev text) false (outside rs row (token ++ text)).
Proof.
  revert prev token. induction text as [|c text IH]; intros prev token H.
  - cbn [app last_read fold_left]. now rewrite app_nil_r.
  - cbn [existsb] in H. apply orb_false_iff in H as [Hc H].
    cbn [app]. rewrite walk_plain_char by exact Hc.
    rewrite (IH _ _ H), <- app_assoc. reflexivity.
Qed.

Lemma walk_open (q : ascii) (rest : str) (prev : option ascii)
  (rs : list (list cell)) (row : list cell) (token : str) :
  q = squote \/ q = dquote ->
  walk (q :: rest) prev false (outside rs row token)
  = walk rest (Some q) false (mkScan rs row (token ++ [q]) true (Some q) 0).
Proof. intros [-> | ->]; reflexivity. Qed.

Lemma walk_quoted (q : ascii) (text more : str) (prev : option ascii)
  (rs : list (list cell)) (row : list cell) (token : str) :
  Ascii.eqb q backslash = false ->
  is_char backslash (last_read prev text) = false ->
  walk (Quoting.escape q text ++ q :: more) prev false
       (mkScan rs row token true (Some q) 0)
  = walk more (Some q) false
         (outside rs row (token ++ Quoting.escape q text ++ [q])).
Proof.
  intros Hq. revert prev token.
  induction text as [|c text IH]; intros prev token Hlast.
  - cbn [last_read fold_left] in Hlast.
    cbn [Quoting.escape flat_map app]. rewrite walk_in_quotes.
    now rewrite Ascii.eqb_refl, Hlast.
  - unfold Quoting.escape. cbn [flat_map]. fold (Quoting.escape q text).
    cbn [last_read fold_left] in Hlast. fold (last_read (Some c) text) in Hlast.
    unfold Quoting.escape_char.
    destruct (Ascii.eqb c backslash) eqn:Eb.
    + apply Ascii.eqb_eq in Eb. subst c.
      cbn [app]. rewrite walk_in_quotes, Hq. cbn [andb].
      rewrite walk_in_quotes, Hq. cbn [andb].
      rewrite (IH _ _ Hlast). now rewrite <- !app_assoc.
    + destruct (Ascii.eqb c q) eqn:Eq.
      * apply Ascii.eqb_eq in Eq. subst c.
        cbn [app]. rewrite walk_in_quotes, Hq. cbn [andb].
        rewrite walk_in_quotes. cbn [is_char].
        rewrite !Ascii.eqb_refl. cbn [andb negb].
        rewrite (IH _ _ Hlast). now rewrite <- !app_assoc.
      * cbn [app]. rewrite walk_in_quotes.
        rewrite Ascii.eqb_sym, Eq. cbn [andb].
        rewrite (IH _ _ Hlast). now rewrite <- !app_assoc.
Qed.

Lemma last_read_after (q : ascii) (text : str) :
  Ascii.eqb q backslash = false -> endswith [backslash] text = false ->
  is_char backslash (last_read (Some q) text) = false.
Proof.
  intros Hq. rewrite last_read_rev. unfold endswith. cbn [rev app].
  destruct (rev text) as [|c r]; [intros _; exact Hq|].
  cbn [is_char startswith]. now rewrite andb_true_r, Ascii.eqb_sym.
Qed.

Lemma readable_quoted (ws1 : str) (q : ascii) (text ws2 : str) :
  Layout.readable (Layout.Quoted ws1 q text ws2) = true ->
  forallb isspace ws1 = true /\ (q = squote \/ q = dquote)
  /\ endswith [backslash] text = false /\ forallb isspace ws2 = true.
Proof.
  cbn [Layout.readable]. intros H.
  apply andb_true_iff in H as [H H4]. apply andb_true_iff in H as [H H3].
  apply andb_true_iff in H as [H1 H2].
  repeat split; try assumption.
  - apply orb_true_iff in H2 as [H2|H2]; apply Ascii.eqb_eq in H2; tauto.
  - now apply negb_true_iff.
Qed.

(** A written value is read as one token. *)
Lemma walk_token (t : Layout.token) (more : str) (prev : option ascii)
  (rs : list (list cell)) (row : list cell) :
  Layout.readable t = true ->
  exists prev',
    walk (Layout.written t ++ more) prev false (outside rs row [])
    = walk more prev' false (outside rs row (Layout.written t)).
Proof.
  intros Ht. destruct t as [ws1 q text ws2|text].
  - apply readable_quoted in Ht as [H1 [Hq [Hend H2]]].
    assert (Hbs : Ascii.eqb q backslash = false)
      by (destruct Hq; subst q; reflexivity).
    exists (last_read (Some q) ws2).
    cbn [Layout.written]. unfold Quoting.literal.
    rewrite <- !app_assoc.
    rewrite walk_plain by now apply blanks_not_special.
    cbn [app]. rewrite walk_open by exact Hq.
    rewrite <- !app_assoc. cbn [app].
    rewrite walk_quoted by (try exact Hbs; now apply last_read_after).
    rewrite walk_plain by now apply blanks_not_special.
    now rewrite <- !app_assoc.
  - cbn [Layout.readable] in Ht. apply andb_true_iff in Ht as [_ Ht].
    apply negb_true_iff in Ht.
    exists (last_read prev text). cbn [Layout.written].
    now rewrite walk_plain.
Qed.

(** A written value is not blank, and cleaning it gives its value. *)
Lemma clean_written (t : Layout.token) :
  Layout.readable t = true ->
  clean_value (strip (Layout.written t)) = Layout.value t
  /\ exists c rest, strip (Layout.written t) = c :: rest.
Proof.
  intros Ht. destruct t as [ws1 q text ws2|text].
  - apply readable_quoted in Ht as [H1 [Hq [_ H2]]].
    assert (Hsolid : isspace q = false) by (destruct Hq; subst q; reflexivity).
    cbn [Layout.written Layout.value].
    rewrite strip_blanks by assumption.
    assert (Hs : strip (Quoting.literal q text) = Quoting.literal q text)
      by (unfold Quoting.literal; now apply strip_solid).
    rewrite Hs.
    split; [now apply clean_quoted_literal | unfold Quoting.literal; eauto].
  - cbn [Layout.readable] in Ht. apply andb_true_iff in Ht as [Ht _].
    apply negb_true_iff in Ht. cbn [Layout.written Layout.value].
    split; [apply clean_value_strip | now apply strip_nonblank].
Qed.

Lemma flush_written (t : Layout.token) (row : list cell) :
  Layout.readable t = true ->
  match strip (Layout.written t) with
  | [] => row
  | _ :: _ => row ++ [clean_value (strip (Layout.written t))]
  end = row ++ [Layout.value t].
Proof.
  intros Ht. destruct (clean_written t Ht) as [E [c [rest Es]]].
  rewrite E, Es. reflexivity.
Qed.

(** The values of a written row: all but the last are pushed, the last
    is the current value. *)
Lemma walk_row (t : Layout.token) (ts : list Layout.token) (more : str)
  (prev : option ascii) (rs : list (list cell)) (row : list cell) :
  forallb Layout.readable (t :: ts) = true ->
  exists prev',
    walk (Layout.values (t :: ts) ++ more) prev false (outside rs row [])
    = walk more prev' false
        (outside rs (row ++ map Layout.value (removelast (t :: ts)))
           (Layout.written (last ts t))).
Proof.
  revert t prev row. induction ts as [|t2 ts IH]; intros t prev row Hall.
  - cbn [forallb] in Hall. apply andb_true_iff in Hall as [Ht _].
    destruct (walk_token t more prev rs row Ht) as [prev' E].
    exists prev'. cbn [removelast last map]. rewrite app_nil_r. exact E.
  - cbn [forallb] in Hall. apply andb_true_iff in Hall as [Ht Hall].
    change (Layout.values (t :: t2 :: ts))
      with (Layout.written t ++ L "," ++ Layout.values (t2 :: ts)).
    rewrite <- !app_assoc.
    destruct (walk_token t (L "," ++ Layout.values (t2 :: ts) ++ more)
                prev rs row Ht) as [prev1 E1].
    rewrite E1. cbn [L list_ascii_of_string app].
    rewrite walk_comma, (proj1 (clean_written t Ht)).
    destruct (IH t2 (Some ",") (row ++ [Layout.value t]) Hall) as [prev' E].
    exists prev'. rewrite E.
    change (removelast (t :: t2 :: ts)) with (t :: removelast (t2 :: ts)).
    rewrite (last_cons ts t t2). cbn [map]. now rewrite <- app_assoc.
Qed.

Lemma readable_last (t : Layout.token) (ts : list Layout.token) :
  forallb Layout.readable (t :: ts) = true ->
  Layout.readable (last ts t) = true.
Proof.
  revert t. induction ts as [|t2 ts IH]; intros t H.
  - cbn [forallb] in H. now apply andb_true_iff in H as [H _].
  - cbn [forallb] in H. apply andb_true_iff in H as [_ H].
    rewrite (last_cons ts t t2). exact (IH t2 H).
Qed.

Lemma map_value_row (t : Layout.token) (ts : list Layout.token) :
  map Layout.value (removelast (t :: ts)) ++ [Layout.value (last ts t)]
  = map Layout.value (t :: ts).
Proof.
  rewrite <- (removelast_last_cons t ts) at 2. now rewrite map_app.
Qed.

(** The tuples after the first: each closing parenthesis ends the row
    being read, and the scan resumes after the next opening one. *)
Lemma walk_more_tuples (more : list (str * list Layout.token))
  (t : Layout.token) (prev : option ascii) (rs : list (list cell))
  (row : list cell) :
  Layout.readable t = true ->
  forallb (fun jr => negb (existsb (Ascii.eqb "(") (fst jr))
                     && Layout.readable_row (snd jr)) more = true ->
  scan_finish
    (walk (flat_map (fun jr => ")" :: fst jr ++ "(" :: Layout.values (snd jr))
                    more)
          prev false (outside rs row (Layout.written t)))
  = rs ++ (row ++ [Layout.value t])
          :: map (fun jr => map Layout.value (snd jr)) more.
Proof.
  revert t prev rs row.
  induction more as [|[junk r] more IH]; intros t prev rs row Ht Hmore.
  - cbn [flat_map walk map]. unfold scan_finish, push_value, outside.
    cbn [current_value current_row rows].
    now rewrite flush_written, flush_row.
  - cbn [forallb fst snd] in Hmore.
    apply andb_true_iff in Hmore as [Hjr Hmore].
    apply andb_true_iff in Hjr as [Hjunk Hr].
    apply negb_true_iff in Hjunk.
    destruct r as [|t' ts']; [discriminate Hr|].
    cbn [Layout.readable_row] in Hr.
    cbn [flat_map fst snd app].
    rewrite walk_closing_paren, flush_written, flush_row by exact Ht.
    rewrite <- app_assoc. cbn [app].
    rewrite (proj1 (after_paren_app junk _ Hjunk)).
    destruct (walk_row t' ts'
                (flat_map
                   (fun jr => ")" :: fst jr ++ "(" :: Layout.values (snd jr))
                   more)
                (Some "(") (rs ++ [row ++ [Layout.value t]]) [] Hr)
      as [prev' E].
    rewrite E. cbn [app].
    rewrite IH by (try exact Hmore; now apply readable_last).
    rewrite map_value_row, <- app_assoc. reflexivity.
Qed.

(** X13.  The tokenizer reads tuple lists in a looser layout than the
    one it is usually given: values between single or double quotes with
    blanks around them, bare tokens such as numbers and NULL, and any text
    free of opening parentheses between the closing parenthesis of a tuple
    and the opening parenthesis of the next.  Each quoted value is read as
    its text, each bare token as [clean_value] reads it, row by row. *)
Theorem loose_layout_is_read
  (first : list Layout.token) (more : list (str * list Layout.token)) :
  Layout.well_laid first more = true ->
  parse_values_string (Layout.tuples first more)
  = map Layout.value first
    :: map (fun jr => map Layout.value (snd jr)) more.
Proof.
  unfold Layout.well_laid. intros H. apply andb_true_iff in H as [Hfirst Hmore].
  destruct first as [|t ts]; [discriminate Hfirst|].
  cbn [Layout.readable_row] in Hfirst.
  rewrite parse_is_walk. unfold Layout.tuples.
  change scan_start with (outside [] [] []).
  destruct (walk_row t ts
              (flat_map
                 (fun jr => ")" :: fst jr ++ "(" :: Layout.values (snd jr))
                 more)
              None [] [] Hfirst) as [prev' E].
  rewrite E. cbn [app].
  rewrite walk_more_tuples by (try exact Hmore; now apply readable_last).
  now rewrite map_value_row.
Qed.

Lemma loose_layout_is_read_witness :
  parse_values_string
    (Layout.tuples
       [ Layout.Bare (L "1"); Layout.Quoted (L " ") dquote (L "a,b") [];
         Layout.Bare (L " null ") ]
       [ (L "," ++ [newline],
          [ Layout.Bare (L "2.5");
            Layout.Quoted [] squote (L "it's (x)") (L " ") ]) ])
  = map Layout.value
      [ Layout.Bare (L "1"); Layout.Quoted (L " ") dquote (L "a,b") [];
        Layout.Bare (L " null ") ]
    :: map (fun jr => map Layout.value (snd jr))
         [ (L "," ++ [newline],
            [ Layout.Bare (L "2.5");
              Layout.Quoted [] squote (L "it's (x)") (L " ") ]) ].
Proof. apply loose_layout_is_read. reflexivity. Defined.

(** ** The records as dictionaries *)

Lemma eqb_false_iff (a b : str) : PyStr.eqb a b = false <-> a <> b.
Proof.
  split.
  - intros H E. apply eqb_true_iff in E. now rewrite H in E.
  - intros H. apply not_true_is_false. intros E. now apply eqb_true_iff in E.
Qed.

Lemma dict_get_set_same {V : Type} (d : dict V) (k : str) (v : V) :
  dict_get (dict_set d k v) k = Some v.
Proof.
  induction d as [|[k' v'] d IH]; cbn [dict_set dict_get].
  - now rewrite eqb_refl.
  - destruct (PyStr.eqb k' k) eqn:E; cbn [dict_get]; now rewrite E.
Qed.

Lemma dict_get_set_other {V : Type} (d : dict V) (k k' : str) (v : V) :
  k <> k' -> dict_get (dict_set d k v) k' = dict_get d k'.
Proof.
  intros Hne. induction d as [|[k0 v0] d IH]; cbn [dict_set dict_get].
  - now rewrite (proj2 (eqb_false_iff k k') Hne).
  - destruct (PyStr.eqb k0 k) eqn:E; cbn [dict_get].
    + apply eqb_true_iff in E. subst k0.
      now rewrite (proj2 (eqb_false_iff k k') Hne).
    + now rewrite IH.
Qed.

(** Setting other keys leaves the value of a key as it was. *)
Lemma fold_dict_set_other (columns : list str) (row : list cell) (d : record)
  (c : str) :
  existsb (PyStr.eqb c) columns = false ->
  dict_get (fold_left (fun d kv => dict_set d (fst kv) (snd kv))
                      (combine columns row) d) c
  = dict_get d c.
Proof.
  revert row d. induction columns as [|x xs IH]; intros row d H;
    [reflexivity|].
  destruct row as [|v vs]; [reflexivity|].
  cbn [existsb] in H. apply orb_false_iff in H as [Hx H].
  cbn [combine fold_left fst snd]. rewrite (IH vs _ H).
  apply dict_get_set_other. apply eqb_false_iff in Hx. congruence.
Qed.

Lemma fold_dict_set_last (columns : list str) (row : list cell) (d : record)
  (k : nat) (c : str) :
  length row = length columns ->
  nth_error columns k = Some c ->
  existsb (PyStr.eqb c) (skipn (S k) columns) = false ->
  dict_get (fold_left (fun d kv => dict_set d (fst kv) (snd kv))
                      (combine columns row) d) c
  = nth_error row k.
Proof.
  revert row d k. induction columns as [|x xs IH]; intros row d k Hlen Hk Hlast.
  - now destruct k.
  - destruct row as [|v vs]; [discriminate Hlen|].
    injection Hlen as Hlen. cbn [combine fold_left fst snd].
    destruct k as [|k].
    + injection Hk as ->. cbn [skipn] in Hlast.
      rewrite (fold_dict_set_other xs vs _ c Hlast).
      apply dict_get_set_same.
    + cbn [nth_error] in *. apply (IH vs _ k Hlen Hk). exact Hlast.
Qed.

(** X14.  Looking a column up in the record of a row gives the value at
    the position of the column in the row; when the column name is
    declared more than once, the value at its last position.  A name that
    is no column is not a key of the record.  Building the record never
    raises when the row has as many values as there are columns. *)
Theorem lookup_gives_the_last_value
  (columns : list str) (row : list cell) (k : nat) (c : str) :
  length row = length columns ->
  nth_error columns k = Some c ->
  existsb (PyStr.eqb c) (skipn (S k) columns) = false ->
  exists row_dict,
    make_row_dict columns row = ret row_dict
    /\ dict_get row_dict c = nth_error row k
    /\ forall name, existsb (PyStr.eqb name) columns = false ->
         dict_get row_dict name = None.
Proof.
  intros Hlen Hk Hlast. exists (Spec.zip_record columns row).
  split; [now apply make_row_dict_ret|]. unfold Spec.zip_record. split.
  - now apply fold_dict_set_last.
  - intros name Hname. now rewrite fold_dict_set_other.
Qed.

Lemma lookup_gives_the_last_value_witness :
  exists row_dict,
    make_row_dict [L "id"; L "name"; L "id"]
                  [Some (L "1"); None; Some (L "3")] = ret row_dict
    /\ dict_get row_dict (L "id")
       = nth_error [Some (L "1"); None; Some (L "3")] 2
    /\ forall name,
         existsb (PyStr.eqb name) [L "id"; L "name"; L "id"] = false ->
         dict_get row_dict name = None.
Proof. apply lookup_gives_the_last_value; reflexivity. Defined.

(** ** The text around the statements of a table *)

Lemma findall_skip (re : regex) (pre s : str) :
  Spec.consuming re ->
  (forall j, j < length pre -> exec re (skipn j (pre ++ s)) = None) ->
  findall re (pre ++ s) = findall re s.
Proof.
  intros Hre H. pose proof (search_skip re pre s H) as E.
  destruct (search re s) as [[marks rest]|] eqn:Es.
  - now rewrite (findall_match re _ marks rest Hre E),
                (findall_match re _ marks rest Hre Es).
  - now rewrite (findall_no_match re _ E), (findall_no_match re _ Es).
Qed.

(** X15.  What stands before the first header of a table has no effect
    on its dataset: a text in which neither INSERT INTO nor CREATE TABLE
    followed by the quoted table name begins (the definitions and
    statements of other tables, comments) can be put before a dump, or
    removed from its front, without changing what is extracted. *)
Theorem text_before_the_table_is_ignored (table_name pre rest : str) :
  Spec.plain_name table_name ->
  Spec.no_start (Spec.insert_header table_name) pre rest ->
  Spec.no_start (Spec.create_header table_name) pre rest ->
  extract_table_data (pre ++ rest) table_name
  = extract_table_data rest table_name.
Proof.
  intros _ Hinsert Hcreate. rewrite !extract_table_data_eq.
  rewrite (findall_skip (insert_pattern table_name) pre rest).
  - rewrite (search_skip (create_pattern table_name) pre rest); [reflexivity|].
    rewrite create_pattern_eq. now apply no_start_no_exec.
  - apply insert_pattern_consuming.
  - rewrite insert_pattern_eq. now apply no_start_no_exec.
Qed.

Lemma text_before_the_table_is_ignored_witness :
  extract_table_data
    (L "-- dump
CREATE TABLE `is_user` (
  `id` int
) ENGINE=InnoDB;
INSERT INTO `is_user` VALUES (7);
" ++ Examples.dump_single_row) (L "t")
  = extract_table_data Examples.dump_single_row (L "t").
Proof. apply text_before_the_table_is_ignored; reflexivity. Defined.

(** ** Values left blank *)

Lemma strip_blank (ws : str) : forallb isspace ws = true -> strip ws = [].
Proof. intros H. unfold strip. now rewrite (lstrip_all_blank ws H). Qed.

(** X16.  A value left blank is kept or lost by its position: between
    two commas it is read as the empty text; after the last comma of a
    tuple it is dropped, so the row comes out one value short. *)
Theorem blank_value_is_kept_or_dropped
  (row1 row2 : list Layout.token) (ws : str) :
  Layout.readable_row row1 = true -> Layout.readable_row row2 = true ->
  forallb isspace ws = true ->
  parse_values_string
    (Layout.values row1 ++ "," :: ws ++ "," :: Layout.values row2)
  = [map Layout.value row1 ++ Some [] :: map Layout.value row2]
  /\ parse_values_string (Layout.values row1 ++ "," :: ws)
     = [map Layout.value row1].
Proof.
  intros H1 H2 Hws.
  destruct row1 as [|t1 ts1]; [discriminate H1|].
  destruct row2 as [|t2 ts2]; [discriminate H2|].
  cbn [Layout.readable_row] in H1, H2.
  pose proof (blanks_not_special ws Hws) as Hplain.
  split.
  - rewrite parse_is_walk. change scan_start with (outside [] [] []).
    destruct (walk_row t1 ts1 ("," :: ws ++ "," :: Layout.values (t2 :: ts2))
                None [] [] H1) as [prev1 E1].
    rewrite E1, walk_comma.
    rewrite (proj1 (clean_written _ (readable_last t1 ts1 H1))).
    cbn [app]. rewrite map_value_row.
    rewrite walk_plain by exact Hplain. cbn [app].
    rewrite walk_comma, (strip_blank ws Hws).
    rewrite <- (app_nil_r (Layout.values (t2 :: ts2))).
    destruct (walk_row t2 ts2 [] (Some ",") []
                (map Layout.value (t1 :: ts1) ++ [clean_value []]) H2)
      as [prev2 E2].
    rewrite E2. cbn [walk]. unfold scan_finish, push_value, outside.
    cbn [current_value current_row rows].
    rewrite flush_written by now apply readable_last.
    rewrite flush_row. cbn [app].
    now rewrite <- !app_assoc, map_value_row.
  - rewrite parse_is_walk. change scan_start with (outside [] [] []).
    destruct (walk_row t1 ts1 ("," :: ws) None [] [] H1) as [prev1 E1].
    rewrite E1, walk_comma.
    rewrite (proj1 (clean_written _ (readable_last t1 ts1 H1))).
    cbn [app]. rewrite map_value_row.
    rewrite <- (app_nil_r ws) at 1.
    rewrite walk_plain by exact Hplain. cbn [app walk].
    unfold scan_finish, push_value, outside.
    cbn [current_value current_row rows].
    now rewrite (strip_blank ws Hws).
Qed.

Lemma blank_value_is_kept_or_dropped_witness :
  parse_values_string
    (Layout.values [Layout.Bare (L "1")] ++ "," :: L " " ++ ","
       :: Layout.values [Layout.Quoted [] squote (L "x") []])
  = [map Layout.value [Layout.Bare (L "1")]
     ++ Some [] :: map Layout.value [Layout.Quoted [] squote (L "x") []]]
  /\ parse_values_string (Layout.values [Layout.Bare (L "1")] ++ "," :: L " ")
     = [map Layout.value [Layout.Bare (L "1")]].
Proof. apply blank_value_is_kept_or_dropped; reflexivity. Defined.

(** ** [start_migration] after [test_sql_file] *)

(** X17.  What unlocks a migration from an SQL file is that some test
    has succeeded, not that the file now selected was tested.  After a
    successful test, a later test that does not succeed (of any path)
    leaves the data of the first file stored, and [start_migration] does
    not ask for a test again, whatever non-blank path is now entered: with
    the new database configured and the confirmation given it starts, on
    the data of the first file. *)
Theorem stale_data_unlocks_the_migration
  (entry1 entry2 : str) (path_exists1 path_exists2 : str -> bool)
  (read1 read2 : str -> opened)
  (sql_parsed_data : option (dict (list record)))
  (cfg : settings) (confirm : bool) :
  succeeded (fst (test_sql_file entry1 path_exists1 read1 sql_parsed_data))
  = true ->
  succeeded
    (fst (test_sql_file entry2 path_exists2 read2
            (snd (test_sql_file entry1 path_exists1 read1 sql_parsed_data))))
  = false ->
  PyStr.eqb (source_type cfg) (L "database") = false ->
  truthy (strip (sql_file_path cfg)) = true ->
  forallb truthy [new_host cfg; new_database cfg; new_username cfg] = true ->
  exists content parsed_data,
    read1 (strip entry1) = Content content
    /\ parse_sql_file (Content content) = inr parsed_data
    /\ snd (test_sql_file entry2 path_exists2 read2
              (snd (test_sql_file entry1 path_exists1 read1 sql_parsed_data)))
       = Some parsed_data
    /\ start_migration true cfg
         (snd (test_sql_file entry2 path_exists2 read2
                 (snd (test_sql_file entry1 path_exists1 read1
                         sql_parsed_data))))
         confirm
       = if confirm then Started else Declined.
Proof.
  intros Hfirst Hsecond Hsource Hpath Hnew.
  assert (Hkept : forall stored,
            succeeded (fst (test_sql_file entry2 path_exists2 read2 stored))
            = false ->
            snd (test_sql_file entry2 path_exists2 read2 stored) = stored).
  { intros stored. unfold test_sql_file.
    destruct (strip entry2) as [|c sql_file]; [reflexivity|].
    destruct (path_exists2 (c :: sql_file)); cbn [negb]; [|reflexivity].
    destruct (read2 (c :: sql_file)) as [cause|content].
    - now rewrite count_records_unreadable.
    - rewrite count_records_content.
      destruct (_ =? 0); [reflexivity | discriminate]. }
  rewrite (Hkept _ Hsecond). clear Hkept Hsecond.
  revert Hfirst. unfold test_sql_file.
  destruct (strip entry1) as [|c sql_file]; [discriminate|].
  destruct (path_exists1 (c :: sql_file)); cbn [negb]; [|discriminate].
  destruct (read1 (c :: sql_file)) as [cause|content].
  - rewrite count_records_unreadable. discriminate.
  - rewrite count_records_content.
    destruct (_ =? 0); [discriminate|]. intros _.
    exists content. eexists. split; [reflexivity|]. split; [reflexivity|].
    split; [reflexivity|].
    unfold start_migration. cbn [negb snd has_data].
    rewrite Hsource, Hpath, Hnew. cbn [negb]. now destruct confirm.
Qed.

Lemma stale_data_unlocks_the_migration_witness :
  exists content parsed_data,
    (fun _ : str =>
       Content (Dump.dump (L "is_user") [L "user_email"]
                  [[[Some (L "a@b.c")]]]))
      (strip (L "a.sql"))
    = Content content
    /\ parse_sql_file (Content content) = inr parsed_data
    /\ snd (test_sql_file (L "b.sql") (fun _ => false)
              (fun _ => Unreadable [])
              (snd (test_sql_file (L "a.sql") (fun _ => true)
                      (fun _ =>
                         Content (Dump.dump (L "is_user") [L "user_email"]
                                    [[[Some (L "a@b.c")]]]))
                      None)))
       = Some parsed_data
    /\ start_migration true
         (mkSettings (L "sql_file") [] [] [] (L "b.sql")
            (L "localhost") (L "new") (L "root"))
         (snd (test_sql_file (L "b.sql") (fun _ => false)
                 (fun _ => Unreadable [])
                 (snd (test_sql_file (L "a.sql") (fun _ => true)
                         (fun _ =>
                            Content (Dump.dump (L "is_user") [L "user_email"]
                                       [[[Some (L "a@b.c")]]]))
                         None))))
         true
       = if true then Started else Declined.
Proof.
  apply (stale_data_unlocks_the_migration (L "a.sql") (L "b.sql")
           (fun _ => true) (fun _ => false)
           (fun _ =>
              Content (Dump.dump (L "is_user") [L "user_email"]
                         [[[Some (L "a@b.c")]]]))
           (fun _ => Unreadable []) None
           (mkSettings (L "sql_file") [] [] [] (L "b.sql")
              (L "localhost") (L "new") (L "root")) true);
    reflexivity.
Defined.

(** X18.  Until a test has succeeded, a migration from an SQL file does
    not start: with nothing stored, as at start-up (line 356), a test
    that does not end with the success box stores nothing, and
    [start_migration] with a path entered stops at the request to test the
    file first, whatever the other settings and the confirmation are. *)
Theorem untested_file_blocks_the_migration
  (entry : str) (path_exists : str -> bool) (read : str -> opened)
  (cfg : settings) (confirm : bool) :
  succeeded (fst (test_sql_file entry path_exists read None)) = false ->
  PyStr.eqb (source_type cfg) (L "database") = false ->
  truthy (strip (sql_file_path cfg)) = true ->
  snd (test_sql_file entry path_exists read None) = None
  /\ start_migration true cfg
       (snd (test_sql_file entry path_exists read None)) confirm
     = SqlFileNotTested.
Proof.
  intros Hfailed Hsource Hpath.
  assert (Hnone : snd (test_sql_file entry path_exists read None) = None).
  { revert Hfailed. unfold test_sql_file.
    destruct (strip entry) as [|c sql_file]; [reflexivity|].
    destruct (path_exists (c :: sql_file)); cbn [negb]; [|reflexivity].
    destruct (read (c :: sql_file)) as [cause|content].
    - now rewrite count_records_unreadable.
    - rewrite count_records_content.
      destruct (_ =? 0); [reflexivity | discriminate]. }
  split; [exact Hnone|]. rewrite Hnone.
  unfold start_migration. cbn [negb has_data].
  now rewrite Hsource, Hpath.
Qed.

Lemma untested_file_blocks_the_migration_witness :
  snd (test_sql_file (L "a.sql") (fun _ => true)
         (fun _ => Content Examples.dump_single_row) None) = None
  /\ start_migration true
       (mkSettings (L "sql_file") [] [] [] (L "a.sql")
          (L "localhost") (L "new") (L "root"))
       (snd (test_sql_file (L "a.sql") (fun _ => true)
               (fun _ => Content Examples.dump_single_row) None))
       true
     = SqlFileNotTested.
Proof. apply untested_file_blocks_the_migration; reflexivity. Defined.
